(** * AIvolution: a grid-based predator-prey ecosystem simulation

    Shallow embedding of the simulation engine ([sim/cell.py],
    [sim/animal.py], [sim/prey.py], [sim/predator.py], [sim/ecosystem.py],
    [sim/simulation.py]) and the properties of its specification.

    Modelling conventions.
    - Python objects live in a store: a [Cell] or an [Animal] reference is an
      index into the list of allocated objects of that class, so aliasing
      (a cell's [occupants] list and an animal's [position]) is by index, and
      [is] / default [==] on objects is equality of indices.
    - Python floats are read as exact rationals ([Q]); rounding, infinities
      and NaN are outside the model.  [0.7] is [7 # 10], [energy / 2] is
      division in [Q].
    - Methods that mutate objects are computations in a state-and-exception
      monad [M] over the store; an uncaught Python exception is the outcome
      [Raise], with the store as it was when the exception was raised.
    - The [random] module is an oracle held in the store: two streams of
      draws and a cursor.
    - The [while not placed] loops of [Simulation._initialize_animals] may
      run for ever; they are given a number of iterations ([fuel]).
    - Terrain labels are ASCII strings; a built cell keeps its terrain as a
      value of [Terrain], the two labels [__init__] accepts. *)

From Stdlib Require Import QArith Qminmax ZArith List String Ascii Lia Lqa.
From stdpp Require Import base numbers list.

Open Scope Q_scope.

(** ** Numbers *)

Definition Qlt_bool (x y : Q) : bool := negb (Qle_bool y x).

(** Python's [min(a, b)]: the first argument unless the second is smaller. *)
Definition py_min (a b : Q) : Q := if Qlt_bool b a then b else a.

(** ** Objects *)

Inductive Terrain := rock | soil.

Definition Terrain_eqb (x y : Terrain) : bool :=
  match x, y with
  | rock, rock | soil, soil => true
  | _, _ => false
  end.

(** [class Cell]; [map_reference] is the attribute [Ecosystem.__init__]
    attaches to the cells it creates (absent on a cell built on its own). *)
Record Cell := mkCell {
  terrain_type : Terrain;
  grass_amount : Q;
  occupants : list nat;
  map_reference : option nat
}.

(** The subclass of an animal with the attributes only that subclass has. *)
Inductive Class :=
| IsPrey (eat_amount : Q)
| IsPredator (attack_cost attack_damage : Q).

(** [class Animal] and its subclasses. *)
Record Animal := mkAnimal {
  class : Class;
  position : option nat;
  alive : bool;
  energy : Q;
  max_energy : Q;
  move_cost : Q;
  eat_efficiency : Q;
  reproduction_threshold : Q;
  reproduction_cost : Q
}.

Definition is_Prey (a : Animal) : bool :=
  match class a with IsPrey _ => true | IsPredator _ _ => false end.

Definition is_Predator (a : Animal) : bool :=
  match class a with IsPrey _ => false | IsPredator _ _ => true end.

(** A grid is a list of rows of cell references. *)
Definition Grid := list (list nat).

(** The store: allocated cells, animals and grids, and the random oracle. *)
Record Heap := mkHeap {
  cell_objs : list Cell;
  animal_objs : list Animal;
  grid_objs : list Grid;
  rng_index : nat -> nat;
  rng_unit : nat -> Q;
  rng_pos : nat
}.

Definition set_cells (f : list Cell -> list Cell) (h : Heap) : Heap :=
  mkHeap (f (cell_objs h)) (animal_objs h) (grid_objs h) (rng_index h) (rng_unit h) (rng_pos h).

Definition set_animals (f : list Animal -> list Animal) (h : Heap) : Heap :=
  mkHeap (cell_objs h) (f (animal_objs h)) (grid_objs h) (rng_index h) (rng_unit h) (rng_pos h).

Definition set_grids (f : list Grid -> list Grid) (h : Heap) : Heap :=
  mkHeap (cell_objs h) (animal_objs h) (f (grid_objs h)) (rng_index h) (rng_unit h) (rng_pos h).

Definition set_rng_pos (f : nat -> nat) (h : Heap) : Heap :=
  mkHeap (cell_objs h) (animal_objs h) (grid_objs h) (rng_index h) (rng_unit h) (f (rng_pos h)).

Definition with_position (p : option nat) (a : Animal) : Animal :=
  mkAnimal (class a) p (alive a) (energy a) (max_energy a) (move_cost a)
    (eat_efficiency a) (reproduction_threshold a) (reproduction_cost a).

Definition with_alive (b : bool) (a : Animal) : Animal :=
  mkAnimal (class a) (position a) b (energy a) (max_energy a) (move_cost a)
    (eat_efficiency a) (reproduction_threshold a) (reproduction_cost a).

Definition with_energy (e : Q) (a : Animal) : Animal :=
  mkAnimal (class a) (position a) (alive a) e (max_energy a) (move_cost a)
    (eat_efficiency a) (reproduction_threshold a) (reproduction_cost a).

Definition with_grass (g : Q) (c : Cell) : Cell :=
  mkCell (terrain_type c) g (occupants c) (map_reference c).

Definition with_occupants (l : list nat) (c : Cell) : Cell :=
  mkCell (terrain_type c) (grass_amount c) l (map_reference c).

Definition with_map_reference (m : option nat) (c : Cell) : Cell :=
  mkCell (terrain_type c) (grass_amount c) (occupants c) m.

(** ** The monad of mutating methods *)

(** [DanglingRef] and [OutOfFuel] are not Python exceptions: the first is
    the outcome of following an index that is not allocated, which no Python
    program can do; the second is the outcome of a [while] loop that has not
    ended within the number of iterations the model grants it. *)
Inductive Exn :=
| AttributeError | KeyError | IndexError | TypeError | ValueError
| DanglingRef | OutOfFuel.

Inductive Res (A : Type) :=
| Ok (a : A)
| Raise (e : Exn).
Arguments Ok {A} a.
Arguments Raise {A} e.

Definition M (A : Type) : Type := Heap -> Res A * Heap.

Definition ret {A} (a : A) : M A := fun h => (Ok a, h).

Definition raise {A} (e : Exn) : M A := fun h => (Raise e, h).

Definition bind {A B} (m : M A) (k : A -> M B) : M B :=
  fun h => match m h with
           | (Ok a, h') => k a h'
           | (Raise e, h') => (Raise e, h')
           end.

Notation "x <- m ;; k" := (bind m (fun x => k))
  (at level 65, m at next level, right associativity).
Notation "m ;;; k" := (bind m (fun _ => k))
  (at level 65, right associativity).

Definition get_cell (c : nat) : M Cell :=
  fun h => match cell_objs h !! c with
           | Some x => (Ok x, h)
           | None => (Raise DanglingRef, h)
           end.

Definition get_animal (a : nat) : M Animal :=
  fun h => match animal_objs h !! a with
           | Some x => (Ok x, h)
           | None => (Raise DanglingRef, h)
           end.

Definition get_grid (g : nat) : M Grid :=
  fun h => match grid_objs h !! g with
           | Some x => (Ok x, h)
           | None => (Raise DanglingRef, h)
           end.

(** Attribute assignment on an allocated object. *)
Definition update_cell (c : nat) (f : Cell -> Cell) : M unit :=
  x <- get_cell c ;;
  fun h => (Ok tt, set_cells (fun l => <[c := f x]> l) h).

Definition update_animal (a : nat) (f : Animal -> Animal) : M unit :=
  x <- get_animal a ;;
  fun h => (Ok tt, set_animals (fun l => <[a := f x]> l) h).

Definition update_grid (g : nat) (f : Grid -> Grid) : M unit :=
  x <- get_grid g ;;
  fun h => (Ok tt, set_grids (fun l => <[g := f x]> l) h).

(** Object creation: the new reference is the next free index. *)
Definition new_cell (x : Cell) : M nat :=
  fun h => (Ok (length (cell_objs h)), set_cells (fun l => l ++ [x]) h).

Definition new_animal (x : Animal) : M nat :=
  fun h => (Ok (length (animal_objs h)), set_animals (fun l => l ++ [x]) h).

Definition new_grid (x : Grid) : M nat :=
  fun h => (Ok (length (grid_objs h)), set_grids (fun l => l ++ [x]) h).

(** [random.random()]. *)
Definition random_random : M Q :=
  fun h => (Ok (rng_unit h (rng_pos h)), set_rng_pos S h).

(** [random.uniform(a, b)] is [a + (b - a) * random()].  Computed in
    floating point the sum may round up to [b], so [b] is a possible
    result; no property below relies on the result being under [b]. *)
Definition random_uniform (a b : Q) : M Q :=
  u <- random_random ;; ret (a + (b - a) * u).

(** [random.choice(seq)]: [IndexError] on an empty sequence. *)
Definition random_choice {A} (l : list A) : M A :=
  fun h => match l !! (rng_index h (rng_pos h) mod length l)%nat with
           | Some x => (Ok x, set_rng_pos S h)
           | None => (Raise IndexError, h)
           end.

(** [random.randint(a, b)]: [ValueError] on an empty range. *)
Definition random_randint (a b : Z) : M Z :=
  fun h => if (b <? a)%Z then (Raise ValueError, h)
           else (Ok (a + Z.of_nat (rng_index h (rng_pos h)) mod (b - a + 1))%Z,
                 set_rng_pos S h).

(** ** [sim/cell.py] *)

(** [str.lower()] on ASCII text. *)
Definition lower_ascii (c : ascii) : ascii :=
  let n := nat_of_ascii c in
  if ((65 <=? n) && (n <=? 90))%nat then ascii_of_nat (n + 32) else c.

Fixpoint lower (s : string) : string :=
  match s with
  | EmptyString => EmptyString
  | String c s' => String (lower_ascii c) (lower s')
  end.

Module Cell.

(** The membership test [terrain_type not in {"rock", "soil"}] of
    [__init__], on the lower-cased label. *)
Definition supported (label : string) : option Terrain :=
  if String.eqb (lower label) "rock" then Some rock
  else if String.eqb (lower label) "soil" then Some soil
  else None.

(** [Cell.__init__]: the object that is built, or [ValueError]. *)
Definition init (label : string) (initial_grass : Q) : M nat :=
  match supported label with
  | None => raise ValueError
  | Some t =>
      new_cell (mkCell t
                  (match t with soil => initial_grass | rock => 0 end)
                  [] None)
  end.

Definition is_fertile (c : Cell) : bool := Terrain_eqb (terrain_type c) soil.

Definition has_grass (c : Cell) : bool :=
  is_fertile c && Qlt_bool 0 (grass_amount c).

Definition occupant_count (c : Cell) : nat := length (occupants c).

Definition get_occupants (c : Cell) : list nat := occupants c.

Definition can_add_animal (c : Cell) : bool := (length (occupants c) <? 2)%nat.

(** [animal in self.occupants] *)
Definition is_occupant (animal : nat) (c : Cell) : bool :=
  existsb (Nat.eqb animal) (occupants c).

(** [list.remove(x)]: drops the first occurrence. *)
Fixpoint list_remove_first (x : nat) (l : list nat) : list nat :=
  match l with
  | [] => []
  | y :: l' => if Nat.eqb x y then l' else y :: list_remove_first x l'
  end.

Definition add_animal (self animal : nat) : M bool :=
  c <- get_cell self ;;
  if negb (can_add_animal c) then ret false
  else
    update_cell self (with_occupants (occupants c ++ [animal])) ;;;
    update_animal animal (with_position (Some self)) ;;;
    ret true.

Definition remove_animal (self animal : nat) : M unit :=
  c <- get_cell self ;;
  if is_occupant animal c then
    update_cell self (with_occupants (list_remove_first animal (occupants c))) ;;;
    update_animal animal (with_position None)
  else ret tt.

(** The loop [for animal in self.occupants: animal.position = None]. *)
Fixpoint clear_positions (l : list nat) : M unit :=
  match l with
  | [] => ret tt
  | animal :: l' =>
      update_animal animal (with_position None) ;;; clear_positions l'
  end.

Definition clear_occupants (self : nat) : M unit :=
  c <- get_cell self ;;
  clear_positions (occupants c) ;;;
  update_cell self (with_occupants []).

Definition consume_grass (self : nat) (amount : Q) : M Q :=
  c <- get_cell self ;;
  if negb (is_fertile c) || Qle_bool (grass_amount c) 0 then ret 0
  else
    let consumed := py_min (grass_amount c) amount in
    update_cell self (with_grass (grass_amount c - consumed)) ;;;
    ret consumed.

Definition regenerate_grass (self : nat) (amount : Q) : M unit :=
  c <- get_cell self ;;
  if is_fertile c then update_cell self (with_grass (grass_amount c + amount))
  else ret tt.

End Cell.

(** ** [sim/animal.py] *)

Inductive Direction := UP | DOWN | LEFT | RIGHT.

(** The dictionary [DIRECTIONS], in insertion order. *)
Definition DIRECTIONS : list (Direction * (Z * Z)) :=
  [(UP, (-1, 0)); (DOWN, (1, 0)); (LEFT, (0, -1)); (RIGHT, (0, 1))]%Z.

(** [DIRECTIONS[direction]] *)
Definition vector (d : Direction) : Z * Z :=
  match d with
  | UP => (-1, 0) | DOWN => (1, 0) | LEFT => (0, -1) | RIGHT => (0, 1)
  end%Z.

Definition vector_eqb (v w : Z * Z) : bool :=
  (fst v =? fst w)%Z && (snd v =? snd w)%Z.

(** The tuples [(action_id, args)]: [(MOVE, (direction,))], [(EAT, ())] or
    [(EAT, (occupant,))], and [(REPRODUCE, ())]. *)
Inductive Action :=
| MOVE (direction : Direction)
| EAT (target : option nat)
| REPRODUCE.

(** One entry of [perception["neighbors"]]. *)
Record Neighbor := mkNeighbor {
  n_cell : nat;
  n_terrain : Terrain;
  n_grass : Q;
  n_occupants : list nat
}.

(** A non-empty perception; [neighbors] is the dictionary keyed by offset,
    in insertion order. *)
Record Percept := mkPercept {
  current_cell : nat;
  neighbors : list ((Z * Z) * Neighbor);
  self_energy : Q
}.

(** What [see] returns: [None] is the empty dictionary. *)
Definition Perception := option Percept.

(** [neighbors.get(key)] *)
Fixpoint neighbors_get (key : Z * Z) (d : list ((Z * Z) * Neighbor)) : option Neighbor :=
  match d with
  | [] => None
  | (k, n) :: d' => if vector_eqb k key then Some n else neighbors_get key d'
  end.

(** The search loops for the coordinates of a cell in a grid: the first
    occurrence in row-major order. *)
Fixpoint find_col (p : nat) (row : list nat) (c : nat) : option nat :=
  match row with
  | [] => None
  | x :: row' => if Nat.eqb x p then Some c else find_col p row' (S c)
  end.

Fixpoint find_cell (p : nat) (g : Grid) (r : nat) : option (nat * nat) :=
  match g with
  | [] => None
  | row :: g' =>
      match find_col p row 0 with
      | Some c => Some (r, c)
      | None => find_cell p g' (S r)
      end
  end.

(** [0 <= r < len(grid) and 0 <= c < len(grid[0])] *)
Definition in_bounds (g : Grid) (r c : Z) : bool :=
  ((0 <=? r) && (r <? Z.of_nat (length g)) &&
   ((0 <=? c) && (c <? Z.of_nat (length (List.hd [] g)))))%Z.

(** [grid[r][c]] for non-negative indices. *)
Definition grid_at (g : Grid) (r c : Z) : option nat :=
  match g !! Z.to_nat r with
  | None => None
  | Some row => row !! Z.to_nat c
  end.

Definition index2 (g : Grid) (r c : Z) : M nat :=
  match grid_at g r c with
  | Some n => ret n
  | None => raise IndexError
  end.

(** The constructors: [Animal.__init__], then the attributes the subclass
    sets or overrides. *)
Definition Animal_init (cls : Class) (position : option nat) : Animal :=
  mkAnimal cls position true 50 100 2 (7 # 10) 80 40.

Definition with_max_energy (e : Q) (a : Animal) : Animal :=
  mkAnimal (class a) (position a) (alive a) (energy a) e (move_cost a)
    (eat_efficiency a) (reproduction_threshold a) (reproduction_cost a).

Definition with_reproduction_threshold (e : Q) (a : Animal) : Animal :=
  mkAnimal (class a) (position a) (alive a) (energy a) (max_energy a) (move_cost a)
    (eat_efficiency a) e (reproduction_cost a).

Definition Prey_init (position : option nat) : Animal :=
  with_reproduction_threshold 60
    (with_max_energy 80 (Animal_init (IsPrey 15) position)).

Definition Predator_init (position : option nat) : Animal :=
  with_reproduction_threshold 90
    (with_max_energy 120 (Animal_init (IsPredator 5 25) position)).

(** [self.__class__] as a constructor. *)
Definition class_init (c : Class) : option nat -> Animal :=
  match c with
  | IsPrey _ => Prey_init
  | IsPredator _ _ => Predator_init
  end.

Module Animal.

(** The nine offsets of [for dr in (-1, 0, 1): for dc in (-1, 0, 1)]. *)
Definition offsets : list (Z * Z) :=
  [(-1, -1); (-1, 0); (-1, 1); (0, -1); (0, 0); (0, 1); (1, -1); (1, 0); (1, 1)]%Z.

Fixpoint see_neighbors (g : Grid) (row col : Z) (l : list (Z * Z))
  : M (list ((Z * Z) * Neighbor)) :=
  match l with
  | [] => ret []
  | (dr, dc) :: l' =>
      let r := (row + dr)%Z in
      let c := (col + dc)%Z in
      if in_bounds g r c then
        n <- index2 g r c ;;
        neighbor <- get_cell n ;;
        rest <- see_neighbors g row col l' ;;
        ret (((dr, dc),
              mkNeighbor n (terrain_type neighbor)
                (if Cell.is_fertile neighbor then grass_amount neighbor else 0)
                (Cell.get_occupants neighbor)) :: rest)
      else see_neighbors g row col l'
  end.

Definition see (self : nat) (grid : nat) : M Perception :=
  a <- get_animal self ;;
  match position a with
  | None => ret None
  | Some p =>
      if negb (alive a) then ret None
      else
        g <- get_grid grid ;;
        match find_cell p g 0 with
        | None => ret None
        | Some (r, c) =>
            ns <- see_neighbors g (Z.of_nat r) (Z.of_nat c) offsets ;;
            ret (Some (mkPercept p ns (energy a)))
        end
  end.

(** The base policy: a random direction. *)
Definition action (self : nat) (perception : Perception) : M Action :=
  d <- random_choice (List.map fst DIRECTIONS) ;; ret (MOVE d).

Definition move (self : nat) (direction : Direction) : M bool :=
  a <- get_animal self ;;
  if negb (alive a) || Qlt_bool (energy a) (move_cost a) then ret false
  else
    match position a with
    | None => ret false
    | Some p =>
        pc <- get_cell p ;;
        match map_reference pc with
        | None => raise AttributeError
        | Some gref =>
            g <- get_grid gref ;;
            match find_cell p g 0 with
            | None => ret false
            | Some (current_row, current_col) =>
                let new_row := (Z.of_nat current_row + fst (vector direction))%Z in
                let new_col := (Z.of_nat current_col + snd (vector direction))%Z in
                if in_bounds g new_row new_col then
                  new_cell <- index2 g new_row new_col ;;
                  nc <- get_cell new_cell ;;
                  if Terrain_eqb (terrain_type nc) rock
                     || negb (Cell.can_add_animal nc)
                  then ret false
                  else
                    Cell.remove_animal p self ;;;
                    Cell.add_animal new_cell self ;;;
                    update_animal self (fun x => with_energy (energy x - move_cost x) x) ;;;
                    ret true
                else ret false
            end
        end
    end.

(** The base [eat]: nothing to eat. *)
Definition eat (self : nat) : M Q := ret 0.

Definition reproduce (self : nat) : M bool :=
  a <- get_animal self ;;
  if negb (alive a) || Qlt_bool (energy a) (reproduction_threshold a) then ret false
  else
    match position a with
    | None => ret false
    | Some p =>
        pc <- get_cell p ;;
        if negb (Cell.can_add_animal pc) then ret false
        else
          offspring <- new_animal (class_init (class a) (Some p)) ;;
          update_animal offspring (with_energy (energy a / 2)) ;;;
          update_animal self (fun x => with_energy (energy x - reproduction_cost x) x) ;;;
          Cell.add_animal p offspring
    end.

End Animal.

(** ** [sim/prey.py] *)

Module Prey.

(** The escape directions: the axis-aligned neighbours that are soil and
    not full. *)
Fixpoint safe_dirs (ns : list ((Z * Z) * Neighbor)) (dirs : list (Direction * (Z * Z)))
  : M (list Direction) :=
  match dirs with
  | [] => ret []
  | (dir_name, v) :: dirs' =>
      match neighbors_get v ns with
      | None => safe_dirs ns dirs'
      | Some neighbor =>
          if Terrain_eqb (n_terrain neighbor) soil then
            c <- get_cell (n_cell neighbor) ;;
            rest <- safe_dirs ns dirs' ;;
            ret (if Cell.can_add_animal c then dir_name :: rest else rest)
          else safe_dirs ns dirs'
      end
  end.

(** The loop over the occupants of the current cell; [None] when it
    ends without returning. *)
Fixpoint escape (ns : list ((Z * Z) * Neighbor)) (occ : list nat) : M (option Action) :=
  match occ with
  | [] => ret None
  | occupant :: occ' =>
      o <- get_animal occupant ;;
      if alive o then
        dirs <- safe_dirs ns DIRECTIONS ;;
        match dirs with
        | [] => escape ns occ'
        | _ :: _ => d <- random_choice dirs ;; ret (Some (MOVE d))
        end
      else escape ns occ'
  end.

(** The offsets of the neighbours with grass above 0.5 and room. *)
Fixpoint grass_dirs (ns : list ((Z * Z) * Neighbor)) : M (list (Z * Z)) :=
  match ns with
  | [] => ret []
  | (v, neighbor) :: ns' =>
      if Terrain_eqb (n_terrain neighbor) soil && Qlt_bool (1 # 2) (n_grass neighbor) then
        c <- get_cell (n_cell neighbor) ;;
        rest <- grass_dirs ns' ;;
        ret (if Cell.can_add_animal c then v :: rest else rest)
      else grass_dirs ns'
  end.

(** [for dir_name, vector in DIRECTIONS.items(): if vector in grass_dirs] *)
Fixpoint first_direction_in (vs : list (Z * Z)) (dirs : list (Direction * (Z * Z)))
  : option Direction :=
  match dirs with
  | [] => None
  | (dir_name, v) :: dirs' =>
      if existsb (vector_eqb v) vs then Some dir_name
      else first_direction_in vs dirs'
  end.

Definition action (self : nat) (perception : Perception) : M Action :=
  escaped <-
    match perception with
    | None => ret None
    | Some p =>
        cc <- get_cell (current_cell p) ;;
        escape (neighbors p) (Cell.get_occupants cc)
    end ;;
  match escaped with
  | Some act => ret act
  | None =>
      a <- get_animal self ;;
      hungry <-
        (if Qlt_bool (energy a) (max_energy a * (7 # 10)) then
           match perception with
           | None => ret false
           | Some p => cc <- get_cell (current_cell p) ;; ret (Cell.has_grass cc)
           end
         else ret false) ;;
      if hungry : bool then ret (EAT None)
      else
        fertile <-
          (if Qle_bool (reproduction_threshold a) (energy a) then
             match position a with
             | None => raise AttributeError
             | Some pos => pc <- get_cell pos ;; ret (Cell.can_add_animal pc)
             end
           else ret false) ;;
        if fertile : bool then ret REPRODUCE
        else
          match perception with
          | None => raise KeyError
          | Some p =>
              gd <- grass_dirs (neighbors p) ;;
              match first_direction_in gd DIRECTIONS with
              | Some d => ret (MOVE d)
              | None =>
                  d <- random_choice (List.map fst DIRECTIONS) ;; ret (MOVE d)
              end
          end
  end.

Definition eat (self : nat) : M Q :=
  a <- get_animal self ;;
  match position a, class a with
  | None, _ => ret 0
  | Some p, IsPrey eat_amount =>
      pc <- get_cell p ;;
      if negb (Cell.has_grass pc) then ret 0
      else
        consumed <- Cell.consume_grass p eat_amount ;;
        let energy_gain := consumed * eat_efficiency a in
        update_animal self
          (fun x => with_energy (py_min (energy x + energy_gain) (max_energy x)) x) ;;;
        ret energy_gain
  | Some p, IsPredator _ _ => pc <- get_cell p ;;
      if negb (Cell.has_grass pc) then ret 0 else raise AttributeError
  end.

End Prey.

(** ** [sim/predator.py] *)

Module Predator.

(** The first loop of [action]: the first living prey of the cell. *)
Fixpoint hunt_here (occ : list nat) : M (option Action) :=
  match occ with
  | [] => ret None
  | occupant :: occ' =>
      o <- get_animal occupant ;;
      if is_Prey o && alive o then ret (Some (EAT (Some occupant)))
      else hunt_here occ'
  end.

(** [any(isinstance(occ, Prey) for occ in occupants)] *)
Fixpoint any_prey (occ : list nat) : M bool :=
  match occ with
  | [] => ret false
  | x :: occ' =>
      o <- get_animal x ;;
      if is_Prey o then ret true else any_prey occ'
  end.

(** The name of a vector: the first entry of [DIRECTIONS] holding it. *)
Fixpoint direction_of (v : Z * Z) (dirs : list (Direction * (Z * Z))) : option Direction :=
  match dirs with
  | [] => None
  | (dir_name, w) :: dirs' =>
      if vector_eqb w v then Some dir_name else direction_of v dirs'
  end.

Fixpoint prey_dirs (ns : list ((Z * Z) * Neighbor)) : M (list Direction) :=
  match ns with
  | [] => ret []
  | (v, neighbor) :: ns' =>
      b <- any_prey (n_occupants neighbor) ;;
      rest <- prey_dirs ns' ;;
      ret (if b : bool then
             match direction_of v DIRECTIONS with
             | Some d => d :: rest
             | None => rest
             end
           else rest)
  end.

(** The loops of the low-energy rule: the first living prey seen at an
    offset that has a name. *)
Fixpoint living_prey_among (occ : list nat) : M bool :=
  match occ with
  | [] => ret false
  | x :: occ' =>
      o <- get_animal x ;;
      if is_Prey o && alive o then ret true else living_prey_among occ'
  end.

Fixpoint seek (ns : list ((Z * Z) * Neighbor)) : M (option Action) :=
  match ns with
  | [] => ret None
  | (v, neighbor) :: ns' =>
      b <- living_prey_among (n_occupants neighbor) ;;
      match (if b : bool then direction_of v DIRECTIONS else None) with
      | Some d => ret (Some (MOVE d))
      | None => seek ns'
      end
  end.

Definition action (self : nat) (perception : Perception) : M Action :=
  hunted <-
    match perception with
    | None => ret None
    | Some p =>
        cc <- get_cell (current_cell p) ;;
        hunt_here (Cell.get_occupants cc)
    end ;;
  match hunted with
  | Some act => ret act
  | None =>
      match perception with
      | None => raise KeyError
      | Some p =>
          dirs <- prey_dirs (neighbors p) ;;
          match dirs with
          | _ :: _ => d <- random_choice dirs ;; ret (MOVE d)
          | [] =>
              a <- get_animal self ;;
              sought <-
                (if Qlt_bool (energy a) (max_energy a * (6 # 10))
                 then seek (neighbors p) else ret None) ;;
              match sought with
              | Some act => ret act
              | None =>
                  fertile <-
                    (if Qle_bool (reproduction_threshold a) (energy a) then
                       match position a with
                       | None => raise AttributeError
                       | Some pos => pc <- get_cell pos ;; ret (Cell.can_add_animal pc)
                       end
                     else ret false) ;;
                  if fertile : bool then ret REPRODUCE
                  else d <- random_choice (List.map fst DIRECTIONS) ;; ret (MOVE d)
              end
          end
      end
  end.

Definition eat (self prey : nat) : M Q :=
  a <- get_animal self ;;
  q <- get_animal prey ;;
  if negb (alive a) || negb (alive q)
     || negb (bool_decide (position a = position q))
  then ret 0
  else
    match class a with
    | IsPrey _ => raise AttributeError
    | IsPredator attack_cost attack_damage =>
        update_animal self (fun x => with_energy (energy x - attack_cost) x) ;;;
        a1 <- get_animal self ;;
        if Qle_bool (energy a1) 0 then
          update_animal self (with_alive false) ;;; ret 0
        else
          update_animal prey (fun x => with_energy (energy x - attack_damage) x) ;;;
          q1 <- get_animal prey ;;
          if Qle_bool (energy q1) 0 then
            update_animal prey (with_alive false) ;;;
            a2 <- get_animal self ;;
            match position a2 with
            | None => raise AttributeError
            | Some p =>
                Cell.remove_animal p prey ;;;
                q2 <- get_animal prey ;;
                a3 <- get_animal self ;;
                let energy_gain := max_energy q2 * eat_efficiency a3 in
                update_animal self
                  (fun x => with_energy (py_min (energy x + energy_gain) (max_energy x)) x) ;;;
                ret energy_gain
            end
          else ret 0
    end.

End Predator.

(** ** Method dispatch on the class of the receiver *)

(** [animal.action(perception)] *)
Definition dispatch_action (animal : nat) (perception : Perception) : M Action :=
  a <- get_animal animal ;;
  match class a with
  | IsPrey _ => Prey.action animal perception
  | IsPredator _ _ => Predator.action animal perception
  end.

(** [animal.eat()] without an argument: [Predator.eat] misses its [prey]. *)
Definition dispatch_eat (animal : nat) : M Q :=
  a <- get_animal animal ;;
  match class a with
  | IsPrey _ => Prey.eat animal
  | IsPredator _ _ => raise TypeError
  end.

(** [animal.position.occupants[-1]] *)
Definition last_occupant (animal : nat) : M nat :=
  a <- get_animal animal ;;
  match position a with
  | None => raise AttributeError
  | Some p =>
      pc <- get_cell p ;;
      match List.last (List.map Some (occupants pc)) None with
      | Some x => ret x
      | None => raise IndexError
      end
  end.

(** [Animal.step] *)
Definition Animal_step (self : nat) (perception : Perception) : M (bool * list nat) :=
  act <- dispatch_action self perception ;;
  a <- get_animal self ;;
  if negb (alive a) then ret (false, [])
  else if Qle_bool (energy a) 0 then
    update_animal self (with_alive false) ;;;
    match position a with
    | Some p => Cell.remove_animal p self
    | None => ret tt
    end ;;;
    ret (false, [])
  else
    new_offspring <-
      match act with
      | MOVE d => Animal.move self d ;;; ret []
      | EAT _ => dispatch_eat self ;;; ret []
      | REPRODUCE =>
          ok <- Animal.reproduce self ;;
          if ok : bool then o <- last_occupant self ;; ret [o] else ret []
      end ;;
    a' <- get_animal self ;;
    ret (alive a', new_offspring).

(** ** [sim/ecosystem.py] *)

Module Ecosystem.

Record t := mk {
  map : nat;
  size : Z;
  grass_regrowth_rate : Q
}.

(** The inner loop of [__init__]: one row of [n] new cells. *)
Fixpoint init_row (gref : nat) (rock_density : Q) (n : nat) : M (list nat) :=
  match n with
  | O => ret []
  | S n' =>
      u <- random_random ;;
      cell <-
        (if Qlt_bool u rock_density then Cell.init "rock" 1
         else g <- random_uniform (1 # 2) 1 ;; Cell.init "soil" g) ;;
      update_cell cell (with_map_reference (Some gref)) ;;;
      rest <- init_row gref rock_density n' ;;
      ret (cell :: rest)
  end.

(** The outer loop: [n] rows of [width] cells appended to the grid. *)
Fixpoint init_rows (gref : nat) (rock_density : Q) (width n : nat) : M unit :=
  match n with
  | O => ret tt
  | S n' =>
      row <- init_row gref rock_density width ;;
      update_grid gref (fun g => g ++ [row]) ;;;
      init_rows gref rock_density width n'
  end.

(** [Ecosystem.__init__]; [range(size)] is empty for [size <= 0]. *)
Definition init (size : Z) (grass_regrowth_rate rock_density : Q) : M t :=
  gref <- new_grid [] ;;
  init_rows gref rock_density (Z.to_nat size) (Z.to_nat size) ;;;
  ret (mk gref size grass_regrowth_rate).

Definition transform (self : t) (animal : nat) (act : Action) : M (bool * list nat) :=
  match act with
  | MOVE direction =>
      Animal.move animal direction ;;;
      a <- get_animal animal ;; ret (alive a, [])
  | EAT target =>
      a <- get_animal animal ;;
      match (if is_Predator a then target else None) with
      | Some t =>
          q <- get_animal t ;;
          (if is_Prey q then Predator.eat animal t else dispatch_eat animal) ;;;
          a' <- get_animal animal ;; ret (alive a', [])
      | None =>
          dispatch_eat animal ;;;
          a' <- get_animal animal ;; ret (alive a', [])
      end
  | REPRODUCE =>
      success <- Animal.reproduce animal ;;
      if success : bool then
        a <- get_animal animal ;;
        o <- last_occupant animal ;;
        ret (alive a, [o])
      else
        a <- get_animal animal ;; ret (alive a, [])
  end.

Fixpoint regenerate_row (rate : Q) (row : list nat) : M unit :=
  match row with
  | [] => ret tt
  | cell :: row' =>
      c <- get_cell cell ;;
      (if Terrain_eqb (terrain_type c) soil then Cell.regenerate_grass cell rate
       else ret tt) ;;;
      regenerate_row rate row'
  end.

Fixpoint regenerate_rows (rate : Q) (g : Grid) : M unit :=
  match g with
  | [] => ret tt
  | row :: g' => regenerate_row rate row ;;; regenerate_rows rate g'
  end.

Definition regenerate_grass (self : t) : M unit :=
  g <- get_grid (map self) ;;
  regenerate_rows (grass_regrowth_rate self) g.

End Ecosystem.

(** ** [sim/simulation.py] *)

Module Simulation.

Record t := mk {
  ecosystem : Ecosystem.t;
  animals : list nat;
  max_steps : Z;
  current_step : Z
}.

(** The loop [while not placed] of [_initialize_animals]: draws a cell
    until one is soil with room, and puts a new animal of the given class
    there.  [fuel] bounds the number of draws. *)
Fixpoint place (fuel : nat) (eco : Ecosystem.t) (new : option nat -> Animal) : M nat :=
  match fuel with
  | O => raise OutOfFuel
  | S fuel' =>
      r <- random_randint 0 (Ecosystem.size eco - 1) ;;
      c <- random_randint 0 (Ecosystem.size eco - 1) ;;
      g <- get_grid (Ecosystem.map eco) ;;
      cell <- index2 g r c ;;
      x <- get_cell cell ;;
      if negb (Terrain_eqb (terrain_type x) rock) && Cell.can_add_animal x then
        animal <- new_animal (new (Some cell)) ;;
        Cell.add_animal cell animal ;;;
        ret animal
      else place fuel' eco new
  end.

(** The loop [for _ in range(count)] around it: the animals placed, in
    order. *)
Fixpoint place_all (fuel : nat) (eco : Ecosystem.t) (new : option nat -> Animal)
    (count : nat) : M (list nat) :=
  match count with
  | O => ret []
  | S count' =>
      animal <- place fuel eco new ;;
      rest <- place_all fuel eco new count' ;;
      ret (animal :: rest)
  end.

(** [Simulation.__init__] with [_initialize_animals]; the last two
    arguments are the keyword arguments passed on to [Ecosystem]. *)
Definition init (fuel : nat) (size : Z) (initial_prey initial_predators : Z)
    (max_steps : Z) (grass_regrowth_rate rock_density : Q) : M t :=
  eco <- Ecosystem.init size grass_regrowth_rate rock_density ;;
  prey <- place_all fuel eco Prey_init (Z.to_nat initial_prey) ;;
  predators <- place_all fuel eco Predator_init (Z.to_nat initial_predators) ;;
  ret (mk eco (prey ++ predators) max_steps 0).

(** Phase 1 of [next_step]: the perception and the decision of every
    living animal, in population order. *)
Fixpoint decide (grid : nat) (l : list nat) : M (list (nat * Action)) :=
  match l with
  | [] => ret []
  | animal :: l' =>
      a <- get_animal animal ;;
      if alive a then
        perception <- Animal.see animal grid ;;
        act <- dispatch_action animal perception ;;
        rest <- decide grid l' ;;
        ret ((animal, act) :: rest)
      else decide grid l'
  end.

(** One loop of phase 2, over the animals of one class: the animals found
    dead after their action and the offspring, in order. *)
Fixpoint execute (eco : Ecosystem.t) (of_class : Animal -> bool)
    (actions : list (nat * Action)) : M (list nat * list nat) :=
  match actions with
  | [] => ret ([], [])
  | (animal, act) :: rest =>
      a <- get_animal animal ;;
      if of_class a && alive a then
        r <- Ecosystem.transform eco animal act ;;
        rs <- execute eco of_class rest ;;
        ret ((if fst r then [] else [animal]) ++ fst rs, snd r ++ snd rs)
      else execute eco of_class rest
  end.

(** [[a for a in self.animals if a.alive and a not in dead_animals]] *)
Fixpoint survivors (dead : list nat) (l : list nat) : M (list nat) :=
  match l with
  | [] => ret []
  | x :: l' =>
      a <- get_animal x ;;
      rest <- survivors dead l' ;;
      ret (if alive a && negb (existsb (Nat.eqb x) dead) then x :: rest else rest)
  end.

(** [next_step]: the returned flag and the simulation object afterwards. *)
Definition next_step (self : t) : M (bool * t) :=
  if (max_steps self <=? current_step self)%Z then ret (false, self)
  else
    actions <- decide (Ecosystem.map (ecosystem self)) (animals self) ;;
    r1 <- execute (ecosystem self) is_Predator actions ;;
    r2 <- execute (ecosystem self) is_Prey actions ;;
    let dead_animals := fst r1 ++ fst r2 in
    let new_animals := snd r1 ++ snd r2 in
    kept <- survivors dead_animals (animals self) ;;
    Ecosystem.regenerate_grass (ecosystem self) ;;;
    ret (true, mk (ecosystem self) (kept ++ new_animals) (max_steps self)
                 (current_step self + 1)%Z).

(** The loop of [run]; besides the simulation object it returns the
    number of times [next_step] was called. *)
Fixpoint run_loop (n : nat) (self : t) : M (t * nat) :=
  match n with
  | O => ret (self, 0%nat)
  | S n' =>
      r <- next_step self ;;
      if fst r then
        x <- run_loop n' (snd r) ;; ret (fst x, S (snd x))
      else ret (snd r, 1%nat)
  end.

(** [run(steps)]; [steps or self.max_steps] is [self.max_steps] when
    [steps] is [None] or [0]. *)
Definition run (self : t) (steps : option Z) : M (t * nat) :=
  let steps' :=
    match steps with
    | None => max_steps self
    | Some s => if (s =? 0)%Z then max_steps self else s
    end in
  run_loop (Z.to_nat steps') self.

Fixpoint count_living (of_class : Animal -> bool) (l : list nat) : M nat :=
  match l with
  | [] => ret 0%nat
  | x :: l' =>
      a <- get_animal x ;;
      k <- count_living of_class l' ;;
      ret (if of_class a && alive a then S k else k)
  end.

Definition get_population_counts (self : t) : M (nat * nat) :=
  prey <- count_living is_Prey (animals self) ;;
  predators <- count_living is_Predator (animals self) ;;
  ret (prey, predators).

End Simulation.

(** ** Scenario stores *)

(** A random source whose every draw is zero: [random.choice] picks the
    first element and [random.random()] returns [0.0]. *)
Definition empty_heap : Heap :=
  mkHeap [] [] [] (fun _ => 0%nat) (fun _ => 0) 0.

(** One soil cell holding the given amount of grass, not part of a grid. *)
Definition lone_cell_heap (t : Terrain) (grass : Q) : Heap :=
  mkHeap [mkCell t grass [] None] [] [] (fun _ => 0%nat) (fun _ => 0) 0.

(** ** Vocabulary of the properties *)

(** An empty world: a grid without rows, no animal. *)
Definition empty_world_heap : Heap :=
  mkHeap [] [] [[]] (fun _ => 0%nat) (fun _ => 0) 0.

(** The simulation object of the empty world, at step 0. *)
Definition empty_simulation (max_steps : Z) : Simulation.t :=
  Simulation.mk (Ecosystem.mk 0 0 (1 # 10)) [] max_steps 0.

(** The entry [see] builds for the cell [n]. *)
Definition perceived (h : Heap) (n : nat) (nb : Neighbor) : Prop :=
  exists cell,
    cell_objs h !! n = Some cell
    /\ nb = mkNeighbor n (terrain_type cell)
              (if Cell.is_fertile cell then grass_amount cell else 0)
              (Cell.get_occupants cell).

(** A prey of energy [e] alone in the top left cell of a 2 x 2 grid of
    soil, with grass everywhere. *)
Definition prey_alone_heap (e : Q) : Heap :=
  mkHeap [mkCell soil 1 [0%nat] (Some 0%nat); mkCell soil 1 [] (Some 0%nat);
          mkCell soil 1 [] (Some 0%nat); mkCell soil 1 [] (Some 0%nat)]
         [with_energy e (Prey_init (Some 0%nat))]
         [[[0%nat; 1%nat]; [2%nat; 3%nat]]] (fun _ => 0%nat) (fun _ => 0) 0.

(** The grid of the animal's cell and the coordinates [new_row], [new_col]
    that [move] computes for the direction, when the animal has a position
    that its grid holds. *)
Definition destination (h : Heap) (a : Animal) (d : Direction) : option (Grid * Z * Z) :=
  match position a with
  | None => None
  | Some p =>
      match cell_objs h !! p with
      | None => None
      | Some pc =>
          match map_reference pc with
          | None => None
          | Some gref =>
              match grid_objs h !! gref with
              | None => None
              | Some g =>
                  match find_cell p g 0 with
                  | None => None
                  | Some (r, c) =>
                      Some (g, (Z.of_nat r + fst (vector d))%Z,
                               (Z.of_nat c + snd (vector d))%Z)
                  end
              end
          end
      end
  end.

(** A predator of energy [e] and a prey of energy [e'] in the only cell of
    a 1 x 1 grid of soil. *)
Definition hunting_heap (e e' : Q) : Heap :=
  mkHeap [mkCell soil 1 [0%nat; 1%nat] (Some 0%nat)]
         [with_energy e (Predator_init (Some 0%nat));
          with_energy e' (Prey_init (Some 0%nat))]
         [[[0%nat]]] (fun _ => 0%nat) (fun _ => 0) 0.

(** A predator and a prey as their constructors build them by default:
    neither has been placed in a cell. *)
Definition unplaced_pair_heap : Heap :=
  mkHeap [] [Predator_init None; Prey_init None] []
         (fun _ => 0%nat) (fun _ => 0) 0.

(** [x] is among the occupants of the cell [c]. *)
Definition member (h : Heap) (x c : nat) : Prop :=
  exists cell, cell_objs h !! c = Some cell /\ In x (occupants cell).

(** The invariant of the specification: a living animal with a position
    is an occupant of exactly that cell; a dead animal, and an animal
    without a position, is an occupant of no cell. *)
Definition reference_consistent (h : Heap) : Prop :=
  forall x a, animal_objs h !! x = Some a ->
    (alive a = true ->
     forall p, position a = Some p ->
       member h x p /\ forall c, member h x c -> c = p)
    /\ (alive a = false \/ position a = None -> forall c, ~ member h x c).

(** The simulation object over the grid of a scenario store, of the given
    side, with the given population and ten steps to run. *)
Definition simulation_of (size : Z) (population : list nat) : Simulation.t :=
  Simulation.mk (Ecosystem.mk 0 size (1 # 10)) population 10 0.

(** The core operations, as a caller may issue them in any order. *)
Inductive CoreOp :=
| op_add (cell animal : nat)
| op_remove (cell animal : nat)
| op_clear (cell : nat)
| op_consume (cell : nat) (amount : Q)
| op_regenerate (cell : nat) (amount : Q)
| op_move (animal : nat) (direction : Direction)
| op_prey_eat (animal : nat)
| op_predator_eat (animal prey : nat)
| op_reproduce (animal : nat)
| op_step (animal : nat) (perception : Perception)
| op_transform (animal : nat) (act : Action)
| op_next_step
| op_run (steps : option Z).

(** The simulation object and the store after one operation; an operation
    that raises leaves the store as it was when it raised. *)
Definition apply_op (op : CoreOp) (st : Simulation.t * Heap) : Simulation.t * Heap :=
  let (s, h) := st in
  match op with
  | op_add c a => (s, snd (Cell.add_animal c a h))
  | op_remove c a => (s, snd (Cell.remove_animal c a h))
  | op_clear c => (s, snd (Cell.clear_occupants c h))
  | op_consume c amount => (s, snd (Cell.consume_grass c amount h))
  | op_regenerate c amount => (s, snd (Cell.regenerate_grass c amount h))
  | op_move a d => (s, snd (Animal.move a d h))
  | op_prey_eat a => (s, snd (Prey.eat a h))
  | op_predator_eat a prey => (s, snd (Predator.eat a prey h))
  | op_reproduce a => (s, snd (Animal.reproduce a h))
  | op_step a perception => (s, snd (Animal_step a perception h))
  | op_transform a act =>
      (s, snd (Ecosystem.transform (Simulation.ecosystem s) a act h))
  | op_next_step =>
      match Simulation.next_step s h with
      | (Ok (_, s'), h') => (s', h')
      | (Raise _, h') => (s, h')
      end
  | op_run steps =>
      match Simulation.run s steps h with
      | (Ok (s', _), h') => (s', h')
      | (Raise _, h') => (s, h')
      end
  end.

(** A sequence of operations, from left to right. *)
Definition apply_ops (ops : list CoreOp) (st : Simulation.t * Heap)
  : Simulation.t * Heap :=
  fold_left (fun st op => apply_op op st) ops st.

(** No cell holds more than two occupants. *)
Definition occupancy_bounded (h : Heap) : Prop :=
  forall c cell, cell_objs h !! c = Some cell -> (Cell.occupant_count cell <= 2)%nat.

(** A property of the store that holds after a computation, whether it
    returns or raises, whenever it holds before. *)
Definition preserves {A} (P : Heap -> Prop) (m : M A) : Prop :=
  forall h, P h -> P (snd (m h)).

(** Predicates on the cells alone. *)
Definition on_cells (P : Heap -> Prop) : Prop :=
  forall h h', cell_objs h' = cell_objs h -> P h -> P h'.

(** ** Vocabulary of the further properties *)

(** [h'] holds the objects of [h], all in the same state; the random source
    is the same, read further or not. *)
Definition same_objects (h h' : Heap) : Prop :=
  cell_objs h' = cell_objs h /\ animal_objs h' = animal_objs h
  /\ grid_objs h' = grid_objs h
  /\ rng_index h' = rng_index h /\ rng_unit h' = rng_unit h
  /\ (rng_pos h <= rng_pos h')%nat.

(** The animal [x] of the store is alive. *)
Definition living (h : Heap) (x : nat) : Prop :=
  exists a, animal_objs h !! x = Some a /\ alive a = true.

(** The reference [x] is an allocated animal. *)
Definition allocated (h : Heap) (x : nat) : Prop :=
  is_Some (animal_objs h !! x).

(** The animal [x] of the store is a living prey. *)
Definition living_prey (h : Heap) (x : nat) : Prop :=
  exists a, animal_objs h !! x = Some a /\ is_Prey a = true /\ alive a = true.


(** Every cell of the store satisfies [Q]. *)
Definition every_cell (Q : Cell -> Prop) (h : Heap) : Prop :=
  forall c cell, cell_objs h !! c = Some cell -> Q cell.

(** An assignment to an animal that leaves its class and its constants as
    they are and does not bring it back to life. *)
Definition keeps_identity (f : Animal -> Animal) : Prop :=
  forall x,
    class (f x) = class x /\ max_energy (f x) = max_energy x
    /\ move_cost (f x) = move_cost x /\ eat_efficiency (f x) = eat_efficiency x
    /\ reproduction_threshold (f x) = reproduction_threshold x
    /\ reproduction_cost (f x) = reproduction_cost x
    /\ (alive (f x) = true -> alive x = true).

(** The operations whose amounts of grass to regenerate satisfy [ok]. *)
Definition op_amounts (ok : Q -> Prop) (op : CoreOp) : Prop :=
  match op with
  | op_regenerate _ amount => ok amount
  | _ => True
  end.


(** Rock holds no grass. *)
Definition rock_without_grass : Heap -> Prop :=
  every_cell (fun c => terrain_type c = rock -> grass_amount c = 0).

(** No cell holds a negative amount of grass. *)
Definition grass_not_negative : Heap -> Prop :=
  every_cell (fun c => 0 <= grass_amount c).


(** The world of [h0] is still there in [h]: the same grids, the same cells
    with the terrain and the grid they had. *)
Definition world_fixed (h0 h : Heap) : Prop :=
  grid_objs h = grid_objs h0
  /\ length (cell_objs h) = length (cell_objs h0)
  /\ forall c cell0, cell_objs h0 !! c = Some cell0 ->
       exists cell, cell_objs h !! c = Some cell
         /\ terrain_type cell = terrain_type cell0
         /\ map_reference cell = map_reference cell0.

(** [x] is a later state of the animal [x0]: the same class with the same
    parameters, the same constants, and alive only if [x0] was. *)
Definition later_state (x0 x : Animal) : Prop :=
  class x = class x0 /\ max_energy x = max_energy x0
  /\ move_cost x = move_cost x0 /\ eat_efficiency x = eat_efficiency x0
  /\ reproduction_threshold x = reproduction_threshold x0
  /\ reproduction_cost x = reproduction_cost x0
  /\ (alive x = true -> alive x0 = true).

(** Every animal of [h0] is an animal of [h], in a later state. *)
Definition animals_persist (h0 h : Heap) : Prop :=
  forall a x0, animal_objs h0 !! a = Some x0 ->
    exists x, animal_objs h !! a = Some x /\ later_state x0 x.


(** A cell as [Ecosystem.__init__] makes it for the grid [gref]: it has no
    occupant, refers to the grid, and is rock without grass or soil with
    between 0.5 and 1 of grass, both bounds included. *)
Definition fresh_cell (gref : nat) (c : Cell) : Prop :=
  occupants c = [] /\ map_reference c = Some gref
  /\ match terrain_type c with
     | rock => grass_amount c = 0
     | soil => (1 # 2) <= grass_amount c /\ grass_amount c <= 1
     end.

(** [random.random()] draws from the interval from 0 to 1, 1 excluded. *)
Definition unit_draws (h : Heap) : Prop :=
  forall k, 0 <= rng_unit h k /\ rng_unit h k < 1.


(** From [h] to [h'] the cells only gain occupants: every cell of [h] is a
    cell of [h'] with the same terrain, the same grass and its occupants
    followed by new ones. *)
Definition cells_grow (h h' : Heap) : Prop :=
  forall p x, cell_objs h !! p = Some x ->
    exists more,
      cell_objs h' !! p = Some (with_occupants (occupants x ++ more) x).

(** The animal [a] is an occupant of the cell [p], which is soil and
    belongs to the grid [gref]. *)
Definition settled_in (h : Heap) (gref a p : nat) : Prop :=
  exists g cell,
    grid_objs h !! gref = Some g /\ In p (concat g)
    /\ cell_objs h !! p = Some cell /\ terrain_type cell = soil
    /\ In a (occupants cell).


(** [a.alive] for the animal [x] of the store. *)
Definition is_alive (h : Heap) (x : nat) : bool :=
  match animal_objs h !! x with
  | Some a => alive a
  | None => false
  end.


(** The cell [c] exists and is soil. *)
Definition soil_at (h : Heap) (c : nat) : Prop :=
  exists x, cell_objs h !! c = Some x /\ terrain_type x = soil.

(** No animal is on rock: the position of every animal that has one is a
    soil cell, and a rock cell has no occupant. *)
Definition off_the_rock (h : Heap) : Prop :=
  (forall a x p, animal_objs h !! a = Some x -> position x = Some p -> soil_at h p)
  /\ (forall p c, cell_objs h !! p = Some c -> terrain_type c = rock ->
        occupants c = []).

(** No animal is on rock, and the cells of [cs] are known to be soil. *)
Definition on_soil (cs : list nat) (h : Heap) : Prop :=
  off_the_rock h /\ Forall (soil_at h) cs.

(** The operations other than a direct [add_animal]. *)
Definition without_add (op : CoreOp) : Prop :=
  match op with
  | op_add _ _ => False
  | _ => True
  end.


(** Every occupant of a cell is an animal of the store. *)
Definition occupants_allocated (h : Heap) : Prop :=
  forall c cell x, cell_objs h !! c = Some cell -> In x (occupants cell) ->
    is_Some (animal_objs h !! x).

(** * Properties *)

(** ** Comparisons and [min] on rationals *)

Lemma Qlt_bool_iff x y : Qlt_bool x y = true <-> x < y.
Proof.
  unfold Qlt_bool. rewrite negb_true_iff.
  split; intros H.
  - apply Qnot_le_lt. intros Hle. apply Qle_bool_iff in Hle. congruence.
  - destruct (Qle_bool y x) eqn:E; [|reflexivity].
    apply Qle_bool_iff in E. exfalso. eapply Qlt_not_le; eauto.
Qed.

Lemma Qlt_bool_false x y : Qlt_bool x y = false <-> y <= x.
Proof. unfold Qlt_bool. rewrite negb_false_iff. apply Qle_bool_iff. Qed.

Lemma Qle_bool_false x y : Qle_bool x y = false <-> y < x.
Proof.
  rewrite <- Qlt_bool_iff. unfold Qlt_bool. now rewrite negb_true_iff.
Qed.

Lemma py_min_Qmin a b : py_min a b == Qmin a b.
Proof.
  unfold py_min. destruct (Qlt_bool b a) eqn:E.
  - apply Qlt_bool_iff in E. symmetry. apply Q.min_r.
    apply Qlt_le_weak; exact E.
  - apply Qlt_bool_false in E. symmetry. apply Q.min_l. exact E.
Qed.

(** ** Cell: grass *)

Lemma has_grass_true c :
  Cell.has_grass c = true <-> terrain_type c = soil /\ 0 < grass_amount c.
Proof.
  unfold Cell.has_grass, Cell.is_fertile. rewrite andb_true_iff, Qlt_bool_iff.
  destruct (terrain_type c); simpl; intuition congruence.
Qed.

Lemma has_grass_false c :
  Cell.has_grass c = false <-> terrain_type c = rock \/ grass_amount c <= 0.
Proof.
  unfold Cell.has_grass, Cell.is_fertile. rewrite andb_false_iff, Qlt_bool_false.
  destruct (terrain_type c); simpl; intuition congruence.
Qed.

(** What [consume_grass] computes, by the guard of its first line. *)
Lemma consume_grass_eq self amount h c :
  cell_objs h !! self = Some c ->
  Cell.consume_grass self amount h =
    if Cell.has_grass c
    then (Ok (py_min (grass_amount c) amount),
          set_cells
            (fun l => <[self := with_grass
                          (grass_amount c - py_min (grass_amount c) amount) c]> l) h)
    else (Ok 0, h).
Proof.
  intros Hc.
  unfold Cell.consume_grass, Cell.has_grass, update_cell, bind, get_cell, ret.
  rewrite Hc. unfold Qlt_bool.
  destruct (Cell.is_fertile c); simpl; [|reflexivity].
  destruct (Qle_bool (grass_amount c) 0); simpl; [reflexivity|].
  rewrite Hc. reflexivity.
Qed.

(** C8, counterexample: a request of [-1] on a fertile cell without grass
    returns [0], which is not [min(-1, 0)]. *)
Lemma consume_grass_negative_request :
  exists v,
    Cell.consume_grass 0 (-1) (lone_cell_heap soil 0) = (Ok v, lone_cell_heap soil 0)
    /\ ~ v == Qmin (-1) 0.
Proof.
  exists 0. split; [reflexivity|].
  intros H. vm_compute in H. discriminate H.
Qed.

(** C8, as amended: on a fertile cell with grass, [consume_grass(amount)]
    returns [min(grass, amount)] and leaves the grass reduced by the returned
    value, every other attribute and every other cell untouched; on rock, or
    on a cell whose grass is not positive, it returns [0] and changes
    nothing.  Hence, for a non-negative request on a cell with non-negative
    grass (zero on rock), the returned value is the minimum of the request
    and the prior grass, and the grass afterwards is the prior grass minus
    the returned value. *)
Theorem consume_grass_contract (self : nat) (amount : Q) (h : Heap) (c : Cell) :
  cell_objs h !! self = Some c ->
  (terrain_type c = soil /\ 0 < grass_amount c ->
     exists v c',
       Cell.consume_grass self amount h
         = (Ok v, set_cells (fun l => <[self := c']> l) h)
       /\ v = py_min (grass_amount c) amount
       /\ v == Qmin amount (grass_amount c)
       /\ c' = with_grass (grass_amount c - v) c)
  /\ (terrain_type c = rock \/ grass_amount c <= 0 ->
        Cell.consume_grass self amount h = (Ok 0, h))
  /\ (0 <= amount -> 0 <= grass_amount c ->
      (terrain_type c = rock -> grass_amount c == 0) ->
        exists v h' c',
          Cell.consume_grass self amount h = (Ok v, h')
          /\ v == Qmin amount (grass_amount c)
          /\ cell_objs h' !! self = Some c'
          /\ grass_amount c' == grass_amount c - v).
Proof.
  intros Hc. rewrite (consume_grass_eq _ _ _ _ Hc).
  assert (Hlt : (self < length (cell_objs h))%nat) by (eapply lookup_lt_Some; eauto).
  split; [|split].
  - intros Hg. apply has_grass_true in Hg. rewrite Hg.
    eexists _, _. split; [reflexivity|]. split; [reflexivity|].
    split; [|reflexivity]. rewrite py_min_Qmin. apply Q.min_comm.
  - intros Hg. apply has_grass_false in Hg. rewrite Hg. reflexivity.
  - intros Ha Hg Hrock. destruct (Cell.has_grass c) eqn:E.
    + eexists _, _, _. split; [reflexivity|]. split.
      * rewrite py_min_Qmin. apply Q.min_comm.
      * split; [simpl; apply list_lookup_insert_eq; exact Hlt|].
        simpl. reflexivity.
    + exists 0, h, c. split; [reflexivity|].
      assert (Hz : grass_amount c == 0).
      { apply has_grass_false in E. destruct E as [E|E]; [auto|].
        apply Qle_antisym; assumption. }
      split; [ | split; [exact Hc | ] ].
      * rewrite Hz. symmetry. apply Q.min_r. exact Ha.
      * ring.
Qed.

Lemma consume_grass_contract_witness :
  exists v h' c',
    Cell.consume_grass 0 15 (lone_cell_heap soil 1) = (Ok v, h')
    /\ v == Qmin 15 1
    /\ cell_objs h' !! 0%nat = Some c'
    /\ grass_amount c' == 1 - v.
Proof.
  apply (consume_grass_contract 0 15 (lone_cell_heap soil 1)
           (mkCell soil 1 [] None) eq_refl).
  - vm_compute. discriminate.
  - vm_compute. discriminate.
  - intros H. discriminate H.
Defined.

(** ** Construction *)

(** C7, counterexample: [Ecosystem(0)] is not rejected; it returns a world
    whose grid has no row, and no cell is created. *)
Lemma ecosystem_of_size_zero_is_built :
  exists e h',
    Ecosystem.init 0 (1 # 10) (2 # 10) empty_heap = (Ok e, h')
    /\ grid_objs h' !! Ecosystem.map e = Some []
    /\ cell_objs h' = [].
Proof. eexists _, _. repeat split; reflexivity. Qed.

(** C7, as amended: building a [Cell] with a label that, lower-cased, is
    neither ["rock"] nor ["soil"] raises [ValueError] and creates no object;
    [Ecosystem.__init__] does not validate its size: for a non-positive size
    it returns normally, with an empty grid, no cell created and the random
    source untouched.  [Simulation.__init__] does not validate it either:
    on such a world it returns normally when no animal is to be placed, and
    otherwise it fails, after the world has been built, with the
    [ValueError] of [random.randint] on an empty range. *)
Theorem construction_validation :
  (forall (label : string) (initial_grass : Q) (h : Heap),
      lower label <> "rock"%string -> lower label <> "soil"%string ->
      Cell.init label initial_grass h = (Raise ValueError, h))
  /\ (forall (size : Z) (grass_regrowth_rate rock_density : Q) (h : Heap),
        (size <= 0)%Z ->
        Ecosystem.init size grass_regrowth_rate rock_density h
          = (Ok (Ecosystem.mk (length (grid_objs h)) size grass_regrowth_rate),
             set_grids (fun l => l ++ [[]]) h))
  /\ (forall (fuel : nat) (size initial_prey initial_predators max_steps : Z)
             (grass_regrowth_rate rock_density : Q) (h : Heap),
        (size <= 0)%Z ->
        (initial_prey <= 0)%Z -> (initial_predators <= 0)%Z ->
        Simulation.init fuel size initial_prey initial_predators max_steps
          grass_regrowth_rate rock_density h
          = (Ok (Simulation.mk
                   (Ecosystem.mk (length (grid_objs h)) size grass_regrowth_rate)
                   [] max_steps 0),
             set_grids (fun l => l ++ [[]]) h))
  /\ (forall (fuel : nat) (size initial_prey initial_predators max_steps : Z)
             (grass_regrowth_rate rock_density : Q) (h : Heap),
        (size <= 0)%Z -> (1 <= initial_prey \/ 1 <= initial_predators)%Z ->
        Simulation.init (S fuel) size initial_prey initial_predators max_steps
          grass_regrowth_rate rock_density h
          = (Raise ValueError, set_grids (fun l => l ++ [[]]) h)).
Proof.
  assert (Heco : forall size rate density h, (size <= 0)%Z ->
            Ecosystem.init size rate density h
            = (Ok (Ecosystem.mk (length (grid_objs h)) size rate),
               set_grids (fun l => l ++ [[]]) h)).
  { intros size rate density h Hsize.
    unfold Ecosystem.init, bind, new_grid.
    replace (Z.to_nat size) with 0%nat by lia. reflexivity. }
  split; [|split; [|split]].
  - intros label g h Hr Hs. unfold Cell.init, Cell.supported.
    apply String.eqb_neq in Hr, Hs. rewrite Hr, Hs. reflexivity.
  - exact Heco.
  - intros fuel size np nq ms rate density h Hsize Hp Hq.
    unfold Simulation.init. unfold bind at 1. rewrite Heco by exact Hsize.
    replace (Z.to_nat np) with 0%nat by lia.
    replace (Z.to_nat nq) with 0%nat by lia. reflexivity.
  - intros fuel size np nq ms rate density h Hsize Hsome.
    unfold Simulation.init. unfold bind at 1. rewrite Heco by exact Hsize.
    destruct (Z.to_nat np) as [|k] eqn:Ek.
    + destruct (Z.to_nat nq) as [|k] eqn:Ek'; [lia|].
      cbn [Simulation.place_all Simulation.place Ecosystem.size].
      unfold bind, ret, random_randint.
      replace (size - 1 <? 0)%Z with true by (symmetry; apply Z.ltb_lt; lia).
      reflexivity.
    + cbn [Simulation.place_all Simulation.place Ecosystem.size].
      unfold bind, random_randint.
      replace (size - 1 <? 0)%Z with true by (symmetry; apply Z.ltb_lt; lia).
      reflexivity.
Qed.

Lemma construction_validation_witness :
  Cell.init "Sand" 1 empty_heap = (Raise ValueError, empty_heap)
  /\ Ecosystem.init (-3) (1 # 10) (2 # 10) empty_heap
       = (Ok (Ecosystem.mk 0 (-3) (1 # 10)), set_grids (fun l => l ++ [[]]) empty_heap)
  /\ Simulation.init 5 0 0 0 1000 (1 # 10) (2 # 10) empty_heap
       = (Ok (Simulation.mk (Ecosystem.mk 0 0 (1 # 10)) [] 1000 0),
          set_grids (fun l => l ++ [[]]) empty_heap)
  /\ Simulation.init 5 0 20 5 1000 (1 # 10) (2 # 10) empty_heap
       = (Raise ValueError, set_grids (fun l => l ++ [[]]) empty_heap)
  /\ Simulation.init 5 0 0 5 1000 (1 # 10) (2 # 10) empty_heap
       = (Raise ValueError, set_grids (fun l => l ++ [[]]) empty_heap).
Proof.
  split; [|split; [|split; [|split]]].
  - apply (proj1 construction_validation); vm_compute; discriminate.
  - apply (proj1 (proj2 construction_validation)). lia.
  - apply (proj1 (proj2 (proj2 construction_validation))); lia.
  - apply (proj2 (proj2 (proj2 construction_validation))); lia.
  - apply (proj2 (proj2 (proj2 construction_validation))); lia.
Defined.

(** ** Scheduler: halting and [run] *)

(** A halted simulation: [next_step] returns [False] and changes nothing. *)
Lemma next_step_halted (s : Simulation.t) (h : Heap) :
  (Simulation.max_steps s <= Simulation.current_step s)%Z ->
  Simulation.next_step s h = (Ok (false, s), h).
Proof.
  intros H. unfold Simulation.next_step.
  apply Z.leb_le in H. rewrite H. reflexivity.
Qed.

(** When [next_step] of a running simulation returns, it returns [True]
    and has advanced the step counter by one. *)
Lemma next_step_running (s s' : Simulation.t) (b : bool) (h h' : Heap) :
  (Simulation.current_step s < Simulation.max_steps s)%Z ->
  Simulation.next_step s h = (Ok (b, s'), h') ->
  b = true
  /\ Simulation.current_step s' = (Simulation.current_step s + 1)%Z
  /\ Simulation.max_steps s' = Simulation.max_steps s.
Proof.
  intros Hlt. unfold Simulation.next_step.
  apply Z.leb_gt in Hlt. rewrite Hlt. unfold bind.
  repeat match goal with
         | |- context [match ?m h with _ => _ end] => destruct (m h) as [[?|?] ?]
         | |- context [match ?m ?x with _ => _ end] =>
             destruct (m x) as [[?|?] ?]
         end; try discriminate.
  unfold ret. intros E. inversion E; subst. simpl. auto.
Qed.

(** The loop of [run] calls [next_step] at most as often as it has
    iterations. *)
Lemma run_loop_calls (n : nat) :
  forall s h s' k h',
    Simulation.run_loop n s h = (Ok (s', k), h') -> (k <= n)%nat.
Proof.
  induction n as [|n IH]; intros s h s' k h'; simpl.
  - unfold ret. intros E. inversion E. lia.
  - unfold bind at 1. destruct (Simulation.next_step s h) as [[[b s1]|e] h1];
      [|discriminate].
    simpl. destruct b.
    + unfold bind. destruct (Simulation.run_loop n s1 h1) as [[[s2 k2]|e] h2] eqn:E;
        [|discriminate].
      unfold ret. intros E'. inversion E'; subst. apply IH in E. simpl. lia.
    + unfold ret. intros E. inversion E. lia.
Qed.

(** For a request of at least one step, [run] calls [next_step] at most
    that many times. *)
Lemma run_calls_positive (s : Simulation.t) (n : Z) h s' k h' :
  (1 <= n)%Z ->
  Simulation.run s (Some n) h = (Ok (s', k), h') -> (Z.of_nat k <= n)%Z.
Proof.
  intros Hn. unfold Simulation.run.
  destruct (Z.eqb_spec n 0); [lia|].
  intros E. apply run_loop_calls in E. lia.
Qed.

(** [run(0)] is [run()] *)
Lemma run_zero_is_run_default (s : Simulation.t) :
  Simulation.run s (Some 0%Z) = Simulation.run s None.
Proof. reflexivity. Qed.

(** C6, at the failing input: on a fresh simulation with [max_steps = 3],
    [run(0)] calls [next_step] three times, each of them running a tick,
    and leaves the step counter at 3. *)
Theorem run_zero_runs_to_the_step_limit :
  exists s' h',
    Simulation.run (empty_simulation 3) (Some 0%Z) empty_world_heap
      = (Ok (s', 3%nat), h')
    /\ Simulation.current_step s' = 3%Z.
Proof. eexists _, _. split; reflexivity. Qed.

(** ** Reasoning in the monad *)

Lemma bind_Ok {A B} (m : M A) (k : A -> M B) h b h' :
  bind m k h = (Ok b, h') ->
  exists a h1, m h = (Ok a, h1) /\ k a h1 = (Ok b, h').
Proof.
  unfold bind. destruct (m h) as [[a|e] h1]; [eauto|discriminate].
Qed.

Lemma bind_eq {A B} (m : M A) (k : A -> M B) h a h1 :
  m h = (Ok a, h1) -> bind m k h = k a h1.
Proof. unfold bind. intros ->. reflexivity. Qed.

Lemma get_cell_Ok c h x h' : get_cell c h = (Ok x, h') -> cell_objs h !! c = Some x /\ h' = h.
Proof. unfold get_cell. destruct (cell_objs h !! c); intros E; inversion E; auto. Qed.

Lemma get_cell_eq c h x : cell_objs h !! c = Some x -> get_cell c h = (Ok x, h).
Proof. unfold get_cell. intros ->. reflexivity. Qed.

Lemma get_animal_eq a h x : animal_objs h !! a = Some x -> get_animal a h = (Ok x, h).
Proof. unfold get_animal. intros ->. reflexivity. Qed.

Lemma vector_eqb_eq v w : vector_eqb v w = true <-> v = w.
Proof.
  unfold vector_eqb. destruct v, w. simpl.
  rewrite andb_true_iff, !Z.eqb_eq. split; [intros [-> ->]; reflexivity|intros E; inversion E; auto].
Qed.

Lemma index2_Ok g r c h n h' : index2 g r c h = (Ok n, h') -> grid_at g r c = Some n /\ h' = h.
Proof. unfold index2. destruct (grid_at g r c); intros E; inversion E; auto. Qed.


Lemma see_neighbors_Ok g row col l : forall h ns h',
  Animal.see_neighbors g row col l h = (Ok ns, h') ->
  h' = h
  /\ (forall k nb, neighbors_get k ns = Some nb -> perceived h (n_cell nb) nb)
  /\ forall dr dc, In (dr, dc) l -> in_bounds g (row + dr) (col + dc) = true ->
       exists n nb, grid_at g (row + dr) (col + dc) = Some n
                    /\ neighbors_get (dr, dc) ns = Some nb /\ n_cell nb = n.
Proof.
  induction l as [|[dr0 dc0] l IH]; intros h ns h'; simpl.
  - unfold ret. intros E; inversion E; subst.
    split; [reflexivity|]. split; [discriminate|]. intros ? ? [].
  - destruct (in_bounds g (row + dr0) (col + dc0)) eqn:Hb.
    + intros E. apply bind_Ok in E as (n & h1 & E1 & E).
      apply index2_Ok in E1 as [Hn ->].
      apply bind_Ok in E as (cell & h1 & E1 & E).
      apply get_cell_Ok in E1 as [Hc ->].
      apply bind_Ok in E as (rest & h1 & E1 & E).
      apply IH in E1 as (-> & IHv & IHg).
      unfold ret in E. inversion E; subst. clear E.
      split; [reflexivity|]. split.
      * intros k nb. simpl. destruct (vector_eqb (dr0, dc0) k).
        -- intros E; inversion E; subst. exists cell. auto.
        -- apply IHv.
      * intros dr dc Hin Hb'. simpl.
        destruct (vector_eqb (dr0, dc0) (dr, dc)) eqn:Ek.
        -- apply vector_eqb_eq in Ek. inversion Ek; subst. eauto.
        -- destruct Hin as [Heq|Hin]; [|apply IHg; assumption].
           apply vector_eqb_eq in Heq. congruence.
    + intros E. apply IH in E as (-> & IHv & IHg).
      split; [reflexivity|]. split; [exact IHv|].
      intros dr dc [Heq|Hin] Hb'.
      * inversion Heq; subst. congruence.
      * apply IHg; assumption.
Qed.

Lemma random_choice_Ok {A} (l : list A) h :
  l <> [] ->
  exists x, random_choice l h = (Ok x, set_rng_pos S h) /\ In x l.
Proof.
  intros Hl. unfold random_choice.
  assert (Hlen : (0 < length l)%nat) by (destruct l; [congruence|simpl; lia]).
  pose proof (Nat.mod_upper_bound (rng_index h (rng_pos h)) (length l)) as Hm.
  destruct (lookup_lt_is_Some_2 l (rng_index h (rng_pos h) mod length l)) as [x Hx]; [lia|].
  rewrite Hx. exists x. split; [reflexivity|].
  apply list_elem_of_In. eapply list_elem_of_lookup_2; eauto.
Qed.

Lemma safe_dirs_Ok ns h :
  (forall k nb, neighbors_get k ns = Some nb -> perceived h (n_cell nb) nb) ->
  forall dirs, exists l,
    Prey.safe_dirs ns dirs h = (Ok l, h)
    /\ forall d v nb c, In (d, v) dirs -> neighbors_get v ns = Some nb ->
         n_terrain nb = soil -> cell_objs h !! n_cell nb = Some c ->
         Cell.can_add_animal c = true -> In d l.
Proof.
  intros Hv. induction dirs as [|[d0 v0] dirs IH]; simpl.
  - exists []. split; [reflexivity|]. intros ? ? ? ? [].
  - destruct IH as (l & El & Hl).
    destruct (neighbors_get v0 ns) as [nb0|] eqn:Eg.
    + destruct (Hv _ _ Eg) as (c0 & Hc0 & Hnb0).
      destruct (Terrain_eqb (n_terrain nb0) soil) eqn:Et.
      * rewrite (bind_eq _ _ _ _ _ (get_cell_eq _ _ _ Hc0)).
        rewrite (bind_eq _ _ _ _ _ El). unfold ret.
        eexists. split; [reflexivity|].
        intros d v nb c [Heq|Hin] Hg Ht Hc Hcan.
        -- inversion Heq; subst. rewrite Eg in Hg. inversion Hg; subst.
           rewrite Hc0 in Hc. inversion Hc; subst. rewrite Hcan. left. reflexivity.
        -- destruct (Cell.can_add_animal c0); [right|]; eapply Hl; eauto.
      * exists l. split; [exact El|].
        intros d v nb c [Heq|Hin] Hg Ht Hc Hcan.
        -- inversion Heq; subst. rewrite Eg in Hg. inversion Hg; subst.
           rewrite Ht in Et. discriminate.
        -- eapply Hl; eauto.
    + exists l. split; [exact El|].
      intros d v nb c [Heq|Hin] Hg Ht Hc Hcan.
      * inversion Heq; subst. congruence.
      * eapply Hl; eauto.
Qed.

Lemma escape_Ok ns h self a l :
  Prey.safe_dirs ns DIRECTIONS h = (Ok l, h) -> l <> [] ->
  animal_objs h !! self = Some a -> alive a = true ->
  forall occ, In self occ ->
    Forall (fun x => is_Some (animal_objs h !! x)) occ ->
    exists d, Prey.escape ns occ h = (Ok (Some (MOVE d)), set_rng_pos S h) /\ In d l.
Proof.
  intros El Hl Ha Halive. induction occ as [|o occ IH]; intros Hin Hall; [destruct Hin|].
  inversion Hall as [|? ? [x Hx] Hall']; subst. simpl.
  rewrite (bind_eq _ _ _ _ _ (get_animal_eq _ _ _ Hx)).
  assert (Hfire : exists d, (dirs <- Prey.safe_dirs ns DIRECTIONS ;;
          match dirs with
          | [] => Prey.escape ns occ
          | _ :: _ => d <- random_choice dirs ;; ret (Some (MOVE d))
          end) h = (Ok (Some (MOVE d)), set_rng_pos S h) /\ In d l).
  { rewrite (bind_eq _ _ _ _ _ El). destruct l as [|d0 l']; [congruence|].
    destruct (random_choice_Ok (d0 :: l') h Hl) as (d & Ed & Hd).
    rewrite (bind_eq _ _ _ _ _ Ed). exists d. split; [reflexivity|exact Hd]. }
  destruct (alive x) eqn:Ex; [exact Hfire|].
  destruct Hin as [->|Hin]; [congruence|].
  apply IH; assumption.
Qed.

Lemma see_Ok self grid h a p g r c perception h1 :
  animal_objs h !! self = Some a -> alive a = true -> position a = Some p ->
  grid_objs h !! grid = Some g -> find_cell p g 0 = Some (r, c) ->
  Animal.see self grid h = (Ok perception, h1) ->
  h1 = h
  /\ exists ns,
       perception = Some (mkPercept p ns (energy a))
       /\ Animal.see_neighbors g (Z.of_nat r) (Z.of_nat c) Animal.offsets h = (Ok ns, h).
Proof.
  intros Ha Halive Hp Hg Hf. unfold Animal.see.
  rewrite (bind_eq _ _ _ _ _ (get_animal_eq _ _ _ Ha)), Hp, Halive. cbn [negb].
  unfold bind at 1, get_grid. rewrite Hg, Hf.
  intros E. apply bind_Ok in E as (ns & h2 & E1 & E).
  pose proof (see_neighbors_Ok _ _ _ _ _ _ _ E1) as (-> & _).
  unfold ret in E. inversion E; subst. eauto.
Qed.

(** ** Prey: the escape rule *)

Lemma vector_in_offsets d : In (vector d) Animal.offsets.
Proof. destruct d; simpl; auto 10. Qed.

Lemma vector_in_DIRECTIONS d : In (d, vector d) DIRECTIONS.
Proof. destruct d; simpl; auto. Qed.

(** C10: a living prey that is an occupant of its own cell finds, in the
    cell its perception delivers as [current_cell], an occupant that is
    alive: itself.  So whenever an axis-aligned neighbouring cell is soil
    and not full, its [action] is a [MOVE], never [EAT] or [REPRODUCE],
    whatever else the cell holds. *)
Theorem prey_threat_rule_fires_on_itself
    (self grid : nat) (h h1 : Heap) (a : Animal) (p : nat) (cell : Cell)
    (g : Grid) (r c : nat) (d : Direction) (n : nat) (nc : Cell)
    (perception : Perception) :
  animal_objs h !! self = Some a ->
  is_Prey a = true -> alive a = true -> position a = Some p ->
  cell_objs h !! p = Some cell -> In self (occupants cell) ->
  Forall (fun x => is_Some (animal_objs h !! x)) (occupants cell) ->
  grid_objs h !! grid = Some g -> find_cell p g 0 = Some (r, c) ->
  in_bounds g (Z.of_nat r + fst (vector d)) (Z.of_nat c + snd (vector d)) = true ->
  grid_at g (Z.of_nat r + fst (vector d)) (Z.of_nat c + snd (vector d)) = Some n ->
  cell_objs h !! n = Some nc ->
  terrain_type nc = soil -> (Cell.occupant_count nc < 2)%nat ->
  Animal.see self grid h = (Ok perception, h1) ->
  h1 = h
  /\ (exists pc own,
        perception = Some pc
        /\ cell_objs h !! current_cell pc = Some own
        /\ In self (Cell.get_occupants own)
        /\ animal_objs h !! self = Some a /\ alive a = true)
  /\ exists d',
       dispatch_action self perception h = (Ok (MOVE d'), set_rng_pos S h).
Proof.
  intros Ha Hprey Halive Hp Hcell Hin Hall Hg Hf Hb Hat Hnc Hsoil Hroom Hsee.
  destruct (see_Ok _ _ _ _ _ _ _ _ _ _ Ha Halive Hp Hg Hf Hsee) as (-> & ns & -> & Ens).
  split; [reflexivity|]. split.
  { exists (mkPercept p ns (energy a)), cell. simpl. auto. }
  destruct (see_neighbors_Ok _ _ _ _ _ _ _ Ens) as (_ & Hvalid & Hget).
  pose proof (vector_in_offsets d) as Hoff.
  destruct (vector d) as [dr dc] eqn:Ev. simpl in Hb, Hat.
  destruct (Hget dr dc Hoff Hb) as (n' & nb & Hat' & Hnb & Hcellnb).
  assert (Hn' : n' = n) by congruence. rewrite Hn' in Hcellnb. clear Hat' Hn'.
  destruct (Hvalid _ _ Hnb) as (nc' & Hnc' & Enb).
  rewrite Hcellnb, Hnc in Hnc'.
  assert (Hnc'' : nc' = nc) by congruence. subst nc'. clear Hnc'.
  destruct (safe_dirs_Ok ns h Hvalid DIRECTIONS) as (l & El & Hl).
  assert (Hd : In d l).
  { pose proof (vector_in_DIRECTIONS d) as HD. rewrite Ev in HD.
    eapply (Hl d (dr, dc) nb nc HD Hnb).
    - rewrite Enb. simpl. exact Hsoil.
    - rewrite Hcellnb. exact Hnc.
    - unfold Cell.can_add_animal. apply Nat.ltb_lt. exact Hroom. }
  assert (Hne : l <> []) by (intros ->; destruct Hd).
  destruct (escape_Ok ns h self a l El Hne Ha Halive (occupants cell) Hin Hall)
    as (d' & Ed' & _).
  exists d'. unfold dispatch_action.
  rewrite (bind_eq _ _ _ _ _ (get_animal_eq _ _ _ Ha)).
  unfold is_Prey in Hprey. destruct (class a); [|discriminate].
  unfold Prey.action. simpl current_cell. simpl neighbors.
  unfold bind at 1. unfold bind at 1.
  rewrite (get_cell_eq _ _ _ Hcell). unfold Cell.get_occupants.
  rewrite Ed'. reflexivity.
Qed.

Lemma prey_threat_rule_fires_on_itself_witness :
  exists perception d',
    Animal.see 0 0 (prey_alone_heap 50) = (Ok perception, prey_alone_heap 50)
    /\ dispatch_action 0 perception (prey_alone_heap 50)
       = (Ok (MOVE d'), set_rng_pos S (prey_alone_heap 50)).
Proof.
  eexists.
  assert (Hin : In 0%nat (occupants (mkCell soil 1 [0%nat] (Some 0%nat))))
    by (simpl; auto).
  assert (Hall : Forall (fun x => is_Some (animal_objs (prey_alone_heap 50) !! x))
                   (occupants (mkCell soil 1 [0%nat] (Some 0%nat))))
    by (repeat constructor; simpl; eauto).
  assert (Hroom : (Cell.occupant_count (mkCell soil 1 [] (Some 0%nat)) < 2)%nat)
    by (unfold Cell.occupant_count; simpl; lia).
  destruct (prey_threat_rule_fires_on_itself 0 0 (prey_alone_heap 50)
              (prey_alone_heap 50) (with_energy 50 (Prey_init (Some 0%nat))) 0
              (mkCell soil 1 [0%nat] (Some 0%nat)) [[0%nat; 1%nat]; [2%nat; 3%nat]]
              0 0 RIGHT 1 (mkCell soil 1 [] (Some 0%nat)) _
              eq_refl eq_refl eq_refl eq_refl eq_refl Hin Hall eq_refl eq_refl
              eq_refl eq_refl eq_refl eq_refl Hroom eq_refl)
    as (_ & _ & d' & Hd').
  exists d'. split; [reflexivity|exact Hd'].
Defined.

(** ** Cell: occupants *)

Lemma update_cell_eq c f h x :
  cell_objs h !! c = Some x ->
  update_cell c f h = (Ok tt, set_cells (fun l => <[c := f x]> l) h).
Proof. intros Hc. unfold update_cell. rewrite (bind_eq _ _ _ _ _ (get_cell_eq _ _ _ Hc)). reflexivity. Qed.

Lemma update_animal_eq a f h x :
  animal_objs h !! a = Some x ->
  update_animal a f h = (Ok tt, set_animals (fun l => <[a := f x]> l) h).
Proof. intros Ha. unfold update_animal. rewrite (bind_eq _ _ _ _ _ (get_animal_eq _ _ _ Ha)). reflexivity. Qed.

Lemma add_animal_eq self animal h c a :
  cell_objs h !! self = Some c -> animal_objs h !! animal = Some a ->
  Cell.add_animal self animal h =
    if Cell.can_add_animal c
    then (Ok true,
          set_animals (fun l => <[animal := with_position (Some self) a]> l)
            (set_cells (fun l => <[self := with_occupants (occupants c ++ [animal]) c]> l) h))
    else (Ok false, h).
Proof.
  intros Hc Ha. unfold Cell.add_animal.
  rewrite (bind_eq _ _ _ _ _ (get_cell_eq _ _ _ Hc)).
  destruct (Cell.can_add_animal c); [|reflexivity]. cbn [negb].
  rewrite (bind_eq _ _ _ _ _ (update_cell_eq _ _ _ _ Hc)).
  erewrite bind_eq; [reflexivity|].
  apply update_animal_eq. exact Ha.
Qed.

Lemma remove_animal_eq self animal h c a :
  cell_objs h !! self = Some c -> animal_objs h !! animal = Some a ->
  Cell.remove_animal self animal h =
    (Ok tt,
     if Cell.is_occupant animal c
     then set_animals (fun l => <[animal := with_position None a]> l)
            (set_cells
               (fun l => <[self := with_occupants
                             (Cell.list_remove_first animal (occupants c)) c]> l) h)
     else h).
Proof.
  intros Hc Ha. unfold Cell.remove_animal.
  rewrite (bind_eq _ _ _ _ _ (get_cell_eq _ _ _ Hc)).
  destruct (Cell.is_occupant animal c); [|reflexivity].
  rewrite (bind_eq _ _ _ _ _ (update_cell_eq _ _ _ _ Hc)).
  apply update_animal_eq. exact Ha.
Qed.

Lemma list_remove_first_length x l :
  (length (Cell.list_remove_first x l) <= length l)%nat.
Proof. induction l as [|y l IH]; simpl; [lia|]. destruct (Nat.eqb x y); simpl; lia. Qed.

Lemma is_occupant_In x c : Cell.is_occupant x c = true <-> In x (occupants c).
Proof.
  unfold Cell.is_occupant. rewrite existsb_exists. split.
  - intros (y & Hy & E). apply Nat.eqb_eq in E. subst. exact Hy.
  - intros H. exists x. split; [exact H|apply Nat.eqb_refl].
Qed.

Lemma list_remove_first_absent x l : ~ In x l -> Cell.list_remove_first x l = l.
Proof.
  induction l as [|y l IH]; simpl; [reflexivity|]. intros H.
  destruct (Nat.eqb_spec x y); [subst; tauto|]. f_equal. apply IH. tauto.
Qed.

Lemma list_remove_first_NoDup x l : NoDup l -> ~ In x (Cell.list_remove_first x l).
Proof.
  induction 1 as [|y l Hy Hnd IH]; simpl; [tauto|].
  destruct (Nat.eqb_spec x y).
  - subst. rewrite <- list_elem_of_In. exact Hy.
  - simpl. intros [E|Hin]; [congruence|tauto].
Qed.

Lemma with_occupants_id c : with_occupants (occupants c) c = c.
Proof. destruct c; reflexivity. Qed.

(** [move] past its guards, in terms of the destination. *)
Lemma move_eq self d h a g r c :
  animal_objs h !! self = Some a ->
  destination h a d = Some (g, r, c) ->
  Animal.move self d h =
    if negb (alive a) || Qlt_bool (energy a) (move_cost a) then (Ok false, h)
    else if in_bounds g r c then
      (new_cell <- index2 g r c ;;
       nc <- get_cell new_cell ;;
       if Terrain_eqb (terrain_type nc) rock || negb (Cell.can_add_animal nc)
       then ret false
       else
         match position a with
         | Some p =>
             Cell.remove_animal p self ;;;
             Cell.add_animal new_cell self ;;;
             update_animal self (fun x => with_energy (energy x - move_cost x) x) ;;;
             ret true
         | None => ret false
         end) h
    else (Ok false, h).
Proof.
  intros Ha Hd. unfold Animal.move.
  rewrite (bind_eq _ _ _ _ _ (get_animal_eq _ _ _ Ha)).
  destruct (negb (alive a) || Qlt_bool (energy a) (move_cost a)); [reflexivity|].
  unfold destination in Hd.
  destruct (position a) as [p|]; [|discriminate].
  destruct (cell_objs h !! p) as [pc|] eqn:Hpc; [|discriminate].
  rewrite (bind_eq _ _ _ _ _ (get_cell_eq _ _ _ Hpc)).
  destruct (map_reference pc) as [gref|]; [|discriminate].
  destruct (grid_objs h !! gref) as [g'|] eqn:Hg; [|discriminate].
  unfold bind at 1, get_grid. rewrite Hg.
  destruct (find_cell p g' 0) as [[r0 c0]|]; [|discriminate].
  inversion Hd; subst. destruct (in_bounds _ _ _); reflexivity.
Qed.

Lemma move_fails_eq self d h a g r c :
  animal_objs h !! self = Some a ->
  destination h a d = Some (g, r, c) ->
  forall dest nc, in_bounds g r c = true -> grid_at g r c = Some dest ->
    cell_objs h !! dest = Some nc ->
    terrain_type nc = rock \/ (2 <= Cell.occupant_count nc)%nat ->
    Animal.move self d h = (Ok false, h).
Proof.
  intros Ha Hd dest nc Hb Hat Hnc Hbad.
  rewrite (move_eq _ _ _ _ _ _ _ Ha Hd), Hb.
  destruct (negb (alive a) || Qlt_bool (energy a) (move_cost a)); [reflexivity|].
  unfold index2. rewrite Hat. unfold bind at 1, ret at 1.
  rewrite (bind_eq _ _ _ _ _ (get_cell_eq _ _ _ Hnc)).
  replace (Terrain_eqb (terrain_type nc) rock || negb (Cell.can_add_animal nc))
    with true; [reflexivity|].
  symmetry. apply orb_true_iff. destruct Hbad as [Hr|Hfull].
  - left. rewrite Hr. reflexivity.
  - right. unfold Cell.can_add_animal, Cell.occupant_count in *.
    apply negb_true_iff, Nat.ltb_ge. exact Hfull.
Qed.

Lemma move_succeeds_eq self d h a g r c p pc dest nc :
  animal_objs h !! self = Some a ->
  destination h a d = Some (g, r, c) ->
  alive a = true -> move_cost a <= energy a ->
  position a = Some p -> cell_objs h !! p = Some pc ->
  in_bounds g r c = true -> grid_at g r c = Some dest ->
  cell_objs h !! dest = Some nc ->
  terrain_type nc = soil -> (Cell.occupant_count nc < 2)%nat ->
  let cells1 :=
    <[p := with_occupants (Cell.list_remove_first self (occupants pc)) pc]>
      (cell_objs h) in
  exists c1,
    cells1 !! dest = Some c1
    /\ Animal.move self d h =
         (Ok true,
          mkHeap (<[dest := with_occupants (occupants c1 ++ [self]) c1]> cells1)
            (<[self := with_energy (energy a - move_cost a)
                         (with_position (Some dest) a)]> (animal_objs h))
            (grid_objs h) (rng_index h) (rng_unit h) (rng_pos h)).
Proof.
  intros Ha Hd Halive He Hp Hpc Hb Hat Hnc Hsoil Hroom cells1.
  assert (Hplt : (p < length (cell_objs h))%nat) by (eapply lookup_lt_Some; eauto).
  assert (Hslt : (self < length (animal_objs h))%nat) by (eapply lookup_lt_Some; eauto).
  assert (Hc1 : exists c1, cells1 !! dest = Some c1 /\ Cell.can_add_animal c1 = true).
  { unfold cells1. destruct (Nat.eq_dec p dest) as [->|Hne].
    - eexists. split; [apply list_lookup_insert_eq; exact Hplt|].
      unfold Cell.can_add_animal, Cell.occupant_count in *. simpl.
      apply Nat.ltb_lt. rewrite Hnc in Hpc. inversion Hpc; subst.
      pose proof (list_remove_first_length self (occupants pc)). lia.
    - exists nc. split; [rewrite list_lookup_insert_ne; auto|].
      apply Nat.ltb_lt. exact Hroom. }
  destruct Hc1 as (c1 & Hc1 & Hcan). exists c1. split; [exact Hc1|].
  rewrite (move_eq _ _ _ _ _ _ _ Ha Hd), Hb, Halive.
  apply Qlt_bool_false in He. rewrite He. cbn [negb orb].
  unfold index2. rewrite Hat. unfold bind at 1, ret at 1.
  rewrite (bind_eq _ _ _ _ _ (get_cell_eq _ _ _ Hnc)).
  replace (Terrain_eqb (terrain_type nc) rock || negb (Cell.can_add_animal nc))
    with false.
  2:{ symmetry. apply orb_false_iff. rewrite Hsoil. split; [reflexivity|].
      apply negb_false_iff, Nat.ltb_lt. exact Hroom. }
  rewrite Hp.
  rewrite (bind_eq _ _ _ _ _ (remove_animal_eq _ _ _ _ _ Hpc Ha)).
  destruct (Cell.is_occupant self pc) eqn:Eocc.
  - unfold bind at 1.
    erewrite add_animal_eq;
      [ | simpl; exact Hc1 | simpl; apply list_lookup_insert_eq; exact Hslt ].
    rewrite Hcan.
    erewrite bind_eq.
    2:{ eapply update_animal_eq. simpl. apply list_lookup_insert_eq.
        rewrite length_insert. exact Hslt. }
    unfold ret, set_animals, set_cells. simpl.
    rewrite !list_insert_insert_eq. reflexivity.
  - assert (Hsame : cells1 = cell_objs h).
    { unfold cells1. apply list_insert_id.
      rewrite list_remove_first_absent, with_occupants_id; [exact Hpc|].
      intros Hin. apply is_occupant_In in Hin. congruence. }
    rewrite Hsame in *.
    unfold bind at 1.
    erewrite add_animal_eq; [ | exact Hc1 | exact Ha ].
    rewrite Hcan.
    erewrite bind_eq.
    2:{ eapply update_animal_eq. simpl. apply list_lookup_insert_eq. exact Hslt. }
    unfold ret, set_animals, set_cells. simpl.
    rewrite !list_insert_insert_eq. reflexivity.
Qed.

Lemma move_true_inv self d h a h' :
  animal_objs h !! self = Some a ->
  Animal.move self d h = (Ok true, h') ->
  alive a = true /\ move_cost a <= energy a
  /\ exists p pc g r c dest nc,
       position a = Some p /\ cell_objs h !! p = Some pc
       /\ destination h a d = Some (g, r, c)
       /\ in_bounds g r c = true /\ grid_at g r c = Some dest
       /\ cell_objs h !! dest = Some nc
       /\ terrain_type nc = soil /\ (Cell.occupant_count nc < 2)%nat.
Proof.
  intros Ha H.
  destruct (destination h a d) as [[[g r] c]|] eqn:Hd.
  - rewrite (move_eq _ _ _ _ _ _ _ Ha Hd) in H.
    destruct (alive a) eqn:Halive; [|discriminate].
    destruct (Qlt_bool (energy a) (move_cost a)) eqn:He; [discriminate|].
    cbn [negb orb] in H.
    destruct (in_bounds g r c) eqn:Hb; [|discriminate].
    apply bind_Ok in H as (dest & h1 & E1 & H).
    apply index2_Ok in E1 as [Hat ->].
    apply bind_Ok in H as (nc & h1 & E1 & H).
    apply get_cell_Ok in E1 as [Hnc ->].
    destruct (Terrain_eqb (terrain_type nc) rock) eqn:Ht; [discriminate|].
    destruct (Cell.can_add_animal nc) eqn:Hcan; [|discriminate].
    cbn [negb orb] in H.
    split; [reflexivity|]. split; [apply Qlt_bool_false; exact He|].
    unfold destination in Hd.
    destruct (position a) as [p|]; [|discriminate].
    destruct (cell_objs h !! p) as [pc|] eqn:Hpc; [|discriminate].
    exists p, pc, g, r, c, dest, nc.
    repeat split; try assumption; try reflexivity.
    + destruct (terrain_type nc); [discriminate|reflexivity].
    + apply Nat.ltb_lt. exact Hcan.
  - exfalso. unfold Animal.move in H.
    rewrite (bind_eq _ _ _ _ _ (get_animal_eq _ _ _ Ha)) in H.
    destruct (negb (alive a) || Qlt_bool (energy a) (move_cost a)); [discriminate|].
    unfold destination in Hd.
    destruct (position a) as [p|]; [|discriminate].
    unfold bind at 1, get_cell in H.
    destruct (cell_objs h !! p) as [pc|]; [|discriminate].
    destruct (map_reference pc) as [gref|]; [|discriminate].
    unfold bind at 1, get_grid in H.
    destruct (grid_objs h !! gref) as [g|]; [|discriminate].
    destruct (find_cell p g 0) as [[? ?]|]; discriminate.
Qed.

(** C4: [move] returns [False] and leaves the whole store as it was when
    the animal is dead, has less energy than [move_cost], has no position,
    or when its destination is out of bounds, is rock, or is full.  When it
    returns [True], all of those conditions are absent, the animal has been
    taken out of the occupants of its cell and appended to the occupants of
    the destination, its position is the destination and its energy is its
    former energy minus [move_cost], deducted once; nothing else changed.
    And when none of the failure conditions holds, [move] does return
    [True]. *)
Theorem move_contract (self : nat) (d : Direction) (h : Heap) (a : Animal) :
  animal_objs h !! self = Some a ->
  (alive a = false -> Animal.move self d h = (Ok false, h))
  /\ (energy a < move_cost a -> Animal.move self d h = (Ok false, h))
  /\ (position a = None -> Animal.move self d h = (Ok false, h))
  /\ (forall g r c, destination h a d = Some (g, r, c) ->
        (in_bounds g r c = false -> Animal.move self d h = (Ok false, h))
        /\ (forall dest nc,
              in_bounds g r c = true -> grid_at g r c = Some dest ->
              cell_objs h !! dest = Some nc ->
              (terrain_type nc = rock -> Animal.move self d h = (Ok false, h))
              /\ ((2 <= Cell.occupant_count nc)%nat ->
                  Animal.move self d h = (Ok false, h))
              /\ (alive a = true -> move_cost a <= energy a ->
                  terrain_type nc = soil -> (Cell.occupant_count nc < 2)%nat ->
                  exists h', Animal.move self d h = (Ok true, h'))))
  /\ (forall h', Animal.move self d h = (Ok true, h') ->
        exists p pc g r c dest nc c1,
          alive a = true /\ move_cost a <= energy a
          /\ position a = Some p /\ cell_objs h !! p = Some pc
          /\ destination h a d = Some (g, r, c)
          /\ in_bounds g r c = true /\ grid_at g r c = Some dest
          /\ cell_objs h !! dest = Some nc
          /\ terrain_type nc = soil /\ (Cell.occupant_count nc < 2)%nat
          /\ <[p := with_occupants (Cell.list_remove_first self (occupants pc)) pc]>
               (cell_objs h) !! dest = Some c1
          /\ h' = mkHeap
                    (<[dest := with_occupants (occupants c1 ++ [self]) c1]>
                       (<[p := with_occupants
                                (Cell.list_remove_first self (occupants pc)) pc]>
                          (cell_objs h)))
                    (<[self := with_energy (energy a - move_cost a)
                                 (with_position (Some dest) a)]> (animal_objs h))
                    (grid_objs h) (rng_index h) (rng_unit h) (rng_pos h)
          /\ (exists a', animal_objs h' !! self = Some a'
                         /\ energy a' = energy a - move_cost a
                         /\ position a' = Some dest)
          /\ (exists cd, cell_objs h' !! dest = Some cd /\ In self (occupants cd))
          /\ (p <> dest -> NoDup (occupants pc) ->
              exists cp, cell_objs h' !! p = Some cp /\ ~ In self (occupants cp))).
Proof.
  intros Ha.
  assert (Hguard : negb (alive a) || Qlt_bool (energy a) (move_cost a) = true ->
                   Animal.move self d h = (Ok false, h)).
  { intros Hg. unfold Animal.move.
    rewrite (bind_eq _ _ _ _ _ (get_animal_eq _ _ _ Ha)), Hg. reflexivity. }
  split; [|split; [|split; [|split]]].
  - intros Hdead. apply Hguard. rewrite Hdead. reflexivity.
  - intros He. apply Hguard. apply Qlt_bool_iff in He. rewrite He.
    apply orb_true_r.
  - intros Hp. unfold Animal.move.
    rewrite (bind_eq _ _ _ _ _ (get_animal_eq _ _ _ Ha)), Hp.
    destruct (negb (alive a) || Qlt_bool (energy a) (move_cost a)); reflexivity.
  - intros g r c Hd. split.
    + intros Hb. rewrite (move_eq _ _ _ _ _ _ _ Ha Hd), Hb.
      destruct (negb (alive a) || Qlt_bool (energy a) (move_cost a)); reflexivity.
    + intros dest nc Hb Hat Hnc. split; [|split].
      * intros Hr. eapply move_fails_eq; eauto.
      * intros Hf. eapply move_fails_eq; eauto.
      * intros Halive He Hsoil Hroom.
        assert (Hp : exists p pc, position a = Some p /\ cell_objs h !! p = Some pc).
        { pose proof Hd as Hd'. unfold destination in Hd'.
          destruct (position a) as [p|]; [|discriminate].
          destruct (cell_objs h !! p) as [pc|] eqn:Hpc; [|discriminate].
          exists p, pc. split; [reflexivity|exact Hpc]. }
        destruct Hp as (p & pc & Hp & Hpc).
        destruct (move_succeeds_eq _ _ _ _ _ _ _ _ _ _ _ Ha Hd Halive He Hp Hpc
                    Hb Hat Hnc Hsoil Hroom) as (c1 & _ & E).
        eexists. exact E.
  - intros h' H.
    destruct (move_true_inv _ _ _ _ _ Ha H)
      as (Halive & He & p & pc & g & r & c & dest & nc & Hp & Hpc & Hd & Hb & Hat
          & Hnc & Hsoil & Hroom).
    destruct (move_succeeds_eq _ _ _ _ _ _ _ _ _ _ _ Ha Hd Halive He Hp Hpc
                Hb Hat Hnc Hsoil Hroom) as (c1 & Hc1 & E).
    rewrite E in H. inversion H as [Hh']. clear H.
    assert (Hplt : (p < length (cell_objs h))%nat) by (eapply lookup_lt_Some; eauto).
    assert (Hdlt : (dest < length (cell_objs h))%nat) by (eapply lookup_lt_Some; eauto).
    assert (Hslt : (self < length (animal_objs h))%nat) by (eapply lookup_lt_Some; eauto).
    exists p, pc, g, r, c, dest, nc, c1.
    repeat (split; [assumption || reflexivity|]).
    split; [|split].
    + eexists. split; [simpl; apply list_lookup_insert_eq; exact Hslt|].
      split; reflexivity.
    + eexists. split.
      * simpl. apply list_lookup_insert_eq. rewrite length_insert. exact Hdlt.
      * simpl. apply in_or_app. right. left. reflexivity.
    + intros Hne Hnd. eexists. split.
      * simpl. rewrite list_lookup_insert_ne by congruence.
        apply list_lookup_insert_eq. exact Hplt.
      * simpl. apply list_remove_first_NoDup. exact Hnd.
Qed.

Lemma move_contract_witness :
  Animal.move 0 LEFT (prey_alone_heap 50) = (Ok false, prey_alone_heap 50)
  /\ exists h', Animal.move 0 RIGHT (prey_alone_heap 50) = (Ok true, h').
Proof.
  pose proof (move_contract 0 LEFT (prey_alone_heap 50) _ eq_refl)
    as (_ & _ & _ & HL & _).
  pose proof (move_contract 0 RIGHT (prey_alone_heap 50) _ eq_refl)
    as (_ & _ & _ & HR & _).
  split.
  - apply (proj1 (HL _ _ _ eq_refl)). reflexivity.
  - apply (proj2 (HR _ _ _ eq_refl) 1%nat (mkCell soil 1 [] (Some 0%nat)));
      try reflexivity.
    + vm_compute. discriminate.
    + unfold Cell.occupant_count. simpl. lia.
Defined.

(** ** Reproduction *)

Lemma insert_snoc_last {A} (l : list A) (x y : A) :
  <[length l := y]> (l ++ [x]) = l ++ [y].
Proof.
  rewrite insert_app_r_alt by lia. rewrite Nat.sub_diag. reflexivity.
Qed.

Lemma lookup_snoc_last {A} (l : list A) (x : A) : (l ++ [x]) !! length l = Some x.
Proof. apply list_lookup_middle. reflexivity. Qed.

Lemma reproduce_succeeds_eq self h a p pc :
  animal_objs h !! self = Some a ->
  alive a = true -> reproduction_threshold a <= energy a ->
  position a = Some p -> cell_objs h !! p = Some pc ->
  (Cell.occupant_count pc < 2)%nat ->
  Animal.reproduce self h =
    (Ok true,
     mkHeap
       (<[p := with_occupants (occupants pc ++ [length (animal_objs h)]) pc]>
          (cell_objs h))
       (<[self := with_energy (energy a - reproduction_cost a) a]> (animal_objs h)
          ++ [with_position (Some p)
                (with_energy (energy a / 2) (class_init (class a) (Some p)))])
       (grid_objs h) (rng_index h) (rng_unit h) (rng_pos h)).
Proof.
  intros Ha Halive He Hp Hpc Hroom.
  assert (Hslt : (self < length (animal_objs h))%nat) by (eapply lookup_lt_Some; eauto).
  unfold Animal.reproduce.
  rewrite (bind_eq _ _ _ _ _ (get_animal_eq _ _ _ Ha)), Halive.
  apply Qlt_bool_false in He. rewrite He. cbn [negb orb]. rewrite Hp.
  rewrite (bind_eq _ _ _ _ _ (get_cell_eq _ _ _ Hpc)).
  assert (Hcan : Cell.can_add_animal pc = true) by (apply Nat.ltb_lt; exact Hroom).
  rewrite Hcan. cbn [negb].
  unfold bind at 1, new_animal.
  erewrite bind_eq; [|apply update_animal_eq; simpl; apply lookup_snoc_last].
  unfold set_animals at 1. simpl. rewrite insert_snoc_last.
  erewrite bind_eq.
  2:{ apply update_animal_eq. simpl.
      rewrite lookup_app_l by exact Hslt. exact Ha. }
  unfold set_animals at 1. simpl. rewrite insert_app_l by exact Hslt.
  erewrite add_animal_eq.
  2:{ simpl. exact Hpc. }
  2:{ simpl. replace (length (animal_objs h))
        with (length (<[self := with_energy (energy a - reproduction_cost a) a]>
                        (animal_objs h))) at 1 by apply length_insert.
      apply lookup_snoc_last. }
  rewrite Hcan. unfold set_animals, set_cells. simpl.
  replace (length (animal_objs h))
    with (length (<[self := with_energy (energy a - reproduction_cost a) a]>
                    (animal_objs h))) at 2 by apply length_insert.
  rewrite insert_snoc_last. reflexivity.
Qed.

Lemma reproduce_true_inv self h a h' :
  animal_objs h !! self = Some a ->
  Animal.reproduce self h = (Ok true, h') ->
  alive a = true /\ reproduction_threshold a <= energy a
  /\ exists p pc, position a = Some p /\ cell_objs h !! p = Some pc
                  /\ (Cell.occupant_count pc < 2)%nat.
Proof.
  intros Ha. unfold Animal.reproduce.
  rewrite (bind_eq _ _ _ _ _ (get_animal_eq _ _ _ Ha)).
  destruct (alive a); [|discriminate].
  destruct (Qlt_bool (energy a) (reproduction_threshold a)) eqn:He; [discriminate|].
  cbn [negb orb]. destruct (position a) as [p|]; [|discriminate].
  unfold bind at 1, get_cell. destruct (cell_objs h !! p) as [pc|] eqn:Hpc; [|discriminate].
  destruct (Cell.can_add_animal pc) eqn:Hcan; [|discriminate].
  intros _. split; [reflexivity|]. split; [apply Qlt_bool_false; exact He|].
  exists p, pc. split; [reflexivity|]. split; [exact Hpc|].
  apply Nat.ltb_lt. exact Hcan.
Qed.

(** C5: [reproduce] returns [False] and leaves the store as it was when the
    animal is dead, has less energy than [reproduction_threshold], has no
    position, or its cell is full.  Otherwise it returns [True]: the
    offspring is a newly created animal of the parent's class, its position
    is the parent's cell, it is the last occupant of that cell, its energy
    is half the energy the parent had before the call, and the parent's
    energy is its former energy minus [reproduction_cost]; nothing else
    changed. *)
Theorem reproduce_contract (self : nat) (h : Heap) (a : Animal) :
  animal_objs h !! self = Some a ->
  (alive a = false -> Animal.reproduce self h = (Ok false, h))
  /\ (energy a < reproduction_threshold a ->
      Animal.reproduce self h = (Ok false, h))
  /\ (position a = None -> Animal.reproduce self h = (Ok false, h))
  /\ (forall p pc, position a = Some p -> cell_objs h !! p = Some pc ->
        (2 <= Cell.occupant_count pc)%nat ->
        Animal.reproduce self h = (Ok false, h))
  /\ (forall p pc, alive a = true -> reproduction_threshold a <= energy a ->
        position a = Some p -> cell_objs h !! p = Some pc ->
        (Cell.occupant_count pc < 2)%nat ->
        exists h', Animal.reproduce self h = (Ok true, h'))
  /\ (forall h', Animal.reproduce self h = (Ok true, h') ->
        exists p pc offspring o a' pc',
          alive a = true /\ reproduction_threshold a <= energy a
          /\ position a = Some p /\ cell_objs h !! p = Some pc
          /\ (Cell.occupant_count pc < 2)%nat
          /\ offspring = length (animal_objs h)
          /\ animal_objs h !! offspring = None
          /\ animal_objs h' !! offspring = Some o
          /\ is_Prey o = is_Prey a /\ is_Predator o = is_Predator a
          /\ alive o = true /\ position o = Some p
          /\ energy o = energy a / 2
          /\ animal_objs h' !! self = Some a'
          /\ a' = with_energy (energy a - reproduction_cost a) a
          /\ cell_objs h' !! p = Some pc'
          /\ pc' = with_occupants (occupants pc ++ [offspring]) pc
          /\ h' = mkHeap (<[p := pc']> (cell_objs h))
                    (<[self := a']> (animal_objs h) ++ [o])
                    (grid_objs h) (rng_index h) (rng_unit h) (rng_pos h)).
Proof.
  intros Ha.
  assert (Hslt : (self < length (animal_objs h))%nat) by (eapply lookup_lt_Some; eauto).
  assert (Hguard : negb (alive a) || Qlt_bool (energy a) (reproduction_threshold a) = true ->
                   Animal.reproduce self h = (Ok false, h)).
  { intros Hg. unfold Animal.reproduce.
    rewrite (bind_eq _ _ _ _ _ (get_animal_eq _ _ _ Ha)), Hg. reflexivity. }
  split; [|split; [|split; [|split; [|split]]]].
  - intros Hdead. apply Hguard. rewrite Hdead. reflexivity.
  - intros He. apply Hguard. apply Qlt_bool_iff in He. rewrite He. apply orb_true_r.
  - intros Hp. unfold Animal.reproduce.
    rewrite (bind_eq _ _ _ _ _ (get_animal_eq _ _ _ Ha)), Hp.
    destruct (negb (alive a) || Qlt_bool (energy a) (reproduction_threshold a));
      reflexivity.
  - intros p pc Hp Hpc Hfull. unfold Animal.reproduce.
    rewrite (bind_eq _ _ _ _ _ (get_animal_eq _ _ _ Ha)), Hp.
    destruct (negb (alive a) || Qlt_bool (energy a) (reproduction_threshold a));
      [reflexivity|].
    rewrite (bind_eq _ _ _ _ _ (get_cell_eq _ _ _ Hpc)).
    replace (Cell.can_add_animal pc) with false; [reflexivity|].
    symmetry. apply Nat.ltb_ge. exact Hfull.
  - intros p pc Halive He Hp Hpc Hroom. eexists.
    apply (reproduce_succeeds_eq _ _ _ _ _ Ha Halive He Hp Hpc Hroom).
  - intros h' H.
    destruct (reproduce_true_inv _ _ _ _ Ha H) as (Halive & He & p & pc & Hp & Hpc & Hroom).
    rewrite (reproduce_succeeds_eq _ _ _ _ _ Ha Halive He Hp Hpc Hroom) in H.
    inversion H as [Hh']. clear H.
    assert (Hplt : (p < length (cell_objs h))%nat) by (eapply lookup_lt_Some; eauto).
    eexists p, pc, (length (animal_objs h)), _, _, _.
    repeat (split; [assumption || reflexivity|]).
    split; [apply lookup_ge_None; lia|].
    split.
    { simpl. replace (length (animal_objs h))
        with (length (<[self := with_energy (energy a - reproduction_cost a) a]>
                        (animal_objs h))) at 1 by apply length_insert.
      apply lookup_snoc_last. }
    split; [unfold is_Prey; simpl; destruct (class a); reflexivity|].
    split; [unfold is_Predator; simpl; destruct (class a); reflexivity|].
    split; [simpl; destruct (class a); reflexivity|].
    split; [reflexivity|]. split; [reflexivity|].
    split.
    { simpl. rewrite lookup_app_l by (rewrite length_insert; exact Hslt).
      apply list_lookup_insert_eq. exact Hslt. }
    split; [reflexivity|].
    split; [simpl; apply list_lookup_insert_eq; exact Hplt|].
    split; reflexivity.
Qed.

Lemma reproduce_contract_witness :
  Animal.reproduce 0 (prey_alone_heap 50) = (Ok false, prey_alone_heap 50)
  /\ exists h', Animal.reproduce 0 (prey_alone_heap 70) = (Ok true, h').
Proof.
  split.
  - apply (proj1 (proj2 (reproduce_contract 0 (prey_alone_heap 50) _ eq_refl))).
    reflexivity.
  - apply (proj1 (proj2 (proj2 (proj2 (proj2
             (reproduce_contract 0 (prey_alone_heap 70) _ eq_refl)))))
             0%nat (mkCell soil 1 [0%nat] (Some 0%nat))); try reflexivity.
    + vm_compute. discriminate.
    + unfold Cell.occupant_count. simpl. lia.
Defined.

(** ** Predator: [eat] *)

Lemma update_animal_insert a f l x h :
  animal_objs h = l -> l !! a = Some x ->
  update_animal a f h = (Ok tt, set_animals (fun l => <[a := f x]> l) h).
Proof. intros <-. apply update_animal_eq. Qed.

Lemma get_animal_insert_eq i (x : Animal) l h :
  animal_objs h = <[i := x]> l -> (i < length l)%nat ->
  get_animal i h = (Ok x, h).
Proof.
  intros E Hi. apply get_animal_eq. rewrite E. apply list_lookup_insert_eq. exact Hi.
Qed.

Section PredatorEat.
Variables (self prey : nat) (h : Heap) (a q : Animal) (ac ad : Q).
Hypothesis Ha : animal_objs h !! self = Some a.
Hypothesis Hq : animal_objs h !! prey = Some q.
Hypothesis Hne : self <> prey.
Hypothesis Hclass : class a = IsPredator ac ad.

Let a1 := with_energy (energy a - ac) a.
Let q1 := with_energy (energy q - ad) q.

Lemma predator_eat_guard :
  alive a = false \/ alive q = false \/ position a <> position q ->
  Predator.eat self prey h = (Ok 0, h).
Proof.
  intros Hg. unfold Predator.eat.
  rewrite (bind_eq _ _ _ _ _ (get_animal_eq _ _ _ Ha)).
  rewrite (bind_eq _ _ _ _ _ (get_animal_eq _ _ _ Hq)).
  replace (negb (alive a) || negb (alive q)
           || negb (bool_decide (position a = position q))) with true;
    [reflexivity|].
  symmetry. destruct Hg as [Hg|[Hg|Hg]].
  - rewrite Hg. reflexivity.
  - rewrite Hg. apply orb_true_iff. left. apply orb_true_r.
  - apply orb_true_iff. right. apply negb_true_iff, bool_decide_eq_false. exact Hg.
Qed.

Hypothesis Halive_a : alive a = true.
Hypothesis Halive_q : alive q = true.
Hypothesis Hpos : position a = position q.

Lemma predator_eat_attack :
  Predator.eat self prey h =
    (update_animal self (fun x => with_energy (energy x - ac) x) ;;;
     a1 <- get_animal self ;;
     if Qle_bool (energy a1) 0 then
       update_animal self (with_alive false) ;;; ret 0
     else
       update_animal prey (fun x => with_energy (energy x - ad) x) ;;;
       q1 <- get_animal prey ;;
       if Qle_bool (energy q1) 0 then
         update_animal prey (with_alive false) ;;;
         a2 <- get_animal self ;;
         match position a2 with
         | None => raise AttributeError
         | Some p =>
             Cell.remove_animal p prey ;;;
             q2 <- get_animal prey ;;
             a3 <- get_animal self ;;
             let energy_gain := max_energy q2 * eat_efficiency a3 in
             update_animal self
               (fun x => with_energy (py_min (energy x + energy_gain) (max_energy x)) x) ;;;
             ret energy_gain
         end
       else ret 0) h.
Proof.
  unfold Predator.eat.
  rewrite (bind_eq _ _ _ _ _ (get_animal_eq _ _ _ Ha)).
  rewrite (bind_eq _ _ _ _ _ (get_animal_eq _ _ _ Hq)).
  rewrite Halive_a, Halive_q, Hpos.
  rewrite bool_decide_eq_true_2 by reflexivity. cbn [negb orb].
  rewrite Hclass. reflexivity.
Qed.

Lemma predator_eat_exhausted :
  energy a - ac <= 0 ->
  Predator.eat self prey h =
    (Ok 0, set_animals (fun l => <[self := with_alive false a1]> l) h).
Proof.
  intros He. rewrite predator_eat_attack.
  assert (Hslt : (self < length (animal_objs h))%nat) by (eapply lookup_lt_Some; eauto).
  rewrite (bind_eq _ _ _ _ _ (update_animal_eq _ _ _ _ Ha)).
  erewrite bind_eq by (eapply get_animal_insert_eq; [reflexivity|exact Hslt]).
  cbn beta. unfold with_energy at 1. cbn [energy]. apply Qle_bool_iff in He. rewrite He.
  erewrite bind_eq by (eapply update_animal_insert;
                       [reflexivity|apply list_lookup_insert_eq; exact Hslt]).
  unfold ret, set_animals. simpl. rewrite list_insert_insert_eq. reflexivity.
Qed.

Lemma predator_eat_prey_survives :
  0 < energy a - ac -> 0 < energy q - ad ->
  Predator.eat self prey h =
    (Ok 0, set_animals (fun l => <[prey := q1]> (<[self := a1]> l)) h).
Proof.
  intros Hea Heq. rewrite predator_eat_attack.
  assert (Hslt : (self < length (animal_objs h))%nat) by (eapply lookup_lt_Some; eauto).
  assert (Hplt : (prey < length (animal_objs h))%nat) by (eapply lookup_lt_Some; eauto).
  rewrite (bind_eq _ _ _ _ _ (update_animal_eq _ _ _ _ Ha)).
  erewrite bind_eq by (eapply get_animal_insert_eq; [reflexivity|exact Hslt]).
  cbn beta. unfold with_energy at 1. cbn [energy]. apply Qle_bool_false in Hea. rewrite Hea.
  erewrite bind_eq.
  2:{ eapply update_animal_eq. cbn [animal_objs set_animals].
      rewrite list_lookup_insert_ne by exact Hne. exact Hq. }
  erewrite bind_eq.
  2:{ apply get_animal_eq. cbn [animal_objs set_animals].
      apply list_lookup_insert_eq. rewrite length_insert. exact Hplt. }
  cbn beta. unfold with_energy at 1. cbn [energy]. apply Qle_bool_false in Heq. rewrite Heq. reflexivity.
Qed.

Lemma predator_eat_kills p pc :
  0 < energy a - ac -> energy q - ad <= 0 ->
  position a = Some p -> cell_objs h !! p = Some pc ->
  Predator.eat self prey h =
    (Ok (max_energy q * eat_efficiency a),
     mkHeap
       (<[p := with_occupants (Cell.list_remove_first prey (occupants pc)) pc]>
          (cell_objs h))
       (<[self := with_energy
                    (py_min (energy a - ac + max_energy q * eat_efficiency a)
                       (max_energy a)) a]>
          (<[prey := with_position
                       (if Cell.is_occupant prey pc then None else position q)
                       (with_alive false q1)]> (animal_objs h)))
       (grid_objs h) (rng_index h) (rng_unit h) (rng_pos h)).
Proof.
  intros Hea Heq Hp Hpc. rewrite predator_eat_attack.
  assert (Hslt : (self < length (animal_objs h))%nat) by (eapply lookup_lt_Some; eauto).
  assert (Hplt : (prey < length (animal_objs h))%nat) by (eapply lookup_lt_Some; eauto).
  rewrite (bind_eq _ _ _ _ _ (update_animal_eq _ _ _ _ Ha)).
  erewrite bind_eq by (eapply get_animal_insert_eq; [reflexivity|exact Hslt]).
  cbn beta. unfold with_energy at 1. cbn [energy].
  apply Qle_bool_false in Hea. rewrite Hea.
  erewrite bind_eq.
  2:{ eapply update_animal_eq. cbn [animal_objs set_animals].
      rewrite list_lookup_insert_ne by exact Hne. exact Hq. }
  erewrite bind_eq.
  2:{ apply get_animal_eq. cbn [animal_objs set_animals].
      apply list_lookup_insert_eq. rewrite length_insert. exact Hplt. }
  cbn beta. unfold with_energy at 1. cbn [energy].
  apply Qle_bool_iff in Heq. rewrite Heq.
  erewrite bind_eq.
  2:{ eapply update_animal_eq. cbn [animal_objs set_animals].
      apply list_lookup_insert_eq. rewrite length_insert. exact Hplt. }
  erewrite bind_eq.
  2:{ apply get_animal_eq. cbn [animal_objs set_animals].
      rewrite list_insert_insert_eq.
      rewrite list_lookup_insert_ne by congruence.
      apply list_lookup_insert_eq. exact Hslt. }
  cbn [position with_energy]. rewrite Hp.
  erewrite bind_eq.
  2:{ eapply remove_animal_eq; cbn [animal_objs cell_objs set_animals].
      - exact Hpc.
      - rewrite list_insert_insert_eq. apply list_lookup_insert_eq.
        rewrite length_insert. exact Hplt. }
  destruct (Cell.is_occupant prey pc) eqn:Eocc.
  - erewrite bind_eq.
    2:{ apply get_animal_eq. cbn [animal_objs cell_objs set_animals set_cells].
        apply list_lookup_insert_eq. rewrite !length_insert. exact Hplt. }
    erewrite bind_eq.
    2:{ apply get_animal_eq. cbn [animal_objs cell_objs set_animals set_cells].
        rewrite !list_insert_insert_eq.
        rewrite list_lookup_insert_ne by congruence.
        apply list_lookup_insert_eq. exact Hslt. }
    cbn zeta.
    erewrite bind_eq.
    2:{ eapply update_animal_eq. cbn [animal_objs cell_objs set_animals set_cells].
        rewrite !list_insert_insert_eq.
        rewrite list_lookup_insert_ne by congruence.
        apply list_lookup_insert_eq. exact Hslt. }
    unfold ret, set_animals, set_cells. cbn -[Qmult Qplus Qminus py_min].
    rewrite !list_insert_insert_eq.
    rewrite (list_insert_insert_ne _ self prey) by exact Hne.
    rewrite list_insert_insert_eq.
    rewrite (list_insert_insert_ne _ prey self) by congruence. reflexivity.
  - erewrite bind_eq.
    2:{ apply get_animal_eq. cbn [animal_objs cell_objs set_animals set_cells].
        rewrite list_insert_insert_eq.
        apply list_lookup_insert_eq. rewrite !length_insert. exact Hplt. }
    erewrite bind_eq.
    2:{ apply get_animal_eq. cbn [animal_objs cell_objs set_animals set_cells].
        rewrite !list_insert_insert_eq.
        rewrite list_lookup_insert_ne by congruence.
        apply list_lookup_insert_eq. exact Hslt. }
    cbn zeta.
    erewrite bind_eq.
    2:{ eapply update_animal_eq. cbn [animal_objs cell_objs set_animals set_cells].
        rewrite !list_insert_insert_eq.
        rewrite list_lookup_insert_ne by congruence.
        apply list_lookup_insert_eq. exact Hslt. }
    unfold ret, set_animals, set_cells. cbn -[Qmult Qplus Qminus py_min].
    rewrite !list_insert_insert_eq.
    rewrite (list_insert_insert_ne _ self prey) by exact Hne.
    rewrite list_insert_insert_eq.
    rewrite (list_insert_insert_ne _ prey self) by congruence.
    f_equal. f_equal.
    symmetry. apply list_insert_id.
    rewrite list_remove_first_absent, with_occupants_id; [exact Hpc|].
    intros Hin. apply is_occupant_In in Hin. congruence.
Qed.

End PredatorEat.

(** The contract of [Predator.eat] on a predator and a distinct prey: no-op
    when either is dead or their position references differ; otherwise the
    predator pays [attack_cost] and dies, gaining nothing and leaving the
    prey untouched, when that leaves it no energy; otherwise the prey loses
    [attack_damage]; a prey left with energy is all that changes, and a prey
    left without energy dies, is removed from the occupants of the cell and
    loses its position, and the predator's energy becomes
    [min(energy + prey.max_energy * eat_efficiency, max_energy)]. *)
Theorem predator_eat_contract (self prey : nat) (h : Heap) (a q : Animal) (ac ad : Q) :
  animal_objs h !! self = Some a -> animal_objs h !! prey = Some q ->
  self <> prey -> class a = IsPredator ac ad ->
  (alive a = false \/ alive q = false \/ position a <> position q ->
   Predator.eat self prey h = (Ok 0, h))
  /\ (alive a = true -> alive q = true -> position a = position q ->
      (energy a - ac <= 0 ->
       Predator.eat self prey h =
         (Ok 0,
          set_animals
            (fun l => <[self := with_alive false (with_energy (energy a - ac) a)]> l) h))
      /\ (0 < energy a - ac -> 0 < energy q - ad ->
          Predator.eat self prey h =
            (Ok 0,
             set_animals
               (fun l => <[prey := with_energy (energy q - ad) q]>
                           (<[self := with_energy (energy a - ac) a]> l)) h))
      /\ (0 < energy a - ac -> energy q - ad <= 0 ->
          forall p pc, position a = Some p -> cell_objs h !! p = Some pc ->
          In prey (occupants pc) ->
          Predator.eat self prey h =
            (Ok (max_energy q * eat_efficiency a),
             mkHeap
               (<[p := with_occupants
                         (Cell.list_remove_first prey (occupants pc)) pc]>
                  (cell_objs h))
               (<[self := with_energy
                            (py_min (energy a - ac + max_energy q * eat_efficiency a)
                               (max_energy a)) a]>
                  (<[prey := with_position None
                               (with_alive false (with_energy (energy q - ad) q))]>
                     (animal_objs h)))
               (grid_objs h) (rng_index h) (rng_unit h) (rng_pos h)))).
Proof.
  intros Ha Hq Hne Hclass. split.
  - apply (predator_eat_guard self prey h a q Ha Hq).
  - intros Halive_a Halive_q Hpos. split; [|split].
    + apply (predator_eat_exhausted self prey h a q ac ad Ha Hq Hclass
               Halive_a Halive_q Hpos).
    + apply (predator_eat_prey_survives self prey h a q ac ad Ha Hq Hne Hclass
               Halive_a Halive_q Hpos).
    + intros Hea Heq p pc Hp Hpc Hin.
      rewrite (predator_eat_kills self prey h a q ac ad Ha Hq Hne Hclass
                 Halive_a Halive_q Hpos p pc Hea Heq Hp Hpc).
      apply is_occupant_In in Hin. rewrite Hin. reflexivity.
Qed.

Lemma predator_eat_contract_witness :
  Predator.eat 0 1 (hunting_heap 50 30)
  = (Ok 0,
     set_animals
       (fun l => <[1%nat := with_energy (30 - 25) (with_energy 30 (Prey_init (Some 0%nat)))]>
                   (<[0%nat := with_energy (50 - 5)
                                 (with_energy 50 (Predator_init (Some 0%nat)))]> l))
       (hunting_heap 50 30)).
Proof.
  refine (proj1 (proj2 (proj2
    (predator_eat_contract 0 1 (hunting_heap 50 30) _ _ 5 25
       eq_refl eq_refl _ eq_refl) eq_refl eq_refl eq_refl)) _ _).
  - discriminate.
  - vm_compute. reflexivity.
  - vm_compute. reflexivity.
Defined.

(** C3, at the failing input: a predator and a prey that were never placed
    share no cell, yet [eat] attacks: the predator pays [attack_cost], the
    prey takes [attack_damage]; and the attack that kills the prey ends in
    [AttributeError], the predator having no cell to remove it from. *)
Theorem predator_eat_unplaced_pair :
  (forall x a, animal_objs unplaced_pair_heap !! x = Some a -> position a = None)
  /\ Predator.eat 0 1 unplaced_pair_heap
     = (Ok 0,
        set_animals
          (fun _ => [with_energy 45 (Predator_init None);
                     with_energy 25 (Prey_init None)]) unplaced_pair_heap)
  /\ fst ((Predator.eat 0 1 ;;; Predator.eat 0 1) unplaced_pair_heap)
     = Raise AttributeError.
Proof.
  split; [|split].
  - intros [|[|x]] a; simpl; intros E; inversion E; reflexivity.
  - reflexivity.
  - reflexivity.
Qed.

(** ** Reference consistency and death *)

Lemma hunting_heap_consistent e e' : reference_consistent (hunting_heap e e').
Proof.
  intros x a Hx.
  assert (Hm : forall y c, member (hunting_heap e e') y c ->
                            c = 0%nat /\ (y = 0%nat \/ y = 1%nat)).
  { intros y [|c] (cell & Hc & Hin); simpl in Hc; [|discriminate].
    inversion Hc; subst. simpl in Hin. intuition. }
  assert (Hpos : alive a = true /\ position a = Some 0%nat /\ (x = 0 \/ x = 1)%nat).
  { destruct x as [|[|x]]; simpl in Hx; inversion Hx; subst; simpl; auto. }
  destruct Hpos as (Halive & Hp & Hx01). split.
  - intros _ p Hp'. rewrite Hp in Hp'. inversion Hp'; subst. split.
    + eexists. split; [reflexivity|]. simpl. destruct Hx01; subst; auto.
    + intros c Hc. apply Hm in Hc. tauto.
  - intros [Hd|Hn]; congruence.
Qed.

(** C1, at the failing input: a predator with energy 5 attacks the prey
    that shares its cell.  The state before the call is consistent; after
    it the predator is dead and is still an occupant of the cell, which
    still counts two occupants. *)
Theorem dead_predator_keeps_its_cell :
  reference_consistent (hunting_heap 5 50)
  /\ exists h' a,
       Predator.eat 0 1 (hunting_heap 5 50) = (Ok 0, h')
       /\ animal_objs h' !! 0%nat = Some a
       /\ alive a = false /\ energy a == 0 /\ position a = Some 0%nat
       /\ member h' 0 0
       /\ cell_objs h' = cell_objs (hunting_heap 5 50)
       /\ ~ reference_consistent h'.
Proof.
  split; [apply hunting_heap_consistent|].
  eexists _, _. split; [reflexivity|].
  split; [reflexivity|]. split; [reflexivity|]. split; [reflexivity|].
  split; [reflexivity|].
  assert (Hm : member
                 (snd (Predator.eat 0 1 (hunting_heap 5 50))) 0 0).
  { eexists. split; [reflexivity|]. simpl. auto. }
  split; [exact Hm|]. split; [reflexivity|].
  intros Hc. destruct (Hc 0%nat _ eq_refl) as [_ Hdead].
  apply (Hdead (or_introl eq_refl) 0%nat). exact Hm.
Qed.

(** C2, at the failing inputs.  First tick below: the predator's energy
    reaches 0 in its own attack; at the end of the tick it is dead and has
    left the population, but it is still an occupant of its cell.  Second
    tick below: a prey with energy 2 moves; its energy is 0 at the end of
    the tick, and it is still alive, still in the population, and is asked
    for an action again in the following tick. *)
Theorem death_without_detachment :
  (exists s' h' a,
     Simulation.next_step (simulation_of 1 [0%nat; 1%nat]) (hunting_heap 5 50)
       = (Ok (true, s'), h')
     /\ animal_objs h' !! 0%nat = Some a
     /\ energy a == 0 /\ alive a = false
     /\ Simulation.animals s' = [1%nat]
     /\ member h' 0 0)
  /\ (exists s' h' a s'' h'',
        Simulation.next_step (simulation_of 2 [0%nat]) (prey_alone_heap 2)
          = (Ok (true, s'), h')
        /\ animal_objs h' !! 0%nat = Some a
        /\ energy a == 0 /\ alive a = true
        /\ Simulation.animals s' = [0%nat]
        /\ member h' 0 2
        /\ Simulation.decide 0 (Simulation.animals s') h'
           = (Ok [(0%nat, MOVE UP)], set_rng_pos S h')
        /\ Simulation.next_step s' h' = (Ok (true, s''), h'')
        /\ Simulation.animals s'' = [0%nat]).
Proof.
  split.
  - eexists _, _, _. split; [vm_compute; reflexivity|].
    split; [reflexivity|]. split; [reflexivity|]. split; [reflexivity|].
    split; [reflexivity|].
    eexists. split; [reflexivity|]. simpl. auto.
  - eexists _, _, _, _, _. split; [vm_compute; reflexivity|].
    split; [reflexivity|]. split; [reflexivity|]. split; [reflexivity|].
    split; [reflexivity|].
    split; [eexists; split; [reflexivity|]; simpl; auto|].
    split; [vm_compute; reflexivity|].
    split; [vm_compute; reflexivity|]. reflexivity.
Qed.

(** ** The occupancy bound *)

Section Preservation.
Variable P : Heap -> Prop.

Lemma preserves_ret {A} (a : A) : preserves P (ret a).
Proof. intros h H. exact H. Qed.

Lemma preserves_raise {A} e : preserves P (@raise A e).
Proof. intros h H. exact H. Qed.

Lemma preserves_bind {A B} (m : M A) (k : A -> M B) :
  preserves P m -> (forall a, preserves P (k a)) -> preserves P (bind m k).
Proof.
  intros Hm Hk h H. unfold bind. specialize (Hm h H).
  destruct (m h) as [[a|e] h1]; simpl in *; [apply Hk; exact Hm|exact Hm].
Qed.

(** A computation that only reads the store. *)
Lemma preserves_reader {A} (m : M A) :
  (forall h, snd (m h) = h) -> preserves P m.
Proof. intros Hm h H. rewrite Hm. exact H. Qed.

End Preservation.

Lemma get_cell_reads c h : snd (get_cell c h) = h.
Proof. unfold get_cell. destruct (cell_objs h !! c); reflexivity. Qed.

Lemma get_animal_reads a h : snd (get_animal a h) = h.
Proof. unfold get_animal. destruct (animal_objs h !! a); reflexivity. Qed.

Lemma get_grid_reads g h : snd (get_grid g h) = h.
Proof. unfold get_grid. destruct (grid_objs h !! g); reflexivity. Qed.

Lemma index2_reads g r c h : snd (index2 g r c h) = h.
Proof. unfold index2. destruct (grid_at g r c); reflexivity. Qed.

Lemma occupancy_bounded_on_cells : on_cells occupancy_bounded.
Proof. intros h h' E H c cell Hc. rewrite E in Hc. eapply H; eauto. Qed.

Section CellPredicates.
Variable P : Heap -> Prop.
Hypothesis HP : on_cells P.

Lemma preserves_update_animal a f : preserves P (update_animal a f).
Proof.
  intros h H. unfold update_animal, bind, get_animal.
  destruct (animal_objs h !! a); simpl; [|exact H].
  eapply HP; [|exact H]. reflexivity.
Qed.

Lemma preserves_update_grid g f : preserves P (update_grid g f).
Proof.
  intros h H. unfold update_grid, bind, get_grid.
  destruct (grid_objs h !! g); simpl; [|exact H].
  eapply HP; [|exact H]. reflexivity.
Qed.

Lemma preserves_new_animal x : preserves P (new_animal x).
Proof. intros h H. eapply HP; [|exact H]. reflexivity. Qed.

Lemma preserves_new_grid x : preserves P (new_grid x).
Proof. intros h H. eapply HP; [|exact H]. reflexivity. Qed.

Lemma preserves_random_random : preserves P random_random.
Proof. intros h H. eapply HP; [|exact H]. reflexivity. Qed.

Lemma preserves_random_randint a b : preserves P (random_randint a b).
Proof.
  intros h H. unfold random_randint. destruct (b <? a)%Z; simpl; [exact H|].
  eapply HP; [|exact H]. reflexivity.
Qed.

Lemma preserves_random_choice {A} (l : list A) : preserves P (random_choice l).
Proof.
  intros h H. unfold random_choice. destruct (l !! _); simpl; [|exact H].
  eapply HP; [|exact H]. reflexivity.
Qed.

End CellPredicates.

(** An assignment to a cell that does not lengthen its occupants. *)
Lemma bounded_update_cell c f :
  (forall x, (length (occupants (f x)) <= length (occupants x))%nat) ->
  preserves occupancy_bounded (update_cell c f).
Proof.
  intros Hf h H. unfold update_cell, bind, get_cell.
  destruct (cell_objs h !! c) as [x|] eqn:Hc; simpl; [|exact H].
  intros c' cell Hc'. cbn [cell_objs set_cells snd] in Hc'.
  destruct (Nat.eq_dec c c') as [->|Hne].
  - rewrite list_lookup_insert_eq in Hc' by (eapply lookup_lt_Some; eauto).
    inversion Hc'; subst. specialize (H _ _ Hc). specialize (Hf x).
    unfold Cell.occupant_count in *. lia.
  - rewrite list_lookup_insert_ne in Hc' by exact Hne. eapply H; eauto.
Qed.

Lemma bounded_new_cell x :
  occupants x = [] -> preserves occupancy_bounded (new_cell x).
Proof.
  intros Hx h H c cell Hc. simpl in Hc.
  apply lookup_snoc_Some in Hc as [[_ Hc]|[_ <-]].
  - eapply H; eauto.
  - unfold Cell.occupant_count. rewrite Hx. simpl. lia.
Qed.


Lemma bounded_update_cell_short c l :
  (length l <= 2)%nat ->
  preserves occupancy_bounded (update_cell c (with_occupants l)).
Proof.
  intros Hl h H. unfold update_cell, bind, get_cell.
  destruct (cell_objs h !! c) as [x|] eqn:Hc; simpl; [|exact H].
  intros c' cell Hc'. cbn [cell_objs set_cells snd] in Hc'.
  destruct (Nat.eq_dec c c') as [->|Hne].
  - rewrite list_lookup_insert_eq in Hc' by (eapply lookup_lt_Some; eauto).
    inversion Hc'; subst. exact Hl.
  - rewrite list_lookup_insert_ne in Hc' by exact Hne. eapply H; eauto.
Qed.

Create HintDb pres discriminated.

#[local] Hint Resolve preserves_ret preserves_raise : pres.
#[local] Hint Resolve occupancy_bounded_on_cells : pres.
#[local] Hint Resolve preserves_update_animal preserves_update_grid
  preserves_new_animal preserves_new_grid preserves_random_random
  preserves_random_randint preserves_random_choice : pres.
#[local] Hint Extern 1 (preserves _ (get_cell _)) =>
  apply preserves_reader, get_cell_reads : pres.
#[local] Hint Extern 1 (preserves _ (get_animal _)) =>
  apply preserves_reader, get_animal_reads : pres.
#[local] Hint Extern 1 (preserves _ (get_grid _)) =>
  apply preserves_reader, get_grid_reads : pres.
#[local] Hint Extern 1 (preserves _ (index2 _ _ _)) =>
  apply preserves_reader, index2_reads : pres.

(** One step through the syntax of a computation. *)
Ltac pres_step :=
  match goal with
  | |- preserves _ (bind _ _) => apply preserves_bind; [|intros ?]
  | |- preserves _ (match ?x with _ => _ end) => destruct x eqn:?
  | |- preserves _ (let _ := _ in _) => cbv zeta
  | |- preserves _ _ => solve [eauto with pres]
  end.

Ltac pres := repeat pres_step.

Lemma bounded_add_animal self animal :
  preserves occupancy_bounded (Cell.add_animal self animal).
Proof.
  unfold Cell.add_animal. pres.
  apply bounded_update_cell_short.
  match goal with H : negb (Cell.can_add_animal _) = false |- _ =>
    unfold Cell.can_add_animal in H; apply negb_false_iff, Nat.ltb_lt in H
  end.
  rewrite length_app. simpl. lia.
Qed.

Lemma bounded_remove_animal self animal :
  preserves occupancy_bounded (Cell.remove_animal self animal).
Proof.
  intros h H. unfold Cell.remove_animal. unfold bind at 1, get_cell.
  destruct (cell_objs h !! self) as [c|] eqn:Hc; [|exact H].
  destruct (Cell.is_occupant animal c); [|exact H].
  refine (preserves_bind _ _ _ _ _ h H); [|intros _; auto with pres].
  apply bounded_update_cell_short.
  pose proof (list_remove_first_length animal (occupants c)).
  specialize (H _ _ Hc). unfold Cell.occupant_count in H. lia.
Qed.

Lemma bounded_clear_positions l :
  preserves occupancy_bounded (Cell.clear_positions l).
Proof. induction l; simpl; pres. Qed.

Lemma bounded_clear_occupants self :
  preserves occupancy_bounded (Cell.clear_occupants self).
Proof.
  unfold Cell.clear_occupants. pres.
  - apply bounded_clear_positions.
  - apply bounded_update_cell_short. simpl. lia.
Qed.

Lemma bounded_consume_grass self amount :
  preserves occupancy_bounded (Cell.consume_grass self amount).
Proof.
  unfold Cell.consume_grass. pres. apply bounded_update_cell. intros x. simpl. lia.
Qed.

Lemma bounded_regenerate_grass self amount :
  preserves occupancy_bounded (Cell.regenerate_grass self amount).
Proof.
  unfold Cell.regenerate_grass. pres. apply bounded_update_cell. intros x. simpl. lia.
Qed.

#[local] Hint Resolve bounded_add_animal bounded_remove_animal
  bounded_clear_occupants bounded_consume_grass bounded_regenerate_grass : pres.

Lemma bounded_move self d : preserves occupancy_bounded (Animal.move self d).
Proof. unfold Animal.move. pres. Qed.

Lemma bounded_reproduce self : preserves occupancy_bounded (Animal.reproduce self).
Proof. unfold Animal.reproduce. pres. Qed.

Lemma bounded_prey_eat self : preserves occupancy_bounded (Prey.eat self).
Proof. unfold Prey.eat. pres. Qed.

Lemma bounded_predator_eat self prey :
  preserves occupancy_bounded (Predator.eat self prey).
Proof. unfold Predator.eat. pres. Qed.

#[local] Hint Resolve bounded_move bounded_reproduce bounded_prey_eat
  bounded_predator_eat : pres.

Lemma bounded_see_neighbors g row col l :
  preserves occupancy_bounded (Animal.see_neighbors g row col l).
Proof. induction l as [|[dr dc] l IH]; simpl; pres. Qed.

#[local] Hint Resolve bounded_see_neighbors : pres.

Lemma bounded_see self grid : preserves occupancy_bounded (Animal.see self grid).
Proof. unfold Animal.see. pres. Qed.

Lemma bounded_safe_dirs ns dirs :
  preserves occupancy_bounded (Prey.safe_dirs ns dirs).
Proof. induction dirs as [|[d v] dirs IH]; simpl; pres. Qed.

#[local] Hint Resolve bounded_safe_dirs : pres.

Lemma bounded_escape ns occ : preserves occupancy_bounded (Prey.escape ns occ).
Proof. induction occ as [|o occ IH]; simpl; pres. Qed.

Lemma bounded_grass_dirs ns : preserves occupancy_bounded (Prey.grass_dirs ns).
Proof. induction ns as [|[v n] ns IH]; simpl; pres. Qed.

#[local] Hint Resolve bounded_escape bounded_grass_dirs : pres.

Lemma bounded_prey_action self perception :
  preserves occupancy_bounded (Prey.action self perception).
Proof. unfold Prey.action. pres. Qed.

Lemma bounded_hunt_here occ : preserves occupancy_bounded (Predator.hunt_here occ).
Proof. induction occ as [|o occ IH]; simpl; pres. Qed.

Lemma bounded_any_prey occ : preserves occupancy_bounded (Predator.any_prey occ).
Proof. induction occ as [|o occ IH]; simpl; pres. Qed.

Lemma bounded_living_prey_among occ :
  preserves occupancy_bounded (Predator.living_prey_among occ).
Proof. induction occ as [|o occ IH]; simpl; pres. Qed.

#[local] Hint Resolve bounded_hunt_here bounded_any_prey
  bounded_living_prey_among : pres.

Lemma bounded_prey_dirs ns : preserves occupancy_bounded (Predator.prey_dirs ns).
Proof. induction ns as [|[v n] ns IH]; simpl; pres. Qed.

Lemma bounded_seek ns : preserves occupancy_bounded (Predator.seek ns).
Proof. induction ns as [|[v n] ns IH]; simpl; pres. Qed.

#[local] Hint Resolve bounded_prey_dirs bounded_seek : pres.

Lemma bounded_predator_action self perception :
  preserves occupancy_bounded (Predator.action self perception).
Proof. unfold Predator.action. pres. Qed.

#[local] Hint Resolve bounded_see bounded_prey_action bounded_predator_action : pres.

Lemma bounded_dispatch_action animal perception :
  preserves occupancy_bounded (dispatch_action animal perception).
Proof. unfold dispatch_action. pres. Qed.

Lemma bounded_dispatch_eat animal : preserves occupancy_bounded (dispatch_eat animal).
Proof. unfold dispatch_eat. pres. Qed.

Lemma bounded_last_occupant animal :
  preserves occupancy_bounded (last_occupant animal).
Proof. unfold last_occupant. pres. Qed.

#[local] Hint Resolve bounded_dispatch_action bounded_dispatch_eat
  bounded_last_occupant : pres.

Lemma bounded_step self perception :
  preserves occupancy_bounded (Animal_step self perception).
Proof. unfold Animal_step. pres. Qed.

Lemma bounded_transform eco animal act :
  preserves occupancy_bounded (Ecosystem.transform eco animal act).
Proof. unfold Ecosystem.transform. pres. Qed.

Lemma bounded_regenerate_row rate row :
  preserves occupancy_bounded (Ecosystem.regenerate_row rate row).
Proof. induction row as [|c row IH]; simpl; pres. Qed.

#[local] Hint Resolve bounded_regenerate_row : pres.

Lemma bounded_regenerate_rows rate g :
  preserves occupancy_bounded (Ecosystem.regenerate_rows rate g).
Proof. induction g as [|row g IH]; simpl; pres. Qed.

#[local] Hint Resolve bounded_regenerate_rows bounded_transform : pres.

Lemma bounded_ecosystem_regenerate eco :
  preserves occupancy_bounded (Ecosystem.regenerate_grass eco).
Proof. unfold Ecosystem.regenerate_grass. pres. Qed.

Lemma bounded_decide grid l : preserves occupancy_bounded (Simulation.decide grid l).
Proof. induction l as [|x l IH]; simpl; pres. Qed.

Lemma bounded_execute eco of_class actions :
  preserves occupancy_bounded (Simulation.execute eco of_class actions).
Proof. induction actions as [|[x act] actions IH]; simpl; pres. Qed.

Lemma bounded_survivors dead l :
  preserves occupancy_bounded (Simulation.survivors dead l).
Proof. induction l as [|x l IH]; simpl; pres. Qed.

#[local] Hint Resolve bounded_ecosystem_regenerate bounded_decide bounded_execute
  bounded_survivors : pres.

Lemma bounded_next_step s : preserves occupancy_bounded (Simulation.next_step s).
Proof. unfold Simulation.next_step. pres. Qed.

#[local] Hint Resolve bounded_next_step : pres.

Lemma bounded_run_loop n : forall s, preserves occupancy_bounded (Simulation.run_loop n s).
Proof. induction n as [|n IH]; intros s; simpl; pres. Qed.

Lemma bounded_run s steps : preserves occupancy_bounded (Simulation.run s steps).
Proof. unfold Simulation.run. apply bounded_run_loop. Qed.

Lemma bounded_apply_op op s h :
  occupancy_bounded h -> occupancy_bounded (snd (apply_op op (s, h))).
Proof.
  intros H. destruct op; simpl;
    try (match goal with
         | |- occupancy_bounded (snd (?m h)) =>
             refine ((_ : preserves occupancy_bounded m) h H); auto with pres
         end).
  - apply bounded_step.
  - pose proof (bounded_next_step s h H) as Hn.
    destruct (Simulation.next_step s h) as [[[b s']|e] h']; exact Hn.
  - pose proof (bounded_run s steps h H) as Hn.
    destruct (Simulation.run s steps h) as [[[s' k]|e] h']; exact Hn.
Qed.

Lemma bounded_apply_ops ops : forall s h,
  occupancy_bounded h -> occupancy_bounded (snd (apply_ops ops (s, h))).
Proof.
  unfold apply_ops. induction ops as [|op ops IH]; intros s h H; [exact H|].
  cbn [fold_left].
  pose proof (bounded_apply_op op s h H) as Hop.
  destruct (apply_op op (s, h)) as [s1 h1]. apply IH. exact Hop.
Qed.

(** A world as [Ecosystem.__init__] builds it satisfies the bound. *)
Lemma bounded_cell_init label grass :
  preserves occupancy_bounded (Cell.init label grass).
Proof.
  unfold Cell.init. destruct (Cell.supported label).
  - apply bounded_new_cell. reflexivity.
  - apply preserves_raise.
Qed.

Lemma bounded_init_row gref density n :
  preserves occupancy_bounded (Ecosystem.init_row gref density n).
Proof.
  induction n as [|n IH]; cbn [Ecosystem.init_row]; pres;
    try apply bounded_cell_init.
  apply bounded_update_cell. intros x. simpl. lia.
Qed.

Lemma bounded_init_rows gref density width n :
  preserves occupancy_bounded (Ecosystem.init_rows gref density width n).
Proof.
  induction n as [|n IH]; simpl; pres. apply bounded_init_row.
Qed.

Lemma bounded_ecosystem_init size rate density :
  preserves occupancy_bounded (Ecosystem.init size rate density).
Proof. unfold Ecosystem.init. pres. apply bounded_init_rows. Qed.

Lemma bounded_place fuel eco new :
  preserves occupancy_bounded (Simulation.place fuel eco new).
Proof. induction fuel as [|fuel IH]; simpl; pres. Qed.

Lemma bounded_place_all fuel eco new count :
  preserves occupancy_bounded (Simulation.place_all fuel eco new count).
Proof. induction count as [|count IH]; simpl; pres. apply bounded_place. Qed.

(** So does a simulation as [Simulation.__init__] builds it. *)
Lemma bounded_simulation_init fuel size np nq ms rate density :
  preserves occupancy_bounded (Simulation.init fuel size np nq ms rate density).
Proof.
  unfold Simulation.init. pres;
    [apply bounded_ecosystem_init|apply bounded_place_all..].
Qed.

Lemma bounded_empty_heap : occupancy_bounded empty_heap.
Proof. intros c cell Hc. discriminate Hc. Qed.

(** C9: whatever core operations are issued, in whatever order, from a
    store in which no cell has more than two occupants, no cell has more
    than two occupants afterwards; and [add_animal] on a cell that holds
    two occupants returns [False] and leaves the whole store, hence the
    occupants of the cell and their position references, as it was. *)
Theorem occupancy_bound_invariant :
  (forall (ops : list CoreOp) (s : Simulation.t) (h : Heap),
      occupancy_bounded h ->
      forall c cell,
        cell_objs (snd (apply_ops ops (s, h))) !! c = Some cell ->
        (Cell.occupant_count cell <= 2)%nat)
  /\ (forall (self animal : nat) (h : Heap) (cell : Cell),
        cell_objs h !! self = Some cell ->
        Cell.occupant_count cell = 2%nat ->
        Cell.add_animal self animal h = (Ok false, h)).
Proof.
  split.
  - intros ops s h H. apply bounded_apply_ops. exact H.
  - intros self animal h cell Hc Hfull. unfold Cell.add_animal.
    rewrite (bind_eq _ _ _ _ _ (get_cell_eq _ _ _ Hc)).
    unfold Cell.can_add_animal, Cell.occupant_count in *. rewrite Hfull.
    reflexivity.
Qed.

Lemma occupancy_bound_invariant_witness :
  (forall c cell,
      cell_objs
        (snd (apply_ops [op_reproduce 0; op_move 0 RIGHT; op_add 0 0; op_next_step]
                (simulation_of 2 [0%nat], prey_alone_heap 70))) !! c = Some cell ->
      (Cell.occupant_count cell <= 2)%nat)
  /\ Cell.add_animal 0 1 (hunting_heap 50 30) = (Ok false, hunting_heap 50 30).
Proof.
  split.
  - apply (proj1 occupancy_bound_invariant).
    intros [|[|[|[|c]]]] cell Hc; simpl in Hc; inversion Hc; subst;
      unfold Cell.occupant_count; simpl; lia.
  - apply (proj2 occupancy_bound_invariant 0%nat 1%nat (hunting_heap 50 30)
             (mkCell soil 1 [0%nat; 1%nat] (Some 0%nat)) eq_refl eq_refl).
Defined.

(** * Further properties of the engine *)

(** ** Deciding has no side effect *)

Lemma same_objects_refl h : same_objects h h.
Proof. unfold same_objects. repeat split; reflexivity || lia. Qed.

Lemma same_objects_trans h1 h2 h3 :
  same_objects h1 h2 -> same_objects h2 h3 -> same_objects h1 h3.
Proof.
  unfold same_objects. intros (A1 & A2 & A3 & A4 & A5 & A6) (B1 & B2 & B3 & B4 & B5 & B6).
  repeat split; try congruence. lia.
Qed.

Lemma pure_random_random h0 : preserves (same_objects h0) random_random.
Proof.
  intros h H. eapply same_objects_trans; [exact H|].
  unfold same_objects. simpl. repeat split; lia.
Qed.

Lemma pure_random_choice {A} h0 (l : list A) :
  preserves (same_objects h0) (random_choice l).
Proof.
  intros h H. unfold random_choice. destruct (l !! _); simpl; [|exact H].
  eapply same_objects_trans; [exact H|].
  unfold same_objects. simpl. repeat split; lia.
Qed.

#[local] Hint Resolve pure_random_random pure_random_choice : pres.

Lemma pure_see_neighbors h0 g row col l :
  preserves (same_objects h0) (Animal.see_neighbors g row col l).
Proof. induction l as [|[dr dc] l IH]; simpl; pres. Qed.

#[local] Hint Resolve pure_see_neighbors : pres.

Lemma pure_see h0 self grid : preserves (same_objects h0) (Animal.see self grid).
Proof. unfold Animal.see. pres. Qed.

Lemma pure_safe_dirs h0 ns dirs : preserves (same_objects h0) (Prey.safe_dirs ns dirs).
Proof. induction dirs as [|[d v] dirs IH]; simpl; pres. Qed.

#[local] Hint Resolve pure_safe_dirs : pres.

Lemma pure_escape h0 ns occ : preserves (same_objects h0) (Prey.escape ns occ).
Proof. induction occ as [|o occ IH]; simpl; pres. Qed.

Lemma pure_grass_dirs h0 ns : preserves (same_objects h0) (Prey.grass_dirs ns).
Proof. induction ns as [|[v n] ns IH]; simpl; pres. Qed.

#[local] Hint Resolve pure_escape pure_grass_dirs : pres.

Lemma pure_prey_action h0 self perception :
  preserves (same_objects h0) (Prey.action self perception).
Proof. unfold Prey.action. pres. Qed.

Lemma pure_hunt_here h0 occ : preserves (same_objects h0) (Predator.hunt_here occ).
Proof. induction occ as [|o occ IH]; simpl; pres. Qed.

Lemma pure_any_prey h0 occ : preserves (same_objects h0) (Predator.any_prey occ).
Proof. induction occ as [|o occ IH]; simpl; pres. Qed.

Lemma pure_living_prey_among h0 occ :
  preserves (same_objects h0) (Predator.living_prey_among occ).
Proof. induction occ as [|o occ IH]; simpl; pres. Qed.

#[local] Hint Resolve pure_hunt_here pure_any_prey pure_living_prey_among : pres.

Lemma pure_prey_dirs h0 ns : preserves (same_objects h0) (Predator.prey_dirs ns).
Proof. induction ns as [|[v n] ns IH]; simpl; pres. Qed.

Lemma pure_seek h0 ns : preserves (same_objects h0) (Predator.seek ns).
Proof. induction ns as [|[v n] ns IH]; simpl; pres. Qed.

#[local] Hint Resolve pure_prey_dirs pure_seek : pres.

Lemma pure_predator_action h0 self perception :
  preserves (same_objects h0) (Predator.action self perception).
Proof. unfold Predator.action. pres. Qed.

#[local] Hint Resolve pure_see pure_prey_action pure_predator_action : pres.

Lemma pure_dispatch_action h0 animal perception :
  preserves (same_objects h0) (dispatch_action animal perception).
Proof. unfold dispatch_action. pres. Qed.

#[local] Hint Resolve pure_dispatch_action : pres.

Lemma pure_decide h0 grid l : preserves (same_objects h0) (Simulation.decide grid l).
Proof. induction l as [|x l IH]; simpl; pres. Qed.

(** The animals [decide] returns an action for. *)
Lemma decide_living grid l : forall h r h',
  Simulation.decide grid l h = (Ok r, h') ->
  List.map fst r = List.filter (fun x => match animal_objs h !! x with
                                         | Some a => alive a
                                         | None => false
                                         end) l.
Proof.
  induction l as [|x l IH]; intros h r h'; simpl.
  - unfold ret. intros E. inversion E. reflexivity.
  - intros E. apply bind_Ok in E as (a & h1 & E1 & E).
    unfold get_animal in E1. destruct (animal_objs h !! x) as [a'|] eqn:Hx;
      [|discriminate]. inversion E1; subst a' h1. clear E1.
    destruct (alive a).
    + apply bind_Ok in E as (p & h1 & E1 & E).
      apply bind_Ok in E as (act & h2 & E2 & E).
      apply bind_Ok in E as (rest & h3 & E3 & E).
      unfold ret in E. inversion E; subst. simpl. f_equal.
      pose proof (pure_see h x grid h (same_objects_refl h)) as S1.
      rewrite E1 in S1. simpl in S1.
      pose proof (pure_dispatch_action h x p h1 S1) as S2.
      rewrite E2 in S2. simpl in S2.
      rewrite (IH _ _ _ E3). destruct S2 as (_ & -> & _). reflexivity.
    + apply (IH _ _ _ E).
Qed.

(** X1: the first phase of [next_step] (a perception and a decision for
    every living animal) changes no cell, no animal and no grid; it only
    reads the random source further.  When it returns, it returns one
    decision for each animal of the population that is alive, in population
    order. *)
Theorem deciding_changes_nothing (grid : nat) (l : list nat) (h : Heap) :
  same_objects h (snd (Simulation.decide grid l h))
  /\ match fst (Simulation.decide grid l h) with
     | Ok acts =>
         List.map fst acts
         = List.filter (fun x => match animal_objs h !! x with
                                 | Some a => alive a
                                 | None => false
                                 end) l
     | Raise _ => True
     end.
Proof.
  split.
  - apply pure_decide. apply same_objects_refl.
  - destruct (Simulation.decide grid l h) as [[acts|e] h'] eqn:E; simpl; [|exact I].
    eapply decide_living; eauto.
Qed.

(** ** Perception *)

Lemma perceived_functional h n nb nb' :
  perceived h n nb -> perceived h n nb' -> nb = nb'.
Proof.
  intros (c & Hc & E) (c' & Hc' & E'). rewrite Hc in Hc'.
  inversion Hc'; subst. reflexivity.
Qed.

Lemma see_neighbors_sound g row col l : forall h ns h',
  Animal.see_neighbors g row col l h = (Ok ns, h') ->
  forall k nb, neighbors_get k ns = Some nb ->
    In k l /\ in_bounds g (row + fst k) (col + snd k) = true
    /\ grid_at g (row + fst k) (col + snd k) = Some (n_cell nb).
Proof.
  induction l as [|[dr0 dc0] l IH]; intros h ns h'; simpl.
  - unfold ret. intros E; inversion E; subst. discriminate.
  - destruct (in_bounds g (row + dr0) (col + dc0)) eqn:Hb.
    + intros E. apply bind_Ok in E as (n & h1 & E1 & E).
      apply index2_Ok in E1 as [Hn ->].
      apply bind_Ok in E as (cell & h1 & E1 & E).
      apply get_cell_Ok in E1 as [Hc ->].
      apply bind_Ok in E as (rest & h1 & E1 & E).
      unfold ret in E. inversion E; subst. clear E.
      intros k nb. simpl. destruct (vector_eqb (dr0, dc0) k) eqn:Ek.
      * apply vector_eqb_eq in Ek. subst k. intros E; inversion E; subst. simpl. auto.
      * intros Hg. destruct (IH _ _ _ E1 _ _ Hg) as (? & ? & ?). auto.
    + intros E k nb Hg. destruct (IH _ _ _ E _ _ Hg) as (? & ? & ?). auto.
Qed.

(** X2: what [see] delivers.  A dead animal, and an animal without a
    position, perceives nothing.  A perception that is not empty names the
    animal's cell and energy, and its neighbourhood has an entry for an
    offset exactly when the offset is one of the nine around the cell and
    falls inside the grid; the entry describes the cell found there as it is
    in the store (its grass only if it is fertile).  [see] changes nothing. *)
Theorem see_delivers_the_neighbourhood (self grid : nat) (h : Heap) (a : Animal) :
  animal_objs h !! self = Some a ->
  (alive a = false \/ position a = None -> Animal.see self grid h = (Ok None, h))
  /\ (forall pc h',
        Animal.see self grid h = (Ok (Some pc), h') ->
        h' = h
        /\ alive a = true /\ position a = Some (current_cell pc)
        /\ self_energy pc = energy a
        /\ exists g r c,
             grid_objs h !! grid = Some g
             /\ find_cell (current_cell pc) g 0 = Some (r, c)
             /\ forall dr dc nb,
                  neighbors_get (dr, dc) (neighbors pc) = Some nb
                  <-> In (dr, dc) Animal.offsets
                      /\ in_bounds g (Z.of_nat r + dr) (Z.of_nat c + dc) = true
                      /\ exists n,
                           grid_at g (Z.of_nat r + dr) (Z.of_nat c + dc) = Some n
                           /\ perceived h n nb).
Proof.
  intros Ha. split.
  - intros Hd. unfold Animal.see.
    rewrite (bind_eq _ _ _ _ _ (get_animal_eq _ _ _ Ha)).
    destruct (position a); [|reflexivity].
    destruct Hd as [Hd|Hd]; [rewrite Hd; reflexivity|discriminate].
  - intros pc h' E. unfold Animal.see in E.
    rewrite (bind_eq _ _ _ _ _ (get_animal_eq _ _ _ Ha)) in E.
    destruct (position a) as [p|] eqn:Hp; [|discriminate].
    destruct (alive a) eqn:Halive; [|discriminate]. cbn [negb] in E.
    apply bind_Ok in E as (g & h1 & E1 & E).
    unfold get_grid in E1. destruct (grid_objs h !! grid) as [g'|] eqn:Hg;
      [|discriminate]. inversion E1; subst g' h1. clear E1.
    destruct (find_cell p g 0) as [[r c]|] eqn:Hf; [|discriminate].
    apply bind_Ok in E as (ns & h1 & E1 & E).
    unfold ret in E. inversion E; subst. clear E. simpl.
    destruct (see_neighbors_Ok _ _ _ _ _ _ _ E1) as (-> & Hvalid & Hget).
    pose proof (see_neighbors_sound _ _ _ _ _ _ _ E1) as Hsound.
    split; [reflexivity|]. split; [reflexivity|]. split; [reflexivity|].
    split; [reflexivity|].
    exists g, r, c. split; [reflexivity|]. split; [exact Hf|].
    intros dr dc nb. split.
    + intros Hnb. destruct (Hsound _ _ Hnb) as (Hin & Hb & Hat). simpl in Hb, Hat.
      split; [exact Hin|]. split; [exact Hb|].
      exists (n_cell nb). split; [exact Hat|]. apply Hvalid with (k := (dr, dc)).
      exact Hnb.
    + intros (Hin & Hb & n & Hat & Hper).
      destruct (Hget dr dc Hin Hb) as (n' & nb' & Hat' & Hnb' & Hcell).
      assert (Hn : n' = n) by congruence. rewrite Hn in Hcell.
      pose proof (Hvalid _ _ Hnb') as Hper'. rewrite Hcell in Hper'.
      rewrite (perceived_functional _ _ _ _ Hper Hper'). exact Hnb'.
Qed.

Lemma see_delivers_the_neighbourhood_witness :
  exists pc,
    Animal.see 0 0 (prey_alone_heap 50) = (Ok (Some pc), prey_alone_heap 50)
    /\ position (with_energy 50 (Prey_init (Some 0%nat))) = Some (current_cell pc)
    /\ self_energy pc = 50.
Proof.
  eexists.
  destruct (proj2 (see_delivers_the_neighbourhood 0 0 (prey_alone_heap 50) _ eq_refl)
              _ _ eq_refl) as (_ & _ & Hp & He & _).
  split; [reflexivity|]. split; [exact Hp|exact He].
Defined.

(** ** Predator: decisions *)

Lemma hunt_here_first h l1 x l2 :
  Forall (fun y => allocated h y /\ ~ living_prey h y) l1 ->
  living_prey h x ->
  Predator.hunt_here (l1 ++ x :: l2) h = (Ok (Some (EAT (Some x))), h).
Proof.
  intros Hl1 (a & Ha & Hprey & Halive).
  induction Hl1 as [|y l1 [[b Hb] Hnot] _ IH]; simpl.
  - rewrite (bind_eq _ _ _ _ _ (get_animal_eq _ _ _ Ha)), Hprey, Halive. reflexivity.
  - rewrite (bind_eq _ _ _ _ _ (get_animal_eq _ _ _ Hb)).
    destruct (is_Prey b && alive b) eqn:E; [|exact IH].
    exfalso. apply Hnot. apply andb_true_iff in E as [? ?]. exists b. auto.
Qed.

(** X3: a predator whose cell holds a living prey decides to eat the first
    one in the order of the cell's occupants, whatever its own energy and
    whatever the neighbouring cells hold; the decision draws nothing from
    the random source and changes nothing. *)
Theorem predator_attacks_first_living_prey
    (self : nat) (pc : Percept) (h : Heap) (cell : Cell) (l1 l2 : list nat) (x : nat) :
  cell_objs h !! current_cell pc = Some cell ->
  occupants cell = l1 ++ x :: l2 ->
  Forall (fun y => allocated h y /\ ~ living_prey h y) l1 ->
  living_prey h x ->
  Predator.action self (Some pc) h = (Ok (EAT (Some x)), h).
Proof.
  intros Hc Hocc Hl1 Hx. unfold Predator.action.
  unfold bind at 1. rewrite (bind_eq _ _ _ _ _ (get_cell_eq _ _ _ Hc)).
  unfold Cell.get_occupants. rewrite Hocc, (hunt_here_first _ _ _ _ Hl1 Hx).
  reflexivity.
Qed.

Lemma predator_attacks_first_living_prey_witness :
  Predator.action 0 (Some (mkPercept 0 [] 50)) (hunting_heap 50 30)
  = (Ok (EAT (Some 1%nat)), hunting_heap 50 30).
Proof.
  apply (predator_attacks_first_living_prey 0 (mkPercept 0 [] 50) (hunting_heap 50 30)
           (mkCell soil 1 [0%nat; 1%nat] (Some 0%nat)) [0%nat] [] 1%nat eq_refl eq_refl).
  - constructor; [|constructor]. split.
    + eexists. reflexivity.
    + intros (a & Ha & Hp & _). simpl in Ha. inversion Ha; subst. discriminate Hp.
  - eexists. split; [reflexivity|]. split; reflexivity.
Defined.

Lemma any_prey_false occ : forall h,
  Predator.any_prey occ h = (Ok false, h) ->
  Predator.living_prey_among occ h = (Ok false, h).
Proof.
  induction occ as [|x occ IH]; intros h; simpl; [reflexivity|].
  unfold bind at 1 2, get_animal. destruct (animal_objs h !! x) as [a|]; [|discriminate].
  destruct (is_Prey a); simpl; [discriminate|]. apply IH.
Qed.

Lemma any_prey_reads occ : forall h, snd (Predator.any_prey occ h) = h.
Proof.
  induction occ as [|x occ IH]; intros h; simpl; [reflexivity|].
  unfold bind, get_animal. destruct (animal_objs h !! x) as [a|]; [|reflexivity].
  destruct (is_Prey a); [reflexivity|apply IH].
Qed.

Lemma living_prey_among_total occ : forall h,
  Forall (allocated h) occ ->
  exists b, Predator.living_prey_among occ h = (Ok b, h).
Proof.
  induction occ as [|x occ IH]; intros h Hall; simpl; [eexists; reflexivity|].
  inversion Hall as [|? ? [a Ha] Hall']; subst.
  rewrite (bind_eq _ _ _ _ _ (get_animal_eq _ _ _ Ha)).
  destruct (is_Prey a && alive a); [eexists; reflexivity|]. apply IH. exact Hall'.
Qed.

Lemma prey_dirs_reads ns : forall h, snd (Predator.prey_dirs ns h) = h.
Proof.
  induction ns as [|[v nb] ns IH]; intros h; simpl; [reflexivity|].
  unfold bind at 1. pose proof (any_prey_reads (n_occupants nb) h) as Hr.
  destruct (Predator.any_prey (n_occupants nb) h) as [[b|e] h1]; simpl in Hr; subst h1;
    [|reflexivity].
  unfold bind at 1. specialize (IH h).
  destruct (Predator.prey_dirs ns h) as [[rest|e] h1]; simpl in IH; subst h1; reflexivity.
Qed.

(** The search of the low-energy rule after the rule before it found no
    direction. *)
Lemma seek_after_prey_dirs (ns : list ((Z * Z) * Neighbor)) (h h' : Heap) :
  Forall (fun e => Forall (allocated h) (n_occupants (snd e))) ns ->
  Predator.prey_dirs ns h = (Ok [], h') ->
  Predator.seek ns h = (Ok None, h).
Proof.
  intros Hall. revert h'. induction Hall as [|[v nb] ns Hocc _ IH]; intros h' E;
    [reflexivity|].
  cbn [Predator.seek]. cbn [Predator.prey_dirs] in E. cbn [snd] in Hocc.
  apply bind_Ok in E as (b & h1 & E1 & E).
  pose proof (any_prey_reads (n_occupants nb) h) as Hr. rewrite E1 in Hr.
  simpl in Hr. subst h1.
  apply bind_Ok in E as (rest & h1 & E2 & E).
  pose proof (prey_dirs_reads ns h) as Hr. rewrite E2 in Hr. simpl in Hr. subst h1.
  unfold ret in E.
  assert (Hrest : (if b
                   then match Predator.direction_of v DIRECTIONS with
                        | Some d => d :: rest
                        | None => rest
                        end
                   else rest) = []) by (inversion E; reflexivity).
  clear E.
  destruct (living_prey_among_total _ _ Hocc) as (b' & Eb').
  rewrite (bind_eq _ _ _ _ _ Eb').
  assert (Hnone : (if b' then Predator.direction_of v DIRECTIONS else None) = None).
  { destruct b; [|rewrite (any_prey_false _ _ E1) in Eb'; inversion Eb'; reflexivity].
    destruct (Predator.direction_of v DIRECTIONS); [discriminate|].
    destruct b'; reflexivity. }
  rewrite Hnone.
  apply (IH h). rewrite E2. f_equal. f_equal.
  destruct b; [destruct (Predator.direction_of v DIRECTIONS)|]; congruence.
Qed.

(** X4: the low-energy rule of [Predator.action] never selects a move.  It
    is reached only when the rule before it found no direction holding a
    prey, and then its own search, over the same neighbourhood, ends without
    a result: a hungry predator decides as a sated one does. *)
Theorem predator_low_energy_rule_never_fires (ns : list ((Z * Z) * Neighbor)) (h h' : Heap) :
  Forall (fun e => Forall (allocated h) (n_occupants (snd e))) ns ->
  Predator.prey_dirs ns h = (Ok [], h') ->
  Predator.seek ns h = (Ok None, h).
Proof. apply seek_after_prey_dirs. Qed.

Lemma predator_low_energy_rule_never_fires_witness :
  Predator.seek [((1, 1)%Z, mkNeighbor 0 soil 1 [1%nat])] (hunting_heap 50 30)
  = (Ok None, hunting_heap 50 30).
Proof.
  apply (predator_low_energy_rule_never_fires
           [((1, 1)%Z, mkNeighbor 0 soil 1 [1%nat])] (hunting_heap 50 30)
           (hunting_heap 50 30)).
  - repeat constructor. simpl. eexists. reflexivity.
  - reflexivity.
Defined.

(** ** Cell: adding, removing, clearing *)

Lemma list_remove_first_snoc x l :
  ~ In x l -> Cell.list_remove_first x (l ++ [x]) = l.
Proof.
  induction l as [|y l IH]; simpl; intros H.
  - rewrite Nat.eqb_refl. reflexivity.
  - destruct (Nat.eqb_spec x y); [subst; tauto|]. f_equal. apply IH. tauto.
Qed.

(** X5: [remove_animal] undoes [add_animal].  Adding an animal to a cell
    that has room and does not hold it, then removing it, returns the list
    of occupants, and every cell, to what it was; of the animals only the
    one added has changed, and only in that it now has no position, whatever
    position it had before. *)
Theorem remove_undoes_add (self animal : nat) (h : Heap) (c : Cell) (a : Animal) :
  cell_objs h !! self = Some c -> animal_objs h !! animal = Some a ->
  (Cell.occupant_count c < 2)%nat -> ~ In animal (occupants c) ->
  (Cell.add_animal self animal ;;; Cell.remove_animal self animal) h
  = (Ok tt,
     mkHeap (cell_objs h) (<[animal := with_position None a]> (animal_objs h))
       (grid_objs h) (rng_index h) (rng_unit h) (rng_pos h)).
Proof.
  intros Hc Ha Hroom Hnot.
  assert (Hclt : (self < length (cell_objs h))%nat) by (eapply lookup_lt_Some; eauto).
  assert (Halt : (animal < length (animal_objs h))%nat) by (eapply lookup_lt_Some; eauto).
  unfold bind at 1. rewrite (add_animal_eq _ _ _ _ _ Hc Ha).
  replace (Cell.can_add_animal c) with true by (symmetry; apply Nat.ltb_lt; exact Hroom).
  erewrite remove_animal_eq.
  2:{ simpl. apply list_lookup_insert_eq. exact Hclt. }
  2:{ simpl. apply list_lookup_insert_eq. exact Halt. }
  replace (Cell.is_occupant animal (with_occupants (occupants c ++ [animal]) c))
    with true.
  2:{ symmetry. apply is_occupant_In. simpl. apply in_or_app. right. left. reflexivity. }
  unfold set_animals, set_cells. simpl.
  rewrite !list_insert_insert_eq, list_remove_first_snoc by exact Hnot.
  f_equal. f_equal. apply list_insert_id. rewrite Hc. f_equal.
  destruct c; reflexivity.
Qed.

Lemma remove_undoes_add_witness :
  (Cell.add_animal 1 0 ;;; Cell.remove_animal 1 0) (prey_alone_heap 50)
  = (Ok tt,
     mkHeap (cell_objs (prey_alone_heap 50))
       [with_position None (with_energy 50 (Prey_init (Some 0%nat)))]
       (grid_objs (prey_alone_heap 50)) (fun _ => 0%nat) (fun _ => 0) 0).
Proof.
  refine (remove_undoes_add 1 0 (prey_alone_heap 50) (mkCell soil 1 [] (Some 0%nat)) _
            eq_refl eq_refl _ _).
  - unfold Cell.occupant_count. simpl. lia.
  - simpl. tauto.
Defined.

Lemma clear_positions_spec l : forall h,
  Forall (allocated h) l ->
  exists h',
    Cell.clear_positions l h = (Ok tt, h')
    /\ cell_objs h' = cell_objs h /\ grid_objs h' = grid_objs h
    /\ rng_index h' = rng_index h /\ rng_unit h' = rng_unit h
    /\ rng_pos h' = rng_pos h
    /\ length (animal_objs h') = length (animal_objs h)
    /\ forall x,
         animal_objs h' !! x
         = if existsb (Nat.eqb x) l
           then with_position None <$> animal_objs h !! x
           else animal_objs h !! x.
Proof.
  induction l as [|y l IH]; intros h Hall.
  - exists h. simpl. repeat split; reflexivity.
  - inversion Hall as [|? ? [a Ha] Hall']; subst.
    cbn [Cell.clear_positions].
    rewrite (bind_eq _ _ _ _ _ (update_animal_eq _ _ _ _ Ha)).
    set (h1 := set_animals (fun l0 => <[y := with_position None a]> l0) h).
    assert (Hylt : (y < length (animal_objs h))%nat) by (eapply lookup_lt_Some; eauto).
    assert (Hall1 : Forall (allocated h1) l).
    { eapply Forall_impl; [exact Hall'|]. intros z [b Hb]. unfold allocated. simpl.
      apply lookup_lt_is_Some. rewrite length_insert.
      eapply lookup_lt_Some; eauto. }
    destruct (IH h1 Hall1) as (h' & E & Hc & Hg & Hi & Hu & Hp & Hlen & Hx).
    exists h'. split; [exact E|]. repeat (split; [assumption|]).
    split; [rewrite Hlen; simpl; apply length_insert|].
    intros x. rewrite Hx. simpl.
    destruct (Nat.eqb_spec x y) as [->|Hne].
    + rewrite list_lookup_insert_eq by exact Hylt. rewrite Ha. simpl.
      destruct (existsb (Nat.eqb y) l); reflexivity.
    + rewrite list_lookup_insert_ne by congruence. reflexivity.
Qed.

(** X6: [clear_occupants] evicts everyone.  Afterwards the cell has no
    occupant, each of its former occupants has no position, no other animal
    and no other cell has changed, and the cell keeps its terrain and its
    grass. *)
Theorem clear_occupants_evicts_all (self : nat) (h : Heap) (c : Cell) :
  cell_objs h !! self = Some c ->
  Forall (allocated h) (occupants c) ->
  exists h',
    Cell.clear_occupants self h = (Ok tt, h')
    /\ cell_objs h' = <[self := with_occupants [] c]> (cell_objs h)
    /\ (forall x a, In x (occupants c) -> animal_objs h !! x = Some a ->
          animal_objs h' !! x = Some (with_position None a))
    /\ (forall x, ~ In x (occupants c) -> animal_objs h' !! x = animal_objs h !! x)
    /\ grid_objs h' = grid_objs h.
Proof.
  intros Hc Hall. unfold Cell.clear_occupants.
  rewrite (bind_eq _ _ _ _ _ (get_cell_eq _ _ _ Hc)).
  destruct (clear_positions_spec _ _ Hall) as (h1 & E & Hcells & Hg & _ & _ & _ & _ & Hx).
  rewrite (bind_eq _ _ _ _ _ E).
  assert (Hc1 : cell_objs h1 !! self = Some c) by (rewrite Hcells; exact Hc).
  rewrite (update_cell_eq _ _ _ _ Hc1).
  eexists. split; [reflexivity|]. simpl. split; [rewrite Hcells; reflexivity|].
  split; [|split; [|exact Hg]].
  - intros x a Hin Ha. rewrite Hx, Ha.
    replace (existsb (Nat.eqb x) (occupants c)) with true; [reflexivity|].
    symmetry. apply existsb_exists. exists x. split; [exact Hin|apply Nat.eqb_refl].
  - intros x Hnot. rewrite Hx.
    replace (existsb (Nat.eqb x) (occupants c)) with false; [reflexivity|].
    symmetry. apply not_true_is_false. intros Hex.
    apply existsb_exists in Hex as (y & Hy & Exy). apply Nat.eqb_eq in Exy.
    subst. tauto.
Qed.

Lemma clear_occupants_evicts_all_witness :
  exists h',
    Cell.clear_occupants 0 (hunting_heap 50 30) = (Ok tt, h')
    /\ cell_objs h' = [mkCell soil 1 [] (Some 0%nat)].
Proof.
  destruct (clear_occupants_evicts_all 0 (hunting_heap 50 30)
              (mkCell soil 1 [0%nat; 1%nat] (Some 0%nat)) eq_refl)
    as (h' & E & Hc & _).
  - repeat constructor; simpl; eexists; reflexivity.
  - exists h'. split; [exact E|exact Hc].
Defined.

(** ** Prey: eating *)

(** X7: [Prey.eat].  Without a position, or on a cell that is rock or has
    no grass, it returns 0 and changes nothing.  Otherwise it takes
    [min(grass, eat_amount)] from the cell, returns that amount times
    [eat_efficiency], and sets the energy to the former energy plus the
    gain, capped at [max_energy]; nothing else changes.  It does not look at
    [alive]: a dead prey that still has a position eats as a living one. *)
Theorem prey_eat_contract (self : nat) (h : Heap) (a : Animal) (eat_amount : Q) :
  animal_objs h !! self = Some a -> class a = IsPrey eat_amount ->
  (position a = None -> Prey.eat self h = (Ok 0, h))
  /\ (forall p pc, position a = Some p -> cell_objs h !! p = Some pc ->
        (terrain_type pc = rock \/ grass_amount pc <= 0 ->
         Prey.eat self h = (Ok 0, h))
        /\ (terrain_type pc = soil /\ 0 < grass_amount pc ->
            exists consumed e',
              consumed = py_min (grass_amount pc) eat_amount
              /\ e' = py_min (energy a + consumed * eat_efficiency a) (max_energy a)
              /\ e' <= max_energy a
              /\ Prey.eat self h
                 = (Ok (consumed * eat_efficiency a),
                    mkHeap
                      (<[p := with_grass (grass_amount pc - consumed) pc]> (cell_objs h))
                      (<[self := with_energy e' a]> (animal_objs h))
                      (grid_objs h) (rng_index h) (rng_unit h) (rng_pos h)))).
Proof.
  intros Ha Hclass. split.
  - intros Hp. unfold Prey.eat.
    rewrite (bind_eq _ _ _ _ _ (get_animal_eq _ _ _ Ha)), Hp. reflexivity.
  - intros p pc Hp Hpc.
    assert (Heq : Prey.eat self h =
              (if negb (Cell.has_grass pc) then ret 0
               else consumed <- Cell.consume_grass p eat_amount ;;
                    update_animal self
                      (fun x => with_energy
                                  (py_min (energy x + consumed * eat_efficiency a)
                                     (max_energy x)) x) ;;;
                    ret (consumed * eat_efficiency a)) h).
    { unfold Prey.eat.
      rewrite (bind_eq _ _ _ _ _ (get_animal_eq _ _ _ Ha)), Hp, Hclass.
      rewrite (bind_eq _ _ _ _ _ (get_cell_eq _ _ _ Hpc)). reflexivity. }
    rewrite Heq. split.
    + intros Hg. apply has_grass_false in Hg. rewrite Hg. reflexivity.
    + intros Hg. apply has_grass_true in Hg. rewrite Hg. cbn [negb].
      eexists _, _. split; [reflexivity|]. split; [reflexivity|]. split.
      * rewrite py_min_Qmin. apply Q.le_min_r.
      * unfold bind at 1. rewrite (consume_grass_eq _ _ _ _ Hpc), Hg.
        erewrite bind_eq by (apply update_animal_eq; simpl; exact Ha).
        reflexivity.
Qed.

Lemma prey_eat_contract_witness :
  exists consumed e',
    consumed = py_min 1 15
    /\ e' = py_min (50 + consumed * (7 # 10)) 80
    /\ e' <= 80
    /\ Prey.eat 0 (prey_alone_heap 50)
       = (Ok (consumed * (7 # 10)),
          mkHeap
            (<[0%nat := with_grass (1 - consumed) (mkCell soil 1 [0%nat] (Some 0%nat))]>
               (cell_objs (prey_alone_heap 50)))
            (<[0%nat := with_energy e' (with_energy 50 (Prey_init (Some 0%nat)))]>
               (animal_objs (prey_alone_heap 50)))
            (grid_objs (prey_alone_heap 50)) (fun _ => 0%nat) (fun _ => 0) 0).
Proof.
  refine (proj2 (proj2 (prey_eat_contract 0 (prey_alone_heap 50) _ 15 eq_refl eq_refl)
                   0%nat (mkCell soil 1 [0%nat] (Some 0%nat)) eq_refl eq_refl) _).
  split; [reflexivity|]. vm_compute. reflexivity.
Defined.

(** ** Dispatch of [eat] *)

(** X8: [Ecosystem.transform] on a predator's [EAT] that carries no prey
    (no argument, or an animal that is not a prey) calls [eat] without its
    argument: it raises [TypeError], and nothing has changed. *)
Theorem transform_predator_eat_needs_a_prey
    (eco : Ecosystem.t) (self : nat) (target : option nat) (h : Heap) (a : Animal) :
  animal_objs h !! self = Some a -> is_Predator a = true ->
  (target = None
   \/ exists t q, target = Some t /\ animal_objs h !! t = Some q /\ is_Prey q = false) ->
  Ecosystem.transform eco self (EAT target) h = (Raise TypeError, h).
Proof.
  intros Ha Hpred Ht. unfold Ecosystem.transform.
  rewrite (bind_eq _ _ _ _ _ (get_animal_eq _ _ _ Ha)), Hpred.
  assert (Hd : dispatch_eat self h = (Raise TypeError, h)).
  { unfold dispatch_eat. rewrite (bind_eq _ _ _ _ _ (get_animal_eq _ _ _ Ha)).
    unfold is_Predator in Hpred. destruct (class a); [discriminate|reflexivity]. }
  destruct Ht as [->|(t & q & -> & Hq & Hnot)].
  - unfold bind. rewrite Hd. reflexivity.
  - rewrite (bind_eq _ _ _ _ _ (get_animal_eq _ _ _ Hq)), Hnot.
    unfold bind. rewrite Hd. reflexivity.
Qed.

Lemma transform_predator_eat_needs_a_prey_witness :
  Ecosystem.transform (Ecosystem.mk 0 1 (1 # 10)) 0 (EAT None) (hunting_heap 50 30)
  = (Raise TypeError, hunting_heap 50 30).
Proof.
  apply (transform_predator_eat_needs_a_prey (Ecosystem.mk 0 1 (1 # 10)) 0 None
           (hunting_heap 50 30) _ eq_refl eq_refl).
  left. reflexivity.
Defined.

(** X9: [Animal.step] cannot carry out a predator's attack.  For a living
    predator with energy left whose cell holds a living prey, the decision
    is [EAT], which [step] dispatches to [eat] without the prey: the step
    raises [TypeError], and nothing has changed. *)
Theorem step_cannot_attack
    (self : nat) (pc : Percept) (h : Heap) (a : Animal) (cell : Cell)
    (l1 l2 : list nat) (x : nat) :
  animal_objs h !! self = Some a -> is_Predator a = true ->
  alive a = true -> 0 < energy a ->
  cell_objs h !! current_cell pc = Some cell ->
  occupants cell = l1 ++ x :: l2 ->
  Forall (fun y => allocated h y /\ ~ living_prey h y) l1 ->
  living_prey h x ->
  Animal_step self (Some pc) h = (Raise TypeError, h).
Proof.
  intros Ha Hpred Halive He Hc Hocc Hl1 Hx.
  assert (Hact : dispatch_action self (Some pc) h = (Ok (EAT (Some x)), h)).
  { unfold dispatch_action. rewrite (bind_eq _ _ _ _ _ (get_animal_eq _ _ _ Ha)).
    unfold is_Predator in Hpred. destruct (class a); [discriminate|].
    unfold Predator.action.
    unfold bind at 1. rewrite (bind_eq _ _ _ _ _ (get_cell_eq _ _ _ Hc)).
    unfold Cell.get_occupants. rewrite Hocc, (hunt_here_first _ _ _ _ Hl1 Hx).
    reflexivity. }
  unfold Animal_step. rewrite (bind_eq _ _ _ _ _ Hact).
  rewrite (bind_eq _ _ _ _ _ (get_animal_eq _ _ _ Ha)), Halive. cbn [negb].
  apply Qle_bool_false in He. rewrite He.
  unfold bind at 1. unfold bind at 1.
  replace (dispatch_eat self h) with (@raise Q TypeError h); [reflexivity|].
  unfold dispatch_eat. rewrite (bind_eq _ _ _ _ _ (get_animal_eq _ _ _ Ha)).
  unfold is_Predator in Hpred. destruct (class a); [discriminate|reflexivity].
Qed.

Lemma step_cannot_attack_witness :
  Animal_step 0 (Some (mkPercept 0 [] 50)) (hunting_heap 50 30)
  = (Raise TypeError, hunting_heap 50 30).
Proof.
  apply (step_cannot_attack 0 (mkPercept 0 [] 50) (hunting_heap 50 30) _
           (mkCell soil 1 [0%nat; 1%nat] (Some 0%nat)) [0%nat] [] 1%nat
           eq_refl eq_refl eq_refl).
  - reflexivity.
  - reflexivity.
  - reflexivity.
  - constructor; [|constructor]. split.
    + eexists. reflexivity.
    + intros (b & Hb & Hp & _). simpl in Hb. inversion Hb; subst. discriminate Hp.
  - eexists. split; [reflexivity|]. split; reflexivity.
Defined.

(** ** [Animal.step]: the end of an exhausted animal *)

(** X10: [Animal.step] on a living animal whose energy is not positive,
    when its decision returns: the animal is marked dead, taken out of the
    occupants of its cell and left without a position, and the step returns
    [(False, [])]; no other cell or animal changes.  On an animal that is
    already dead the step returns [(False, [])] and changes nothing.  In
    both cases the decision is computed first, and may have read the random
    source. *)
Theorem step_detaches_the_exhausted
    (self : nat) (perception : Perception) (h h1 : Heap) (a : Animal) (act : Action) :
  animal_objs h !! self = Some a ->
  dispatch_action self perception h = (Ok act, h1) ->
  (alive a = false -> Animal_step self perception h = (Ok (false, []), h1))
  /\ (alive a = true -> energy a <= 0 ->
      forall p pc, position a = Some p -> cell_objs h !! p = Some pc ->
        In self (occupants pc) ->
        Animal_step self perception h
        = (Ok (false, []),
           mkHeap
             (<[p := with_occupants (Cell.list_remove_first self (occupants pc)) pc]>
                (cell_objs h))
             (<[self := with_position None (with_alive false a)]> (animal_objs h))
             (grid_objs h) (rng_index h) (rng_unit h) (rng_pos h1))).
Proof.
  intros Ha Hact.
  pose proof (pure_dispatch_action h self perception h (same_objects_refl h)) as Hs.
  rewrite Hact in Hs. destruct Hs as (Hcells & Hanimals & Hgrids & Hri & Hru & _).
  simpl in Hcells, Hanimals, Hgrids, Hri, Hru.
  assert (Ha1 : animal_objs h1 !! self = Some a) by (rewrite Hanimals; exact Ha).
  split.
  - intros Hdead. unfold Animal_step. rewrite (bind_eq _ _ _ _ _ Hact).
    rewrite (bind_eq _ _ _ _ _ (get_animal_eq _ _ _ Ha1)), Hdead. reflexivity.
  - intros Halive He p pc Hp Hpc Hin.
    unfold Animal_step. rewrite (bind_eq _ _ _ _ _ Hact).
    rewrite (bind_eq _ _ _ _ _ (get_animal_eq _ _ _ Ha1)), Halive. cbn [negb].
    apply Qle_bool_iff in He. rewrite He.
    rewrite (bind_eq _ _ _ _ _ (update_animal_eq _ _ _ _ Ha1)), Hp.
    assert (Hslt : (self < length (animal_objs h1))%nat)
      by (eapply lookup_lt_Some; eauto).
    erewrite bind_eq.
    2:{ eapply remove_animal_eq; simpl.
        - rewrite Hcells. exact Hpc.
        - apply list_lookup_insert_eq. exact Hslt. }
    apply is_occupant_In in Hin. rewrite Hin.
    unfold ret, set_animals, set_cells. simpl.
    rewrite list_insert_insert_eq, Hcells, Hanimals, Hgrids, Hri, Hru. reflexivity.
Qed.

Lemma step_detaches_the_exhausted_witness :
  exists perception h',
    Animal.see 0 0 (prey_alone_heap 0) = (Ok perception, prey_alone_heap 0)
    /\ Animal_step 0 perception (prey_alone_heap 0) = (Ok (false, []), h')
    /\ animal_objs h' = [with_position None
                          (with_alive false (with_energy 0 (Prey_init (Some 0%nat))))]
    /\ cell_objs h' !! 0%nat = Some (mkCell soil 1 [] (Some 0%nat)).
Proof.
  eexists _, _. split; [reflexivity|].
  assert (Hact : dispatch_action 0
                   (match fst (Animal.see 0 0 (prey_alone_heap 0)) with
                    | Ok p => p
                    | Raise _ => None
                    end)
                   (prey_alone_heap 0)
                 = (Ok (MOVE DOWN), set_rng_pos S (prey_alone_heap 0)))
    by reflexivity.
  pose proof (proj2 (step_detaches_the_exhausted 0 _ (prey_alone_heap 0) _ _ _
                       eq_refl Hact) eq_refl) as H.
  split.
  - refine (H _ 0%nat (mkCell soil 1 [0%nat] (Some 0%nat)) eq_refl eq_refl _).
    + vm_compute. discriminate.
    + simpl. auto.
  - split; reflexivity.
Defined.

(** ** Properties of the store that the whole engine keeps *)

(** A property of the store that the writes of the engine keep, one by
    one, is kept by every method built from them, by a tick and by a run. *)
Section EngineInvariant.
Variable P : Heap -> Prop.
Variable ok_amount : Q -> Prop.
Hypothesis P_rng : forall f h, P h -> P (set_rng_pos f h).
Hypothesis P_update_animal :
  forall a f, keeps_identity f -> preserves P (update_animal a f).
Hypothesis P_new_animal : forall c p, preserves P (new_animal (class_init c p)).
Hypothesis P_add : forall c a, preserves P (Cell.add_animal c a).
Hypothesis P_remove : forall c a, preserves P (Cell.remove_animal c a).
Hypothesis P_consume : forall c amount, preserves P (Cell.consume_grass c amount).
Hypothesis P_regenerate :
  forall c amount, ok_amount amount -> preserves P (Cell.regenerate_grass c amount).

Lemma kept_random_choice {A} (l : list A) : preserves P (random_choice l).
Proof.
  intros h H. unfold random_choice. destruct (l !! _); simpl; [|exact H].
  apply P_rng. exact H.
Qed.

Lemma keeps_identity_position p : keeps_identity (with_position p).
Proof. intros x. simpl. repeat split; auto. Qed.

Lemma keeps_identity_dead : keeps_identity (with_alive false).
Proof. intros x. simpl. repeat split; auto. discriminate. Qed.

Lemma keeps_identity_energy (e : Animal -> Q) :
  keeps_identity (fun x => with_energy (e x) x).
Proof. intros x. simpl. repeat split; auto. Qed.

Lemma keeps_identity_energy_const e : keeps_identity (with_energy e).
Proof. intros x. simpl. repeat split; auto. Qed.

Hint Resolve kept_random_choice P_new_animal P_add P_remove P_consume : pres.
Hint Extern 1 (preserves P (update_animal _ _)) =>
  apply P_update_animal;
  first [ apply keeps_identity_position | apply keeps_identity_dead
        | apply keeps_identity_energy_const | apply keeps_identity_energy ] : pres.

Lemma kept_see_neighbors g row col l : preserves P (Animal.see_neighbors g row col l).
Proof. induction l as [|[dr dc] l IH]; simpl; pres. Qed.

Hint Resolve kept_see_neighbors : pres.

Lemma kept_see self grid : preserves P (Animal.see self grid).
Proof. unfold Animal.see. pres. Qed.

Lemma kept_move self d : preserves P (Animal.move self d).
Proof. unfold Animal.move. pres. Qed.

Lemma kept_reproduce self : preserves P (Animal.reproduce self).
Proof. unfold Animal.reproduce. pres. Qed.

Lemma kept_prey_eat self : preserves P (Prey.eat self).
Proof. unfold Prey.eat. pres. Qed.

Lemma kept_predator_eat self prey : preserves P (Predator.eat self prey).
Proof. unfold Predator.eat. pres. Qed.

Hint Resolve kept_see kept_move kept_reproduce kept_prey_eat kept_predator_eat : pres.

Lemma kept_safe_dirs ns dirs : preserves P (Prey.safe_dirs ns dirs).
Proof. induction dirs as [|[d v] dirs IH]; simpl; pres. Qed.

Hint Resolve kept_safe_dirs : pres.

Lemma kept_escape ns occ : preserves P (Prey.escape ns occ).
Proof. induction occ as [|o occ IH]; simpl; pres. Qed.

Lemma kept_grass_dirs ns : preserves P (Prey.grass_dirs ns).
Proof. induction ns as [|[v n] ns IH]; simpl; pres. Qed.

Hint Resolve kept_escape kept_grass_dirs : pres.

Lemma kept_prey_action self perception : preserves P (Prey.action self perception).
Proof. unfold Prey.action. pres. Qed.

Lemma kept_hunt_here occ : preserves P (Predator.hunt_here occ).
Proof. induction occ as [|o occ IH]; simpl; pres. Qed.

Lemma kept_any_prey occ : preserves P (Predator.any_prey occ).
Proof. induction occ as [|o occ IH]; simpl; pres. Qed.

Lemma kept_living_prey_among occ : preserves P (Predator.living_prey_among occ).
Proof. induction occ as [|o occ IH]; simpl; pres. Qed.

Hint Resolve kept_hunt_here kept_any_prey kept_living_prey_among : pres.

Lemma kept_prey_dirs ns : preserves P (Predator.prey_dirs ns).
Proof. induction ns as [|[v n] ns IH]; simpl; pres. Qed.

Lemma kept_seek ns : preserves P (Predator.seek ns).
Proof. induction ns as [|[v n] ns IH]; simpl; pres. Qed.

Hint Resolve kept_prey_dirs kept_seek : pres.

Lemma kept_predator_action self perception :
  preserves P (Predator.action self perception).
Proof. unfold Predator.action. pres. Qed.

Hint Resolve kept_prey_action kept_predator_action : pres.

Lemma kept_dispatch_action animal perception :
  preserves P (dispatch_action animal perception).
Proof. unfold dispatch_action. pres. Qed.

Lemma kept_dispatch_eat animal : preserves P (dispatch_eat animal).
Proof. unfold dispatch_eat. pres. Qed.

Lemma kept_last_occupant animal : preserves P (last_occupant animal).
Proof. unfold last_occupant. pres. Qed.

Hint Resolve kept_dispatch_action kept_dispatch_eat kept_last_occupant : pres.

Lemma kept_step self perception : preserves P (Animal_step self perception).
Proof. unfold Animal_step. pres. Qed.

Lemma kept_transform eco animal act : preserves P (Ecosystem.transform eco animal act).
Proof. unfold Ecosystem.transform. pres. Qed.

Lemma kept_regenerate_row rate row :
  ok_amount rate -> preserves P (Ecosystem.regenerate_row rate row).
Proof.
  intros Hok. induction row as [|c row IH]; simpl; pres.
Qed.

Lemma kept_regenerate_rows rate g :
  ok_amount rate -> preserves P (Ecosystem.regenerate_rows rate g).
Proof.
  intros Hok. induction g as [|row g IH]; simpl; pres;
    apply kept_regenerate_row; exact Hok.
Qed.

Lemma kept_ecosystem_regenerate eco :
  ok_amount (Ecosystem.grass_regrowth_rate eco) ->
  preserves P (Ecosystem.regenerate_grass eco).
Proof.
  intros Hok. unfold Ecosystem.regenerate_grass. pres;
    apply kept_regenerate_rows; exact Hok.
Qed.

Hint Resolve kept_transform kept_step : pres.

Lemma kept_decide grid l : preserves P (Simulation.decide grid l).
Proof. induction l as [|x l IH]; simpl; pres. Qed.

Lemma kept_execute eco of_class actions :
  preserves P (Simulation.execute eco of_class actions).
Proof. induction actions as [|[x act] actions IH]; simpl; pres. Qed.

Lemma kept_survivors dead l : preserves P (Simulation.survivors dead l).
Proof. induction l as [|x l IH]; simpl; pres. Qed.

Hint Resolve kept_decide kept_execute kept_survivors : pres.

Lemma kept_next_step s :
  ok_amount (Ecosystem.grass_regrowth_rate (Simulation.ecosystem s)) ->
  preserves P (Simulation.next_step s).
Proof.
  intros Hok. unfold Simulation.next_step. pres;
    apply kept_ecosystem_regenerate; exact Hok.
Qed.

Lemma next_step_ecosystem s h b s' h' :
  Simulation.next_step s h = (Ok (b, s'), h') ->
  Simulation.ecosystem s' = Simulation.ecosystem s.
Proof.
  unfold Simulation.next_step.
  destruct (Simulation.max_steps s <=? Simulation.current_step s)%Z.
  - unfold ret. intros E. inversion E. reflexivity.
  - intros E.
    apply bind_Ok in E as (? & ? & _ & E). apply bind_Ok in E as (? & ? & _ & E).
    apply bind_Ok in E as (? & ? & _ & E). apply bind_Ok in E as (? & ? & _ & E).
    apply bind_Ok in E as (? & ? & _ & E).
    unfold ret in E. inversion E. reflexivity.
Qed.

Lemma kept_run_loop n : forall s,
  ok_amount (Ecosystem.grass_regrowth_rate (Simulation.ecosystem s)) ->
  preserves P (Simulation.run_loop n s).
Proof.
  induction n as [|n IH]; intros s Hok; simpl; [apply preserves_ret|].
  intros h H. unfold bind at 1.
  pose proof (kept_next_step s Hok h H) as H1.
  destruct (Simulation.next_step s h) as [[[b s1]|e] h1] eqn:E1; simpl in H1;
    [|exact H1].
  simpl. destruct b; [|exact H1].
  assert (Hok1 : ok_amount (Ecosystem.grass_regrowth_rate (Simulation.ecosystem s1)))
    by (rewrite (next_step_ecosystem _ _ _ _ _ E1); exact Hok).
  pose proof (IH s1 Hok1 h1 H1) as H2. unfold bind.
  destruct (Simulation.run_loop n s1 h1) as [[x|e] h2]; exact H2.
Qed.

Lemma run_loop_ecosystem n : forall s h s' k h',
  Simulation.run_loop n s h = (Ok (s', k), h') ->
  Simulation.ecosystem s' = Simulation.ecosystem s.
Proof.
  induction n as [|n IH]; intros s h s' k h'; simpl.
  - unfold ret. intros E. inversion E. reflexivity.
  - intros E. apply bind_Ok in E as ([b s1] & h1 & E1 & E). simpl in E.
    pose proof (next_step_ecosystem _ _ _ _ _ E1) as He.
    destruct b.
    + apply bind_Ok in E as ([s2 k2] & h2 & E2 & E). unfold ret in E.
      inversion E; subst. simpl. rewrite (IH _ _ _ _ _ E2). exact He.
    + unfold ret in E. inversion E; subst. exact He.
Qed.

Lemma kept_apply_op op s h :
  op_amounts ok_amount op ->
  ok_amount (Ecosystem.grass_regrowth_rate (Simulation.ecosystem s)) ->
  (forall c, preserves P (Cell.clear_occupants c)) ->
  P h ->
  P (snd (apply_op op (s, h)))
  /\ Simulation.ecosystem (fst (apply_op op (s, h))) = Simulation.ecosystem s.
Proof.
  intros Hop Hok Hclear H. destruct op; simpl;
    try (split; [|reflexivity];
         match goal with
         | |- P (snd (?m h)) => refine ((_ : preserves P m) h H); auto with pres
         end).
  - pose proof (kept_next_step s Hok h H) as Hn.
    destruct (Simulation.next_step s h) as [[[b s']|e] h'] eqn:E; simpl in *;
      [|split; [exact Hn|reflexivity]].
    split; [exact Hn|]. eapply next_step_ecosystem; eauto.
  - unfold Simulation.run.
    match goal with |- context [Simulation.run_loop ?n s h] =>
      pose proof (kept_run_loop n s Hok h H) as Hn;
      destruct (Simulation.run_loop n s h) as [[[s' k]|e] h'] eqn:E; simpl in *;
        [|split; [exact Hn|reflexivity]]
    end.
    split; [exact Hn|]. eapply run_loop_ecosystem; eauto.
Qed.

Lemma kept_apply_ops ops : forall s h,
  Forall (op_amounts ok_amount) ops ->
  ok_amount (Ecosystem.grass_regrowth_rate (Simulation.ecosystem s)) ->
  (forall c, preserves P (Cell.clear_occupants c)) ->
  P h -> P (snd (apply_ops ops (s, h))).
Proof.
  unfold apply_ops. induction ops as [|op ops IH]; intros s h Hops Hok Hclear H;
    [exact H|].
  cbn [fold_left]. inversion Hops; subst.
  destruct (kept_apply_op op s h) as [H1 He]; auto.
  destruct (apply_op op (s, h)) as [s1 h1]. simpl in *.
  apply IH; auto. rewrite He. exact Hok.
Qed.

End EngineInvariant.

(** ** Grass *)

Lemma every_cell_on_cells Q : on_cells (every_cell Q).
Proof. intros h h' E H c cell Hc. rewrite E in Hc. eapply H; eauto. Qed.

Lemma every_cell_update Q c f :
  (forall x, Q x -> Q (f x)) -> preserves (every_cell Q) (update_cell c f).
Proof.
  intros Hf h H. unfold update_cell, bind, get_cell.
  destruct (cell_objs h !! c) as [x|] eqn:Hc; simpl; [|exact H].
  intros c' cell Hc'. cbn [cell_objs set_cells snd] in Hc'.
  destruct (Nat.eq_dec c c') as [->|Hne].
  - rewrite list_lookup_insert_eq in Hc' by (eapply lookup_lt_Some; eauto).
    inversion Hc'; subst. apply Hf. eapply H; eauto.
  - rewrite list_lookup_insert_ne in Hc' by exact Hne. eapply H; eauto.
Qed.

(** A property of every cell that does not depend on the occupants nor on
    the grid the cell belongs to. *)
Section CellInvariant.
Variable Q : Cell -> Prop.
Variable ok_amount : QArith_base.Q -> Prop.
Hypothesis Q_occupants : forall l c, Q c -> Q (with_occupants l c).
Hypothesis Q_consume :
  forall c amount, Q c -> terrain_type c = soil -> 0 < grass_amount c ->
    Q (with_grass (grass_amount c - py_min (grass_amount c) amount) c).
Hypothesis Q_regenerate :
  forall c amount, ok_amount amount -> Q c -> terrain_type c = soil ->
    Q (with_grass (grass_amount c + amount) c).

Let P := every_cell Q.

Lemma cells_rng f h : P h -> P (set_rng_pos f h).
Proof. apply every_cell_on_cells. reflexivity. Qed.

Lemma cells_update_animal a f : keeps_identity f -> preserves P (update_animal a f).
Proof. intros _. apply preserves_update_animal, every_cell_on_cells. Qed.

Lemma cells_new_animal c p : preserves P (new_animal (class_init c p)).
Proof. apply preserves_new_animal, every_cell_on_cells. Qed.

Lemma cells_add c a : preserves P (Cell.add_animal c a).
Proof.
  unfold Cell.add_animal. pres.
  - apply every_cell_update. intros x. apply Q_occupants.
  - apply preserves_update_animal, every_cell_on_cells.
Qed.

Lemma cells_remove c a : preserves P (Cell.remove_animal c a).
Proof.
  unfold Cell.remove_animal. pres.
  - apply every_cell_update. intros x. apply Q_occupants.
  - apply preserves_update_animal, every_cell_on_cells.
Qed.

Lemma cells_clear_positions l : preserves P (Cell.clear_positions l).
Proof.
  induction l; simpl; pres. apply preserves_update_animal, every_cell_on_cells.
Qed.

Lemma cells_clear c : preserves P (Cell.clear_occupants c).
Proof.
  unfold Cell.clear_occupants. pres.
  - apply cells_clear_positions.
  - apply every_cell_update. intros x. apply Q_occupants.
Qed.

Lemma cells_consume c amount : preserves P (Cell.consume_grass c amount).
Proof.
  intros h H. unfold get_cell.
  destruct (cell_objs h !! c) as [x|] eqn:Hc.
  - rewrite (consume_grass_eq _ _ _ _ Hc).
    destruct (Cell.has_grass x) eqn:Hg; [|exact H].
    apply has_grass_true in Hg. destruct Hg as [Hsoil Hpos].
    intros c' cell Hc'. cbn [snd cell_objs set_cells] in Hc'.
    destruct (Nat.eq_dec c c') as [<-|Hne].
    + rewrite list_lookup_insert_eq in Hc' by (eapply lookup_lt_Some; eauto).
      inversion Hc'; subst. apply Q_consume; auto. eapply H; eauto.
    + rewrite list_lookup_insert_ne in Hc' by exact Hne. eapply H; eauto.
  - unfold Cell.consume_grass, bind, get_cell. rewrite Hc. exact H.
Qed.

Lemma cells_regenerate c amount :
  ok_amount amount -> preserves P (Cell.regenerate_grass c amount).
Proof.
  intros Hok h H. unfold Cell.regenerate_grass. unfold bind at 1, get_cell.
  destruct (cell_objs h !! c) as [x|] eqn:Hc; [|exact H].
  destruct (Cell.is_fertile x) eqn:Hf; [|exact H].
  unfold update_cell, bind, get_cell. rewrite Hc.
  intros c' cell Hc'. cbn [snd cell_objs set_cells] in Hc'.
  assert (Hsoil : terrain_type x = soil).
  { unfold Cell.is_fertile in Hf. destruct (terrain_type x); [discriminate|reflexivity]. }
  destruct (Nat.eq_dec c c') as [<-|Hne].
  - rewrite list_lookup_insert_eq in Hc' by (eapply lookup_lt_Some; eauto).
    inversion Hc'; subst. apply Q_regenerate; auto. eapply H; eauto.
  - rewrite list_lookup_insert_ne in Hc' by exact Hne. eapply H; eauto.
Qed.

Lemma cells_apply_ops ops s h :
  Forall (op_amounts ok_amount) ops ->
  ok_amount (Ecosystem.grass_regrowth_rate (Simulation.ecosystem s)) ->
  P h -> P (snd (apply_ops ops (s, h))).
Proof.
  intros Hops Hok H.
  apply (kept_apply_ops P ok_amount cells_rng cells_update_animal cells_new_animal
           cells_add cells_remove cells_consume cells_regenerate); auto.
  apply cells_clear.
Qed.

End CellInvariant.

Lemma every_cell_new_cell (Q : Cell -> Prop) x :
  Q x -> preserves (every_cell Q) (new_cell x).
Proof.
  intros Hx h H c cell Hc. simpl in Hc.
  apply lookup_snoc_Some in Hc as [[_ Hc]|[_ <-]]; [eapply H; eauto|exact Hx].
Qed.

Lemma rock_cell_init label grass :
  preserves rock_without_grass (Cell.init label grass).
Proof.
  unfold Cell.init. destruct (Cell.supported label) as [t|].
  - apply every_cell_new_cell. destruct t; simpl; [reflexivity|discriminate].
  - apply preserves_raise.
Qed.

Lemma rock_on_cells : on_cells rock_without_grass.
Proof. apply every_cell_on_cells. Qed.

Lemma rock_init_row gref density n :
  preserves rock_without_grass (Ecosystem.init_row gref density n).
Proof.
  pose proof rock_on_cells.
  induction n as [|n IH]; cbn [Ecosystem.init_row]; unfold random_uniform; pres;
    try apply rock_cell_init.
  apply every_cell_update. intros x Hx. exact Hx.
Qed.

Lemma rock_init_rows gref density width n :
  preserves rock_without_grass (Ecosystem.init_rows gref density width n).
Proof.
  pose proof rock_on_cells.
  induction n as [|n IH]; simpl; pres. apply rock_init_row.
Qed.

Lemma rock_ecosystem_init size rate density :
  preserves rock_without_grass (Ecosystem.init size rate density).
Proof.
  pose proof rock_on_cells. unfold Ecosystem.init. pres. apply rock_init_rows.
Qed.

Lemma rock_place fuel eco new :
  preserves rock_without_grass (Simulation.place fuel eco new).
Proof.
  pose proof rock_on_cells.
  induction fuel as [|fuel IH]; simpl; pres.
  apply cells_add. intros l c Hc. exact Hc.
Qed.

Lemma rock_place_all fuel eco new count :
  preserves rock_without_grass (Simulation.place_all fuel eco new count).
Proof. induction count as [|count IH]; simpl; pres. apply rock_place. Qed.

Lemma rock_simulation_init fuel size np nq ms rate density :
  preserves rock_without_grass (Simulation.init fuel size np nq ms rate density).
Proof.
  pose proof rock_on_cells. unfold Simulation.init.
  pres; [apply rock_ecosystem_init|apply rock_place_all..].
Qed.

(** X11: rock never holds grass.  A world built by [Simulation.__init__]
    (hence by [Ecosystem.__init__] and [Cell.__init__]) has no grass on its
    rock cells, whatever amount the constructor was handed and whatever the
    random draws; and no sequence of core operations, whatever its
    arguments (a regrowth on a rock cell, a negative amount), puts grass
    on a rock cell of a store that had none there. *)
Theorem rock_never_holds_grass :
  (forall fuel size np nq ms rate density h,
      rock_without_grass h ->
      rock_without_grass (snd (Simulation.init fuel size np nq ms rate density h)))
  /\ (forall ops s h,
        rock_without_grass h ->
        forall c cell,
          cell_objs (snd (apply_ops ops (s, h))) !! c = Some cell ->
          terrain_type cell = rock -> grass_amount cell = 0).
Proof.
  split.
  - intros fuel size np nq ms rate density.
    exact (rock_simulation_init fuel size np nq ms rate density).
  - intros ops s h H.
    refine (cells_apply_ops (fun c => terrain_type c = rock -> grass_amount c = 0)
              (fun _ => True) _ _ _ ops s h _ I H).
    + intros l c Hc. exact Hc.
    + intros c amount Hc Hsoil _ Hrock. simpl in Hrock. congruence.
    + intros c amount _ Hc Hsoil Hrock. simpl in Hrock. congruence.
    + clear. induction ops as [|op ops IH]; constructor; auto.
      destruct op; exact I.
Qed.

Lemma rock_never_holds_grass_witness :
  rock_without_grass (lone_cell_heap rock 0)
  /\ forall c cell,
       cell_objs
         (snd (apply_ops [op_regenerate 0 1; op_consume 0 (-1); op_next_step]
                 (empty_simulation 3, lone_cell_heap rock 0))) !! c = Some cell ->
       terrain_type cell = rock -> grass_amount cell = 0.
Proof.
  assert (H : rock_without_grass (lone_cell_heap rock 0)).
  { intros [|c] cell Hc; inversion Hc; subst. reflexivity. }
  split; [exact H|].
  apply (proj2 rock_never_holds_grass). exact H.
Defined.

(** X12: grass is never negative, as long as nothing regrows a negative
    amount.  From a store in which no cell holds a negative amount of grass,
    a sequence of core operations whose regrowth amounts (the explicit ones
    and the ecosystem's rate) are not negative leaves no cell with a
    negative amount, whatever is asked of [consume_grass].  The condition
    on the regrowth is needed: a negative amount is added as it is. *)
Theorem grass_is_never_negative :
  (forall ops s h,
      Forall (op_amounts (fun amount => 0 <= amount)) ops ->
      0 <= Ecosystem.grass_regrowth_rate (Simulation.ecosystem s) ->
      grass_not_negative h ->
      forall c cell,
        cell_objs (snd (apply_ops ops (s, h))) !! c = Some cell ->
        0 <= grass_amount cell)
  /\ (forall self amount h cell,
        cell_objs h !! self = Some cell ->
        terrain_type cell = soil ->
        amount < 0 -> grass_amount cell == 0 ->
        exists cell',
          cell_objs (snd (Cell.regenerate_grass self amount h)) !! self = Some cell'
          /\ grass_amount cell' < 0).
Proof.
  split.
  - intros ops s h Hops Hrate H.
    refine (cells_apply_ops (fun c => 0 <= grass_amount c)
              (fun amount => 0 <= amount) _ _ _ ops s h Hops Hrate H).
    + intros l c Hc. exact Hc.
    + intros c amount Hc Hsoil Hpos. simpl.
      pose proof (py_min_Qmin (grass_amount c) amount) as E.
      pose proof (Q.le_min_l (grass_amount c) amount). rewrite E. lra.
    + intros c amount Hok Hc Hsoil. simpl. lra.
  - intros self amount h cell Hc Hsoil Hneg Hzero.
    unfold Cell.regenerate_grass, bind, get_cell, update_cell, bind, get_cell.
    rewrite Hc. unfold Cell.is_fertile. rewrite Hsoil. simpl. rewrite Hc. simpl.
    eexists. split.
    + apply list_lookup_insert_eq. eapply lookup_lt_Some; eauto.
    + simpl. rewrite Hzero. lra.
Qed.

Lemma grass_is_never_negative_witness :
  (forall c cell,
      cell_objs
        (snd (apply_ops [op_consume 0 (-1); op_regenerate 0 (1 # 2); op_prey_eat 0;
                         op_next_step]
                (simulation_of 2 [0%nat], prey_alone_heap 70))) !! c = Some cell ->
      0 <= grass_amount cell)
  /\ exists cell',
       cell_objs (snd (Cell.regenerate_grass 0 (-1) (lone_cell_heap soil 0))) !! 0%nat
         = Some cell'
       /\ grass_amount cell' < 0.
Proof.
  split.
  - apply (proj1 grass_is_never_negative).
    + repeat constructor; simpl; lra.
    + simpl. lra.
    + intros [|[|[|[|c]]]] cell Hc; simpl in Hc; inversion Hc; subst; simpl; lra.
  - apply (proj2 grass_is_never_negative 0%nat (-1) (lone_cell_heap soil 0)
             (mkCell soil 0 [] None)); [reflexivity|reflexivity|lra|reflexivity].
Defined.

(** ** What the engine never changes *)

Lemma preserves_trivial {A} (m : M A) : preserves (fun _ => True) m.
Proof. intros h _. exact I. Qed.

(** The simulation keeps its ecosystem object. *)
Lemma apply_ops_ecosystem ops : forall s h,
  Simulation.ecosystem (fst (apply_ops ops (s, h))) = Simulation.ecosystem s.
Proof.
  unfold apply_ops. induction ops as [|op ops IH]; intros s h; [reflexivity|].
  cbn [fold_left].
  destruct (kept_apply_op (fun _ => True) (fun _ => True)) with (op := op) (s := s) (h := h)
    as [_ He]; auto using preserves_trivial.
  { destruct op; exact I. }
  destruct (apply_op op (s, h)) as [s1 h1]. rewrite IH. exact He.
Qed.

Section WorldFixed.
Variable h0 : Heap.

Lemma world_fixed_refl : world_fixed h0 h0.
Proof. repeat split. intros c cell0 Hc. exists cell0. auto. Qed.

Lemma world_fixed_same h h' :
  cell_objs h' = cell_objs h -> grid_objs h' = grid_objs h ->
  world_fixed h0 h -> world_fixed h0 h'.
Proof. intros Ec Eg (Hg & Hl & Hc). unfold world_fixed. rewrite Ec, Eg. auto. Qed.

Lemma world_rng f h : world_fixed h0 h -> world_fixed h0 (set_rng_pos f h).
Proof. apply world_fixed_same; reflexivity. Qed.

Lemma world_update_animal a f : preserves (world_fixed h0) (update_animal a f).
Proof.
  intros h H. unfold update_animal, bind, get_animal.
  destruct (animal_objs h !! a); [|exact H].
  revert H. apply world_fixed_same; reflexivity.
Qed.

Lemma world_new_animal x : preserves (world_fixed h0) (new_animal x).
Proof. intros h. apply world_fixed_same; reflexivity. Qed.

Lemma world_update_cell c f :
  (forall x, terrain_type (f x) = terrain_type x
             /\ map_reference (f x) = map_reference x) ->
  preserves (world_fixed h0) (update_cell c f).
Proof.
  intros Hf h (Hg & Hl & Hc). unfold update_cell, bind, get_cell.
  destruct (cell_objs h !! c) as [x|] eqn:Hx; [|repeat split; auto].
  cbn [snd]. split; [exact Hg|]. cbn [cell_objs set_cells].
  split; [rewrite length_insert; exact Hl|].
  intros c' cell0 Hc0. destruct (Hc _ _ Hc0) as (cell & Hcell & Ht & Hm).
  destruct (Nat.eq_dec c c') as [<-|Hne].
  - exists (f x). rewrite list_lookup_insert_eq by (eapply lookup_lt_Some; eauto).
    assert (cell = x) by congruence. subst cell.
    destruct (Hf x) as [-> ->]. auto.
  - exists cell. rewrite list_lookup_insert_ne by exact Hne. auto.
Qed.

#[local] Hint Resolve world_update_animal world_new_animal : pres.
#[local] Hint Extern 1 (preserves (world_fixed _) (update_cell _ _)) =>
  apply world_update_cell; intros ?; split; reflexivity : pres.

Lemma world_add c a : preserves (world_fixed h0) (Cell.add_animal c a).
Proof. unfold Cell.add_animal. pres. Qed.

Lemma world_remove c a : preserves (world_fixed h0) (Cell.remove_animal c a).
Proof. unfold Cell.remove_animal. pres. Qed.

Lemma world_clear_positions l : preserves (world_fixed h0) (Cell.clear_positions l).
Proof. induction l; simpl; pres. Qed.

Lemma world_clear c : preserves (world_fixed h0) (Cell.clear_occupants c).
Proof. unfold Cell.clear_occupants. pres. apply world_clear_positions. Qed.

Lemma world_consume c amount : preserves (world_fixed h0) (Cell.consume_grass c amount).
Proof. unfold Cell.consume_grass. pres. Qed.

Lemma world_regenerate c amount :
  preserves (world_fixed h0) (Cell.regenerate_grass c amount).
Proof. unfold Cell.regenerate_grass. pres. Qed.

Lemma world_apply_ops ops s h :
  world_fixed h0 h -> world_fixed h0 (snd (apply_ops ops (s, h))).
Proof.
  intros H.
  refine (kept_apply_ops (world_fixed h0) (fun _ => True) world_rng _
            (fun c p => world_new_animal _) world_add world_remove world_consume _
            ops s h _ I world_clear H).
  - intros a f _. apply world_update_animal.
  - intros c amount _. apply world_regenerate.
  - clear. induction ops as [|op ops IH]; constructor; auto. destruct op; exact I.
Qed.

End WorldFixed.

Section AnimalsPersist.
Variable h0 : Heap.

Lemma later_state_refl x : later_state x x.
Proof. repeat split; auto. Qed.

Lemma later_state_trans x y z : later_state x y -> later_state y z -> later_state x z.
Proof.
  unfold later_state. intros (?&?&?&?&?&?&?) (?&?&?&?&?&?&?).
  repeat split; try congruence. auto.
Qed.

Lemma animals_persist_refl : animals_persist h0 h0.
Proof. intros a x0 Ha. exists x0. split; [exact Ha|apply later_state_refl]. Qed.

Lemma animals_persist_same h h' :
  animal_objs h' = animal_objs h -> animals_persist h0 h -> animals_persist h0 h'.
Proof. intros E H a x0 Ha. rewrite E. auto. Qed.

Lemma persist_rng f h : animals_persist h0 h -> animals_persist h0 (set_rng_pos f h).
Proof. apply animals_persist_same. reflexivity. Qed.

Lemma persist_update_cell c f : preserves (animals_persist h0) (update_cell c f).
Proof.
  intros h H. unfold update_cell, bind, get_cell.
  destruct (cell_objs h !! c); [|exact H].
  revert H. apply animals_persist_same. reflexivity.
Qed.

Lemma persist_update_animal a f :
  keeps_identity f -> preserves (animals_persist h0) (update_animal a f).
Proof.
  intros Hf h H. unfold update_animal, bind, get_animal.
  destruct (animal_objs h !! a) as [x|] eqn:Hx; [|exact H].
  intros a' x0 Ha. cbn [snd animal_objs set_animals].
  destruct (H _ _ Ha) as (y & Hy & Hl).
  destruct (Nat.eq_dec a a') as [<-|Hne].
  - exists (f x). rewrite list_lookup_insert_eq by (eapply lookup_lt_Some; eauto).
    split; [reflexivity|]. assert (y = x) by congruence. subst y.
    eapply later_state_trans; [exact Hl|apply Hf].
  - exists y. rewrite list_lookup_insert_ne by exact Hne. auto.
Qed.

Lemma persist_new_animal x : preserves (animals_persist h0) (new_animal x).
Proof.
  intros h H a x0 Ha. cbn [snd new_animal animal_objs set_animals].
  destruct (H _ _ Ha) as (y & Hy & Hl). exists y. split; [|exact Hl].
  apply lookup_app_l_Some. exact Hy.
Qed.

#[local] Hint Resolve persist_update_cell persist_new_animal : pres.
#[local] Hint Extern 1 (preserves (animals_persist _) (update_animal _ _)) =>
  apply persist_update_animal, keeps_identity_position : pres.

Lemma persist_add c a : preserves (animals_persist h0) (Cell.add_animal c a).
Proof. unfold Cell.add_animal. pres. Qed.

Lemma persist_remove c a : preserves (animals_persist h0) (Cell.remove_animal c a).
Proof. unfold Cell.remove_animal. pres. Qed.

Lemma persist_clear_positions l :
  preserves (animals_persist h0) (Cell.clear_positions l).
Proof. induction l; simpl; pres. Qed.

Lemma persist_clear c : preserves (animals_persist h0) (Cell.clear_occupants c).
Proof. unfold Cell.clear_occupants. pres. apply persist_clear_positions. Qed.

Lemma persist_consume c amount :
  preserves (animals_persist h0) (Cell.consume_grass c amount).
Proof. unfold Cell.consume_grass. pres. Qed.

Lemma persist_regenerate c amount :
  preserves (animals_persist h0) (Cell.regenerate_grass c amount).
Proof. unfold Cell.regenerate_grass. pres. Qed.

Lemma persist_apply_ops ops s h :
  animals_persist h0 h -> animals_persist h0 (snd (apply_ops ops (s, h))).
Proof.
  intros H.
  refine (kept_apply_ops (animals_persist h0) (fun _ => True) persist_rng
            persist_update_animal (fun c p => persist_new_animal _) persist_add
            persist_remove persist_consume _ ops s h _ I persist_clear H).
  - intros c amount _. apply persist_regenerate.
  - clear. induction ops as [|op ops IH]; constructor; auto. destruct op; exact I.
Qed.

End AnimalsPersist.

(** X13: the engine never reshapes the world.  Whatever core operations
    are issued, in whatever order and with whatever arguments, the grids of
    the store are the lists of rows they were, no cell is created or
    dropped, every cell keeps its terrain and the grid it refers to, and
    the simulation keeps its ecosystem (the grid, the size and the regrowth
    rate): only grass and occupants change. *)
Theorem engine_never_reshapes_the_world :
  forall (ops : list CoreOp) (s : Simulation.t) (h : Heap),
    world_fixed h (snd (apply_ops ops (s, h)))
    /\ Simulation.ecosystem (fst (apply_ops ops (s, h))) = Simulation.ecosystem s.
Proof.
  intros ops s h. split.
  - apply world_apply_ops, world_fixed_refl.
  - apply apply_ops_ecosystem.
Qed.

(** X14: death is final and an animal is what it was born.  Whatever core
    operations are issued, every animal of the store is still in the store
    afterwards, of the same class with the same class parameters
    ([eat_amount], or [attack_cost] and [attack_damage]), with the same
    [max_energy], [move_cost], [eat_efficiency], [reproduction_threshold]
    and [reproduction_cost]; and it is alive afterwards only if it was
    alive before: nothing sets [alive] back to [True]. *)
Theorem death_is_final :
  forall (ops : list CoreOp) (s : Simulation.t) (h : Heap) (a : nat) (x0 : Animal),
    animal_objs h !! a = Some x0 ->
    exists x,
      animal_objs (snd (apply_ops ops (s, h))) !! a = Some x
      /\ class x = class x0 /\ max_energy x = max_energy x0
      /\ move_cost x = move_cost x0 /\ eat_efficiency x = eat_efficiency x0
      /\ reproduction_threshold x = reproduction_threshold x0
      /\ reproduction_cost x = reproduction_cost x0
      /\ (alive x0 = false -> alive x = false).
Proof.
  intros ops s h a x0 Ha.
  destruct (persist_apply_ops h ops s h (animals_persist_refl h) a x0 Ha)
    as (x & Hx & Hc & Hm & Hmc & He & Hr & Hrc & Hal).
  exists x. repeat split; auto.
  intros Hd. destruct (alive x); [|reflexivity]. rewrite Hal in Hd; auto.
Qed.

Lemma death_is_final_witness :
  let h := snd (Predator.eat 0 1 (hunting_heap 50 10)) in
  let x0 := mkAnimal (IsPrey 15) None false (-15) 80 2 (7 # 10) 60 40 in
  animal_objs h !! 1%nat = Some x0
  /\ exists x,
       animal_objs
         (snd (apply_ops [op_reproduce 1; op_move 1 UP; op_next_step]
                 (simulation_of 1 [0%nat; 1%nat], h))) !! 1%nat = Some x
       /\ class x = class x0 /\ max_energy x = max_energy x0
       /\ move_cost x = move_cost x0 /\ eat_efficiency x = eat_efficiency x0
       /\ reproduction_threshold x = reproduction_threshold x0
       /\ reproduction_cost x = reproduction_cost x0
       /\ (alive x0 = false -> alive x = false).
Proof.
  split; [reflexivity|].
  exact (death_is_final [op_reproduce 1; op_move 1 UP; op_next_step]
           (simulation_of 1 [0%nat; 1%nat])
           (snd (Predator.eat 0 1 (hunting_heap 50 10))) 1%nat
           (mkAnimal (IsPrey 15) None false (-15) 80 2 (7 # 10) 60 40) eq_refl).
Defined.

(** ** The step counter *)

Lemma run_loop_counter (n : nat) :
  forall s h s' k h',
    Simulation.run_loop n s h = (Ok (s', k), h') ->
    (Simulation.current_step s <= Simulation.max_steps s)%Z ->
    Simulation.current_step s'
      = Z.min (Simulation.current_step s + Z.of_nat n) (Simulation.max_steps s)
    /\ Simulation.max_steps s' = Simulation.max_steps s.
Proof.
  induction n as [|n IH]; intros s h s' k h'; cbn [Simulation.run_loop].
  - unfold ret. intros E Hle. inversion E; subst. split; [lia|reflexivity].
  - intros E Hle. apply bind_Ok in E as ([b s1] & h1 & En & E). cbn [fst snd] in E.
    destruct (Z.le_gt_cases (Simulation.max_steps s) (Simulation.current_step s))
      as [Hhalt|Hrun].
    + rewrite (next_step_halted s h Hhalt) in En. inversion En; subst.
      unfold ret in E. inversion E; subst. split; [lia|reflexivity].
    + destruct (next_step_running _ _ _ _ _ Hrun En) as (-> & Hc & Hm).
      apply bind_Ok in E as ([s2 k2] & h2 & El & E).
      unfold ret in E. inversion E; subst. cbn [fst].
      destruct (IH _ _ _ _ _ El) as [Hc2 Hm2]; [lia|].
      rewrite Hc2, Hm2, Hm, Hc. split; [lia|reflexivity].
Qed.

(** X15: [run] advances the step counter by the number of steps asked for,
    and stops at [max_steps].  When [run(steps)] returns on a simulation
    that is not past its limit, the counter is the smaller of
    [current_step + n] and [max_steps], where [n] is [steps], or
    [max_steps] when [steps] is [None] or [0], and nothing when it is
    negative; [max_steps] is what it was. *)
Theorem run_advances_the_counter
    (s s' : Simulation.t) (steps : option Z) (h h' : Heap) (k : nat) :
  (Simulation.current_step s <= Simulation.max_steps s)%Z ->
  Simulation.run s steps h = (Ok (s', k), h') ->
  let n := match steps with
           | None => Simulation.max_steps s
           | Some x => if (x =? 0)%Z then Simulation.max_steps s else x
           end in
  Simulation.current_step s'
    = Z.min (Simulation.current_step s + Z.max n 0) (Simulation.max_steps s)
  /\ Simulation.max_steps s' = Simulation.max_steps s.
Proof.
  intros Hle E n. unfold Simulation.run in E. fold n in E.
  destruct (run_loop_counter _ _ _ _ _ _ E Hle) as [Hc Hm].
  split; [|exact Hm]. rewrite Hc. f_equal. f_equal. lia.
Qed.

Lemma run_advances_the_counter_witness :
  exists s' k h',
    Simulation.run (simulation_of 2 [0%nat]) (Some 4%Z) (prey_alone_heap 70)
      = (Ok (s', k), h')
    /\ Simulation.current_step s' = 4%Z /\ Simulation.max_steps s' = 10%Z.
Proof.
  destruct (Simulation.run (simulation_of 2 [0%nat]) (Some 4%Z) (prey_alone_heap 70))
    as [[[s' k]|e] h'] eqn:E; [|vm_compute in E; discriminate E].
  exists s', k, h'. split; [reflexivity|].
  apply (run_advances_the_counter (simulation_of 2 [0%nat]) s' (Some 4%Z)
           (prey_alone_heap 70) h' k); [simpl; lia|exact E].
Defined.

(** ** Building the world *)

Lemma init_cell_spec gref density {B} (K : nat -> M B) h :
  unit_draws h ->
  exists h1 x,
    (u <- random_random ;;
     cell <- (if Qlt_bool u density then Cell.init "rock" 1
              else g <- random_uniform (1 # 2) 1 ;; Cell.init "soil" g) ;;
     update_cell cell (with_map_reference (Some gref)) ;;;
     K cell) h = K (length (cell_objs h)) h1
    /\ cell_objs h1 = cell_objs h ++ [x] /\ fresh_cell gref x
    /\ grid_objs h1 = grid_objs h /\ animal_objs h1 = animal_objs h
    /\ rng_unit h1 = rng_unit h.
Proof.
  intros Hu. unfold bind at 1, random_random.
  destruct (Qlt_bool (rng_unit h (rng_pos h)) density).
  - eexists _, _. split; [|split].
    + unfold bind, Cell.init, update_cell, bind, get_cell, new_cell. simpl.
      rewrite lookup_snoc_last. reflexivity.
    + cbn [cell_objs set_cells set_rng_pos]. apply insert_snoc_last.
    + cbn. repeat split; reflexivity.
  - eexists _, _. split; [|split].
    + unfold bind, random_uniform, bind, random_random, ret, Cell.init, update_cell,
        bind, get_cell, new_cell. simpl.
      rewrite lookup_snoc_last. reflexivity.
    + cbn [cell_objs set_cells set_rng_pos]. apply insert_snoc_last.
    + cbn. repeat split; try reflexivity.
      * destruct (Hu (S (rng_pos h))). unfold with_map_reference. simpl. lra.
      * destruct (Hu (S (rng_pos h))). unfold with_map_reference. simpl. lra.
Qed.

Lemma init_row_spec gref density n : forall h,
  unit_draws h ->
  exists h' new,
    Ecosystem.init_row gref density n h = (Ok (seq (length (cell_objs h)) n), h')
    /\ cell_objs h' = cell_objs h ++ new /\ length new = n
    /\ Forall (fresh_cell gref) new
    /\ grid_objs h' = grid_objs h /\ animal_objs h' = animal_objs h
    /\ rng_unit h' = rng_unit h.
Proof.
  induction n as [|n IH]; intros h Hu.
  - exists h, []. simpl. rewrite app_nil_r. repeat split; auto.
  - cbn [Ecosystem.init_row].
    destruct (init_cell_spec gref density
                (fun cell => rest <- Ecosystem.init_row gref density n ;; ret (cell :: rest))
                h Hu) as (h1 & x & E & Hc & Hx & Hg & Ha & Hr).
    rewrite E. clear E.
    assert (Hu1 : unit_draws h1) by (intros k; rewrite Hr; apply Hu).
    destruct (IH h1 Hu1) as (h2 & new & E2 & Hc2 & Hl & Hnew & Hg2 & Ha2 & Hr2).
    exists h2, (x :: new). unfold bind. rewrite E2. unfold ret.
    rewrite Hc, length_app, Nat.add_1_r. cbn [seq]. split; [reflexivity|].
    rewrite Hc2, Hc, <- app_assoc. cbn [app length].
    repeat split; auto; congruence.
Qed.

Lemma update_grid_eq g f h x :
  grid_objs h !! g = Some x ->
  update_grid g f h = (Ok tt, set_grids (fun l => <[g := f x]> l) h).
Proof. intros Hg. unfold update_grid, bind, get_grid. rewrite Hg. reflexivity. Qed.

Lemma init_rows_spec gref density width n : forall h g0,
  unit_draws h -> grid_objs h !! gref = Some g0 ->
  exists h' g new,
    Ecosystem.init_rows gref density width n h = (Ok tt, h')
    /\ grid_objs h' = <[gref := g0 ++ g]> (grid_objs h)
    /\ length g = n /\ Forall (fun row => length row = width) g
    /\ concat g = seq (length (cell_objs h)) (n * width)
    /\ cell_objs h' = cell_objs h ++ new /\ length new = (n * width)%nat
    /\ Forall (fresh_cell gref) new
    /\ animal_objs h' = animal_objs h.
Proof.
  induction n as [|n IH]; intros h g0 Hu Hg0.
  - exists h, [], []. simpl. rewrite !app_nil_r, list_insert_id by exact Hg0.
    repeat split; auto.
  - cbn [Ecosystem.init_rows].
    destruct (init_row_spec gref density width h Hu)
      as (h1 & new1 & E1 & Hc1 & Hl1 & Hnew1 & Hg1 & Ha1 & Hr1).
    unfold bind at 1. rewrite E1.
    assert (Hg0' : grid_objs h1 !! gref = Some g0) by (rewrite Hg1; exact Hg0).
    unfold bind at 1. rewrite (update_grid_eq _ _ _ _ Hg0').
    set (h2 := set_grids _ h1).
    assert (Hu2 : unit_draws h2) by (intros k; subst h2; simpl; rewrite Hr1; apply Hu).
    assert (Hg2 : grid_objs h2 !! gref = Some (g0 ++ [seq (length (cell_objs h)) width])).
    { subst h2. cbn [grid_objs set_grids]. rewrite Hg1.
      apply list_lookup_insert_eq. eapply lookup_lt_Some; eauto. }
    destruct (IH h2 _ Hu2 Hg2) as (h3 & g & new & E & Hg3 & Hl & Hrows & Hcat & Hc3 & Hl3 & Hnew & Ha3).
    exists h3, (seq (length (cell_objs h)) width :: g), (new1 ++ new).
    split; [exact E|].
    assert (Ec2 : cell_objs h2 = cell_objs h ++ new1) by (subst h2; exact Hc1).
    assert (Eg2 : grid_objs h2
                  = <[gref := g0 ++ [seq (length (cell_objs h)) width]]> (grid_objs h))
      by (subst h2; cbn [grid_objs set_grids]; rewrite Hg1; reflexivity).
    repeat split.
    + rewrite Hg3, Eg2, list_insert_insert_eq, <- app_assoc. reflexivity.
    + simpl. congruence.
    + constructor; [apply length_seq|exact Hrows].
    + cbn [concat]. rewrite Hcat, Ec2, length_app, Hl1.
      cbn [Nat.mul]. rewrite seq_app. reflexivity.
    + rewrite Hc3, Ec2, <- app_assoc. reflexivity.
    + rewrite length_app, Hl1, Hl3. reflexivity.
    + apply Forall_app; auto.
    + rewrite Ha3. subst h2. exact Ha1.
Qed.

(** X16: what [Ecosystem.__init__] builds.  With draws of [random()] in
    the unit interval the constructor never fails, for any size and any
    rock density, and returns the ecosystem of a new grid, the size and the
    rate it was given.  The grid has [size] rows of [size] cells (none for
    a size that is not positive), its cells are new and pairwise distinct
    objects, in the order they were created, and each of them is
    unoccupied, refers to the grid, and is rock without grass or soil with
    at least 0.5 and at most 1 of grass.  No existing cell, grid or animal
    changes. *)
Theorem ecosystem_init_builds_a_square
    (size : Z) (rate density : Q) (h : Heap) :
  unit_draws h ->
  let n := Z.to_nat size in
  let gref := length (grid_objs h) in
  exists h' g new,
    Ecosystem.init size rate density h = (Ok (Ecosystem.mk gref size rate), h')
    /\ grid_objs h' = grid_objs h ++ [g]
    /\ length g = n /\ Forall (fun row => length row = n) g
    /\ concat g = seq (length (cell_objs h)) (n * n)
    /\ cell_objs h' = cell_objs h ++ new /\ length new = (n * n)%nat
    /\ Forall (fresh_cell gref) new
    /\ animal_objs h' = animal_objs h.
Proof.
  intros Hu n gref. unfold Ecosystem.init, bind at 1, new_grid. fold gref. fold n.
  set (h1 := set_grids _ h).
  assert (Hu1 : unit_draws h1) by exact Hu.
  assert (Hg1 : grid_objs h1 !! gref = Some []).
  { subst h1 gref. cbn [grid_objs set_grids]. apply lookup_snoc_last. }
  destruct (init_rows_spec gref density n n h1 [] Hu1 Hg1)
    as (h' & g & new & E & Hg & Hl & Hrows & Hcat & Hc & Hln & Hnew & Ha).
  exists h', g, new. unfold bind. rewrite E. unfold ret.
  split; [reflexivity|]. split.
  { rewrite Hg. subst h1 gref. cbn [grid_objs set_grids app]. apply insert_snoc_last. }
  repeat split; auto.
Qed.

Lemma ecosystem_init_builds_a_square_witness :
  exists h' g new,
    Ecosystem.init 3 (1 # 10) (1 # 5) (prey_alone_heap 70)
      = (Ok (Ecosystem.mk 1 3 (1 # 10)), h')
    /\ grid_objs h' = grid_objs (prey_alone_heap 70) ++ [g]
    /\ length g = 3%nat /\ Forall (fun row => length row = 3%nat) g
    /\ concat g = seq 4 9
    /\ cell_objs h' = cell_objs (prey_alone_heap 70) ++ new /\ length new = 9%nat
    /\ Forall (fresh_cell 1) new
    /\ animal_objs h' = animal_objs (prey_alone_heap 70).
Proof.
  apply (ecosystem_init_builds_a_square 3 (1 # 10) (1 # 5) (prey_alone_heap 70)).
  intros k. simpl. lra.
Defined.

(** ** Regrowth *)

Lemma regenerate_grass_eq self amount h c :
  cell_objs h !! self = Some c ->
  Cell.regenerate_grass self amount h =
    if Cell.is_fertile c
    then (Ok tt, set_cells (fun l => <[self := with_grass (grass_amount c + amount) c]> l) h)
    else (Ok tt, h).
Proof.
  intros Hc. unfold Cell.regenerate_grass, bind, get_cell. rewrite Hc.
  destruct (Cell.is_fertile c); [|reflexivity].
  apply update_cell_eq. exact Hc.
Qed.

(** The cell after a regrowth of the cells listed in [l]. *)
Lemma regenerate_row_spec rate l : forall h,
  NoDup l -> Forall (fun c => is_Some (cell_objs h !! c)) l ->
  exists h',
    Ecosystem.regenerate_row rate l h = (Ok tt, h')
    /\ animal_objs h' = animal_objs h /\ grid_objs h' = grid_objs h
    /\ rng_pos h' = rng_pos h
    /\ forall c,
         cell_objs h' !! c =
           (fun cell =>
              if existsb (Nat.eqb c) l && Cell.is_fertile cell
              then with_grass (grass_amount cell + rate) cell else cell)
             <$> cell_objs h !! c.
Proof.
  induction l as [|c0 l IH]; intros h Hnd Hall.
  - exists h. simpl. repeat split; auto. intros c.
    destruct (cell_objs h !! c); reflexivity.
  - inversion Hnd as [|? ? Hnotin Hnd']; subst.
    inversion Hall as [|? ? [x Hx] Hall']; subst.
    cbn [Ecosystem.regenerate_row]. rewrite (bind_eq _ _ _ _ _ (get_cell_eq _ _ _ Hx)).
    set (h1 := if Cell.is_fertile x
               then set_cells
                      (fun l => <[c0 := with_grass (grass_amount x + rate) x]> l) h
               else h).
    assert (E1 : (if Terrain_eqb (terrain_type x) soil
                  then Cell.regenerate_grass c0 rate else ret tt) h = (Ok tt, h1)).
    { subst h1. unfold Cell.is_fertile.
      destruct (Terrain_eqb (terrain_type x) soil) eqn:Et; [|reflexivity].
      rewrite (regenerate_grass_eq _ _ _ _ Hx). unfold Cell.is_fertile.
      rewrite Et. reflexivity. }
    assert (Hc1 : forall c,
               cell_objs h1 !! c =
                 (fun cell => if Nat.eqb c c0 && Cell.is_fertile cell
                              then with_grass (grass_amount cell + rate) cell else cell)
                   <$> cell_objs h !! c).
    { intros c. subst h1. destruct (Nat.eqb_spec c c0) as [->|Hne].
      - rewrite Hx. cbn [fmap option_fmap option_map andb].
        destruct (Cell.is_fertile x); [|exact Hx].
        cbn [cell_objs set_cells]. apply list_lookup_insert_eq.
        eapply lookup_lt_Some; eauto.
      - cbn [andb]. destruct (Cell.is_fertile x).
        + cbn [cell_objs set_cells]. rewrite list_lookup_insert_ne by auto.
          destruct (cell_objs h !! c); reflexivity.
        + destruct (cell_objs h !! c); reflexivity. }
    assert (Hother : animal_objs h1 = animal_objs h /\ grid_objs h1 = grid_objs h
                     /\ rng_pos h1 = rng_pos h).
    { subst h1. destruct (Cell.is_fertile x); auto. }
    destruct Hother as (Ha1 & Hg1 & Hr1).
    assert (Hall1 : Forall (fun c => is_Some (cell_objs h1 !! c)) l).
    { eapply Forall_impl; [exact Hall'|]. intros c [y Hy]. rewrite Hc1, Hy. eauto. }
    destruct (IH h1 Hnd' Hall1) as (h' & E & Ha & Hg & Hr & Hc).
    exists h'. unfold bind at 1. rewrite E1. split; [exact E|].
    repeat split; try congruence.
    intros c. rewrite Hc, Hc1. cbn [existsb].
    destruct (cell_objs h !! c) as [cell|]; [|reflexivity].
    cbn [fmap option_fmap option_map]. f_equal.
    destruct (Nat.eqb_spec c c0) as [->|Hne]; cbn [orb andb].
    + assert (Hex : existsb (Nat.eqb c0) l = false).
      { apply not_true_is_false. intros Hex. apply existsb_exists in Hex as (y & Hy & Ey).
        apply Nat.eqb_eq in Ey. subst y. apply Hnotin, list_elem_of_In. exact Hy. }
      rewrite Hex. cbn [andb]. reflexivity.
    + reflexivity.
Qed.

Lemma regenerate_row_app rate l1 l2 h :
  Ecosystem.regenerate_row rate (l1 ++ l2) h
  = (Ecosystem.regenerate_row rate l1 ;;; Ecosystem.regenerate_row rate l2) h.
Proof.
  revert h. induction l1 as [|c l1 IH]; intros h; [reflexivity|].
  cbn [app Ecosystem.regenerate_row]. unfold bind.
  destruct (get_cell c h) as [[x|e] h1]; [|reflexivity].
  destruct ((if Terrain_eqb (terrain_type x) soil then Cell.regenerate_grass c rate
             else ret tt) h1) as [[[]|e] h2]; [|reflexivity].
  rewrite IH. reflexivity.
Qed.

Lemma regenerate_rows_concat rate g : forall h,
  Ecosystem.regenerate_rows rate g h = Ecosystem.regenerate_row rate (concat g) h.
Proof.
  induction g as [|row g IH]; intros h; [reflexivity|].
  cbn [Ecosystem.regenerate_rows concat]. rewrite regenerate_row_app.
  unfold bind. destruct (Ecosystem.regenerate_row rate row h) as [[[]|e] h1];
    [apply IH|reflexivity].
Qed.

(** X17: [Ecosystem.regenerate_grass] regrows every soil cell of the grid
    once.  On a grid whose cells are pairwise distinct, it returns, and
    afterwards every soil cell of the grid holds the grass it had plus the
    regrowth rate, whatever the amount (there is no cap), and every rock
    cell and every cell that is not in the grid is as it was; no animal,
    no grid and no occupant changes, and the random source is not read. *)
Theorem regenerate_grass_regrows_each_soil_cell_once
    (self : Ecosystem.t) (h : Heap) (g : Grid) :
  grid_objs h !! Ecosystem.map self = Some g ->
  NoDup (concat g) ->
  Forall (fun c => is_Some (cell_objs h !! c)) (concat g) ->
  exists h',
    Ecosystem.regenerate_grass self h = (Ok tt, h')
    /\ animal_objs h' = animal_objs h /\ grid_objs h' = grid_objs h
    /\ rng_pos h' = rng_pos h
    /\ length (cell_objs h') = length (cell_objs h)
    /\ (forall c cell,
          cell_objs h !! c = Some cell -> In c (concat g) -> terrain_type cell = soil ->
          cell_objs h' !! c
            = Some (with_grass (grass_amount cell + Ecosystem.grass_regrowth_rate self)
                      cell))
    /\ (forall c cell,
          cell_objs h !! c = Some cell ->
          ~ In c (concat g) \/ terrain_type cell = rock ->
          cell_objs h' !! c = Some cell).
Proof.
  intros Hg Hnd Hall.
  destruct (regenerate_row_spec (Ecosystem.grass_regrowth_rate self) (concat g) h Hnd Hall)
    as (h' & E & Ha & Hgr & Hr & Hc).
  exists h'. unfold Ecosystem.regenerate_grass, bind, get_grid. rewrite Hg.
  rewrite regenerate_rows_concat. split; [exact E|].
  repeat split; auto.
  - destruct (Nat.lt_total (length (cell_objs h')) (length (cell_objs h)))
      as [Hlt|[Heq|Hgt]]; [|exact Heq|].
    + apply lookup_lt_is_Some_2 in Hlt as [x Hx].
      pose proof (Hc (length (cell_objs h'))) as Hc'. rewrite Hx in Hc'.
      rewrite lookup_ge_None_2 in Hc' by lia. discriminate Hc'.
    + apply lookup_lt_is_Some_2 in Hgt as [x Hx].
      pose proof (Hc (length (cell_objs h))) as Hc'. rewrite Hx in Hc'.
      rewrite (lookup_ge_None_2 (cell_objs h)) in Hc' by lia. discriminate Hc'.
  - intros c cell Hcell Hin Hsoil. rewrite Hc, Hcell. cbn [fmap option_fmap option_map].
    assert (Hex : existsb (Nat.eqb c) (concat g) = true).
    { apply existsb_exists. exists c. split; [exact Hin|apply Nat.eqb_refl]. }
    rewrite Hex. unfold Cell.is_fertile. rewrite Hsoil. reflexivity.
  - intros c cell Hcell Hor. rewrite Hc, Hcell. cbn [fmap option_fmap option_map].
    destruct Hor as [Hnotin|Hrock].
    + assert (Hex : existsb (Nat.eqb c) (concat g) = false).
      { apply not_true_is_false. intros Hex. apply existsb_exists in Hex as (y & Hy & Ey).
        apply Nat.eqb_eq in Ey. subst y. apply Hnotin. exact Hy. }
      rewrite Hex. reflexivity.
    + unfold Cell.is_fertile. rewrite Hrock. rewrite andb_false_r. reflexivity.
Qed.

Lemma regenerate_grass_regrows_each_soil_cell_once_witness :
  exists h',
    Ecosystem.regenerate_grass (Ecosystem.mk 0 2 (1 # 10)) (prey_alone_heap 70)
      = (Ok tt, h')
    /\ cell_objs h' !! 3%nat = Some (mkCell soil (1 + (1 # 10)) [] (Some 0%nat))
    /\ animal_objs h' = animal_objs (prey_alone_heap 70).
Proof.
  destruct (regenerate_grass_regrows_each_soil_cell_once
              (Ecosystem.mk 0 2 (1 # 10)) (prey_alone_heap 70)
              [[0%nat; 1%nat]; [2%nat; 3%nat]] eq_refl)
    as (h' & E & Ha & _ & _ & _ & Hsoil & _).
  - apply NoDup_ListNoDup. repeat constructor; simpl; intuition lia.
  - repeat constructor; simpl; eauto.
  - exists h'. split; [exact E|]. split; [|exact Ha].
    apply (Hsoil 3%nat (mkCell soil 1 [] (Some 0%nat))); simpl; auto.
Defined.

(** ** The initial population *)

Lemma with_position_id a : with_position (position a) a = a.
Proof. destruct a; reflexivity. Qed.

Lemma random_randint_Ok a b h v h' :
  random_randint a b h = (Ok v, h') -> h' = set_rng_pos S h.
Proof.
  unfold random_randint. destruct (b <? a)%Z; intros E; inversion E. reflexivity.
Qed.

Lemma get_grid_Ok g h x h' :
  get_grid g h = (Ok x, h') -> grid_objs h !! g = Some x /\ h' = h.
Proof. unfold get_grid. destruct (grid_objs h !! g); intros E; inversion E; auto. Qed.

Lemma grid_at_In g r c n : grid_at g r c = Some n -> In n (concat g).
Proof.
  unfold grid_at. destruct (g !! Z.to_nat r) as [row|] eqn:Hr; [|discriminate].
  intros Hc. apply in_concat. exists row. split.
  - apply list_elem_of_In. eapply list_elem_of_lookup_2. exact Hr.
  - apply list_elem_of_In. eapply list_elem_of_lookup_2. exact Hc.
Qed.

Lemma cells_grow_refl h : cells_grow h h.
Proof.
  intros p x Hx. exists []. rewrite app_nil_r, with_occupants_id. exact Hx.
Qed.

Lemma cells_grow_trans h1 h2 h3 : cells_grow h1 h2 -> cells_grow h2 h3 -> cells_grow h1 h3.
Proof.
  intros H12 H23 p x Hx. destruct (H12 _ _ Hx) as (m1 & H2).
  destruct (H23 _ _ H2) as (m2 & H3). exists (m1 ++ m2).
  rewrite H3. simpl. rewrite <- app_assoc. reflexivity.
Qed.

Lemma settled_in_grow h h' gref a p :
  grid_objs h' = grid_objs h -> cells_grow h h' ->
  settled_in h gref a p -> settled_in h' gref a p.
Proof.
  intros Eg Hgrow (g & cell & Hg & Hin & Hcell & Hsoil & Ha).
  destruct (Hgrow _ _ Hcell) as (more & Hcell').
  exists g, (with_occupants (occupants cell ++ more) cell).
  rewrite Eg. repeat split; auto. simpl. apply in_or_app. auto.
Qed.

(** One placement: the loop [while not placed]. *)
Lemma place_exact fuel eco new :
  (forall p, position (new p) = p) ->
  forall h a h',
    Simulation.place fuel eco new h = (Ok a, h') ->
    exists p x g,
      a = length (animal_objs h)
      /\ grid_objs h !! Ecosystem.map eco = Some g /\ In p (concat g)
      /\ cell_objs h !! p = Some x /\ terrain_type x = soil
      /\ Cell.can_add_animal x = true
      /\ animal_objs h' = animal_objs h ++ [new (Some p)]
      /\ cell_objs h' = <[p := with_occupants (occupants x ++ [a]) x]> (cell_objs h)
      /\ grid_objs h' = grid_objs h.
Proof.
  intros Hnew. induction fuel as [|fuel IH]; intros h a h' E; [discriminate E|].
  cbn [Simulation.place] in E.
  apply bind_Ok in E as (r & h1 & Er & E). apply random_randint_Ok in Er. subst h1.
  apply bind_Ok in E as (c & h1 & Ec & E). apply random_randint_Ok in Ec. subst h1.
  apply bind_Ok in E as (g & h1 & Eg & E). apply get_grid_Ok in Eg as [Hg ->].
  apply bind_Ok in E as (p & h1 & Ep & E). apply index2_Ok in Ep as [Hp ->].
  apply bind_Ok in E as (x & h1 & Ex & E). apply get_cell_Ok in Ex as [Hx ->].
  cbn [cell_objs grid_objs set_rng_pos] in Hg, Hx.
  destruct (negb (Terrain_eqb (terrain_type x) rock) && Cell.can_add_animal x) eqn:Hok.
  - apply andb_true_iff in Hok as [Hsoil Hroom].
    assert (Hsoil' : terrain_type x = soil)
      by (destruct (terrain_type x); [discriminate|reflexivity]).
    unfold bind at 1, new_animal in E. cbn [animal_objs set_rng_pos] in E.
    unfold bind at 1 in E.
    erewrite add_animal_eq in E; [|exact Hx|apply lookup_snoc_last].
    rewrite Hroom in E. unfold ret in E. inversion E; subst a h'. clear E.
    exists p, x, g.
    cbn [animal_objs cell_objs grid_objs set_animals set_cells set_rng_pos].
    repeat split; auto.
    + eapply grid_at_In; eauto.
    + rewrite insert_snoc_last. f_equal. f_equal.
      rewrite <- (Hnew (Some p)) at 1. apply with_position_id.
  - apply IH in E as (q & y & g' & E). exists q, y, g'. exact E.
Qed.

Lemma place_spec fuel eco new :
  (forall p, position (new p) = p) ->
  forall h a h',
    Simulation.place fuel eco new h = (Ok a, h') ->
    a = length (animal_objs h)
    /\ exists p,
         animal_objs h' = animal_objs h ++ [new (Some p)]
         /\ grid_objs h' = grid_objs h
         /\ cells_grow h h'
         /\ settled_in h' (Ecosystem.map eco) a p.
Proof.
  intros Hnew h a h' E.
  apply (place_exact _ _ _ Hnew) in E
    as (p & x & g & -> & Hg & Hin & Hx & Hsoil & Hroom & Ha & Hc & Hg').
  split; [reflexivity|]. exists p. split; [exact Ha|]. split; [exact Hg'|]. split.
  - intros q y Hy. rewrite Hc. destruct (Nat.eq_dec q p) as [->|Hne].
    + exists [length (animal_objs h)].
      assert (y = x) by congruence. subst y.
      apply list_lookup_insert_eq. eapply lookup_lt_Some; eauto.
    + exists []. rewrite app_nil_r, with_occupants_id.
      rewrite list_lookup_insert_ne by auto. exact Hy.
  - exists g, (with_occupants (occupants x ++ [length (animal_objs h)]) x).
    rewrite Hg', Hc. repeat split; auto.
    + apply list_lookup_insert_eq. eapply lookup_lt_Some; eauto.
    + simpl. apply in_or_app. right. left. reflexivity.
Qed.

(** The loop [for _ in range(count)] around it. *)
Lemma place_all_spec fuel eco new count :
  (forall p, position (new p) = p) ->
  forall h l h',
    Simulation.place_all fuel eco new count h = (Ok l, h') ->
    l = seq (length (animal_objs h)) count
    /\ exists ps,
         length ps = count
         /\ animal_objs h' = animal_objs h ++ List.map (fun p => new (Some p)) ps
         /\ grid_objs h' = grid_objs h
         /\ cells_grow h h'
         /\ forall i p, ps !! i = Some p ->
              settled_in h' (Ecosystem.map eco) (length (animal_objs h) + i) p.
Proof.
  intros Hnew. induction count as [|count IH]; intros h l h' E.
  - inversion E; subst. split; [reflexivity|]. exists []. simpl.
    rewrite app_nil_r. repeat split; auto using cells_grow_refl.
    intros i p Hi. destruct i; discriminate Hi.
  - cbn [Simulation.place_all] in E.
    apply bind_Ok in E as (a & h1 & Ea & E).
    apply bind_Ok in E as (rest & h2 & Erest & E). inversion E; subst l h2. clear E.
    apply (place_spec _ _ _ Hnew) in Ea as (-> & p & Ha1 & Hg1 & Hgrow1 & Hs1).
    apply IH in Erest as (-> & ps & Hl & Ha2 & Hg2 & Hgrow2 & Hs2).
    assert (Hlen : length (animal_objs h1) = S (length (animal_objs h)))
      by (rewrite Ha1, length_app; simpl; lia).
    split; [simpl; rewrite Hlen; reflexivity|].
    exists (p :: ps). simpl. split; [congruence|]. split.
    { rewrite Ha2, Ha1, <- app_assoc. reflexivity. }
    split; [congruence|]. split; [eapply cells_grow_trans; eauto|].
    intros [|i] q Hq; simpl in Hq.
    + inversion Hq; subst q. rewrite Nat.add_0_r.
      eapply settled_in_grow; eauto.
    + replace (length (animal_objs h) + S i)%nat with (length (animal_objs h1) + i)%nat
        by lia.
      apply Hs2. exact Hq.
Qed.

Lemma count_living_spec of_class mid : forall pre post h,
  animal_objs h = pre ++ mid ++ post ->
  Simulation.count_living of_class (seq (length pre) (length mid)) h
  = (Ok (length (List.filter (fun a => of_class a && alive a) mid)), h).
Proof.
  induction mid as [|a mid IH]; intros pre post h Eh; [reflexivity|].
  cbn [length seq Simulation.count_living].
  assert (Ha : animal_objs h !! length pre = Some a)
    by (rewrite Eh; apply list_lookup_middle; reflexivity).
  rewrite (bind_eq _ _ _ _ _ (get_animal_eq _ _ _ Ha)).
  assert (E : Simulation.count_living of_class (seq (S (length pre)) (length mid)) h
              = (Ok (length (List.filter (fun a => of_class a && alive a) mid)), h)).
  { replace (S (length pre)) with (length (pre ++ [a]))
      by (rewrite length_app; simpl; lia).
    apply (IH (pre ++ [a]) post). rewrite Eh, <- app_assoc. reflexivity. }
  rewrite (bind_eq _ _ _ _ _ E). unfold ret. cbn [List.filter].
  destruct (of_class a && alive a); reflexivity.
Qed.

Lemma filter_map_all {A B} (f : B -> bool) (g : A -> B) l :
  (forall x, f (g x) = true) -> length (List.filter f (List.map g l)) = length l.
Proof. intros H. induction l; simpl; [reflexivity|]. rewrite H. simpl. congruence. Qed.

Lemma filter_map_none {A B} (f : B -> bool) (g : A -> B) l :
  (forall x, f (g x) = false) -> length (List.filter f (List.map g l)) = 0%nat.
Proof. intros H. induction l; simpl; [reflexivity|]. rewrite H. exact IHl. Qed.

Lemma ecosystem_init_animals size rate density h :
  animal_objs (snd (Ecosystem.init size rate density h)) = animal_objs h.
Proof.
  set (P := fun h' => animal_objs h' = animal_objs h).
  assert (Hupd : forall c f, preserves P (update_cell c f)).
  { intros c f h1 H1. unfold update_cell, bind, get_cell.
    destruct (cell_objs h1 !! c); exact H1. }
  assert (Hnewc : forall x, preserves P (new_cell x)) by (intros x h1 H1; exact H1).
  assert (Hgrid : forall g f, preserves P (update_grid g f)).
  { intros g f h1 H1. unfold update_grid, bind, get_grid.
    destruct (grid_objs h1 !! g); exact H1. }
  assert (Hrnd : preserves P random_random) by (intros h1 H1; exact H1).
  assert (Hcell : forall l g, preserves P (Cell.init l g)).
  { intros l g. unfold Cell.init. destruct (Cell.supported l); [apply Hnewc|].
    intros h1 H1. exact H1. }
  assert (Hrow : forall gref n, preserves P (Ecosystem.init_row gref density n)).
  { intros gref n. induction n as [|n IH]; cbn [Ecosystem.init_row];
      unfold random_uniform; pres; auto. }
  assert (Hrows : forall gref w n, preserves P (Ecosystem.init_rows gref density w n)).
  { intros gref w n. induction n as [|n IH]; cbn [Ecosystem.init_rows]; pres; auto. }
  assert (H : preserves P (Ecosystem.init size rate density)).
  { unfold Ecosystem.init. pres; auto. }
  apply H. reflexivity.
Qed.

(** X18: the population [Simulation.__init__] builds.  When the
    constructor returns, the simulation is at step 0 with the step limit it
    was given, and its population is made of new animals only: the prey
    first, as many as asked for, then the predators, each one as its class
    constructor builds it (alive, energy 50), positioned on a soil cell of
    the ecosystem's grid and an occupant of that cell.  No animal that
    existed before has changed, and [get_population_counts] returns the two
    numbers asked for.  A negative number asks for none. *)
Theorem simulation_init_population
    (fuel : nat) (size np nq ms : Z) (rate density : Q)
    (h h' : Heap) (s : Simulation.t) :
  Simulation.init fuel size np nq ms rate density h = (Ok s, h') ->
  let base := length (animal_objs h) in
  exists preys predators : list nat,
    length preys = Z.to_nat np /\ length predators = Z.to_nat nq
    /\ Simulation.animals s = seq base (Z.to_nat np + Z.to_nat nq)
    /\ animal_objs h'
       = animal_objs h ++ List.map (fun p => Prey_init (Some p)) preys
           ++ List.map (fun p => Predator_init (Some p)) predators
    /\ (forall i p, (preys ++ predators) !! i = Some p ->
          settled_in h' (Ecosystem.map (Simulation.ecosystem s)) (base + i) p)
    /\ Simulation.get_population_counts s h' = (Ok (Z.to_nat np, Z.to_nat nq), h')
    /\ Simulation.max_steps s = ms /\ Simulation.current_step s = 0%Z.
Proof.
  intros E base. unfold Simulation.init in E.
  apply bind_Ok in E as (eco & h1 & Eeco & E).
  apply bind_Ok in E as (l1 & h2 & E1 & E).
  apply bind_Ok in E as (l2 & h3 & E2 & E). inversion E; subst s h3. clear E.
  assert (Ha1 : animal_objs h1 = animal_objs h).
  { pose proof (ecosystem_init_animals size rate density h) as H. rewrite Eeco in H.
    exact H. }
  apply place_all_spec in E1 as (-> & ps1 & Hl1 & Ha2 & Hg2 & Hgrow2 & Hs1);
    [|reflexivity].
  apply place_all_spec in E2 as (-> & ps2 & Hl2 & Ha3 & Hg3 & Hgrow3 & Hs2);
    [|reflexivity].
  assert (Hlen2 : length (animal_objs h2) = (base + Z.to_nat np)%nat).
  { rewrite Ha2, length_app, length_map, Ha1, Hl1. reflexivity. }
  assert (Hobjs : animal_objs h'
                  = animal_objs h ++ List.map (fun p => Prey_init (Some p)) ps1
                      ++ List.map (fun p => Predator_init (Some p)) ps2).
  { rewrite Ha3, Ha2, Ha1, <- app_assoc. reflexivity. }
  exists ps1, ps2. cbn [Simulation.animals Simulation.ecosystem Simulation.max_steps
                          Simulation.current_step].
  split; [exact Hl1|]. split; [exact Hl2|]. split.
  { rewrite Ha1, Hlen2. fold base. rewrite seq_app. reflexivity. }
  split; [exact Hobjs|]. split.
  { intros i p Hi. destruct (Nat.lt_ge_cases i (length ps1)) as [Hlt|Hge].
    - rewrite lookup_app_l in Hi by exact Hlt.
      eapply settled_in_grow; [exact Hg3|exact Hgrow3|].
      unfold base. rewrite <- Ha1. apply Hs1. exact Hi.
    - rewrite lookup_app_r in Hi by exact Hge.
      apply Hs2 in Hi. rewrite Hlen2 in Hi.
      replace (base + i)%nat with (base + Z.to_nat np + (i - length ps1))%nat by lia.
      exact Hi. }
  split; [|split; reflexivity].
  unfold Simulation.get_population_counts. cbn [Simulation.animals].
  rewrite Ha1, Hlen2. fold base. rewrite <- seq_app.
  assert (Hmid : length (List.map (fun p => Prey_init (Some p)) ps1
                         ++ List.map (fun p => Predator_init (Some p)) ps2)
                 = (Z.to_nat np + Z.to_nat nq)%nat)
    by (rewrite length_app, !length_map; lia).
  rewrite <- Hmid.
  assert (Hobjs' : animal_objs h'
                   = animal_objs h
                     ++ (List.map (fun p => Prey_init (Some p)) ps1
                         ++ List.map (fun p => Predator_init (Some p)) ps2) ++ [])
    by (rewrite app_nil_r; exact Hobjs).
  unfold base.
  rewrite (bind_eq _ _ _ _ _ (count_living_spec is_Prey _ _ _ _ Hobjs')).
  rewrite (bind_eq _ _ _ _ _ (count_living_spec is_Predator _ _ _ _ Hobjs')).
  unfold ret. rewrite !List.filter_app, !length_app.
  rewrite (filter_map_all _ _ ps1) by reflexivity.
  rewrite (filter_map_none _ _ ps2) by reflexivity.
  rewrite (filter_map_none _ _ ps1) by reflexivity.
  rewrite (filter_map_all _ _ ps2) by reflexivity.
  rewrite Hl1, Hl2, Nat.add_0_r. reflexivity.
Qed.

Lemma simulation_init_population_witness :
  exists s h' preys predators,
    Simulation.init 5 2 1 1 10 (1 # 10) 0 empty_heap = (Ok s, h')
    /\ length preys = 1%nat /\ length predators = 1%nat
    /\ Simulation.animals s = [0%nat; 1%nat]
    /\ animal_objs h'
       = List.map (fun p => Prey_init (Some p)) preys
           ++ List.map (fun p => Predator_init (Some p)) predators
    /\ Simulation.get_population_counts s h' = (Ok (1%nat, 1%nat), h').
Proof.
  destruct (Simulation.init 5 2 1 1 10 (1 # 10) 0 empty_heap) as [[s|e] h'] eqn:E;
    [|vm_compute in E; discriminate E].
  destruct (simulation_init_population 5 2 1 1 10 (1 # 10) 0 empty_heap h' s E)
    as (preys & predators & Hl1 & Hl2 & Hl & Ha & _ & Hc & _).
  exists s, h', preys, predators.
  exact (conj eq_refl (conj Hl1 (conj Hl2 (conj Hl (conj Ha Hc))))).
Defined.

(** ** The population after a tick *)

Lemma persist_transform h0 eco animal act :
  preserves (animals_persist h0) (Ecosystem.transform eco animal act).
Proof.
  apply kept_transform.
  - apply persist_update_animal.
  - intros c p. apply persist_new_animal.
  - apply persist_add.
  - apply persist_remove.
  - apply persist_consume.
Qed.

Lemma persist_execute h0 eco of_class actions :
  preserves (animals_persist h0) (Simulation.execute eco of_class actions).
Proof.
  apply kept_execute.
  - apply persist_update_animal.
  - intros c p. apply persist_new_animal.
  - apply persist_add.
  - apply persist_remove.
  - apply persist_consume.
Qed.

Lemma persist_dead h h' x :
  animals_persist h h' -> is_Some (animal_objs h !! x) ->
  is_alive h x = false -> is_alive h' x = false.
Proof.
  intros Hp [a Ha] Hd. unfold is_alive in *. rewrite Ha in Hd.
  destruct (Hp _ _ Ha) as (a' & Ha' & Hl). rewrite Ha'.
  destruct (alive a') eqn:E; [|reflexivity].
  destruct Hl as (_ & _ & _ & _ & _ & _ & Hal). rewrite Hal in Hd; auto.
Qed.

Lemma last_occupant_reads animal h :
  snd (last_occupant animal h) = h.
Proof.
  unfold last_occupant, bind, get_animal, get_cell, ret, raise.
  destruct (animal_objs h !! animal) as [a|]; [|reflexivity].
  destruct (position a) as [p|]; [|reflexivity].
  destruct (cell_objs h !! p) as [c|]; [|reflexivity].
  destruct (List.last (List.map Some (occupants c)) None); reflexivity.
Qed.

Lemma get_animal_Ok a h x h' :
  get_animal a h = (Ok x, h') -> animal_objs h !! a = Some x /\ h' = h.
Proof. unfold get_animal. destruct (animal_objs h !! a); intros E; inversion E; auto. Qed.

(** Whatever the action, [transform] reports the [alive] flag the animal
    has when it returns. *)
Lemma transform_reports_alive eco animal act h r h' :
  Ecosystem.transform eco animal act h = (Ok r, h') ->
  is_Some (animal_objs h' !! animal) /\ fst r = is_alive h' animal.
Proof.
  assert (Hend : forall (l : list nat) h1 r1 h2,
             (a' <- get_animal animal ;; ret (alive a', l)) h1 = (Ok r1, h2) ->
             is_Some (animal_objs h2 !! animal) /\ fst r1 = is_alive h2 animal).
  { intros l h1 r1 h2 E. apply bind_Ok in E as (a' & h3 & Ea & E).
    unfold get_animal in Ea. destruct (animal_objs h1 !! animal) as [x|] eqn:Hx;
      [|discriminate].
    inversion Ea; subst. inversion E; subst. unfold is_alive. rewrite Hx.
    split; [eauto|reflexivity]. }
  unfold Ecosystem.transform. destruct act as [d|target|].
  - intros E. apply bind_Ok in E as (b & h1 & _ & E). eapply Hend; eauto.
  - intros E. apply bind_Ok in E as (a & h1 & _ & E).
    destruct (if is_Predator a then target else None) as [t|].
    + apply bind_Ok in E as (q & h2 & _ & E).
      apply bind_Ok in E as (v & h3 & _ & E). eapply Hend; eauto.
    + apply bind_Ok in E as (v & h3 & _ & E). eapply Hend; eauto.
  - intros E. apply bind_Ok in E as (success & h1 & _ & E).
    destruct success.
    + apply bind_Ok in E as (a & h2 & Ea & E).
      unfold get_animal in Ea. destruct (animal_objs h1 !! animal) as [x|] eqn:Hx;
        [|discriminate].
      inversion Ea; subst a h2. clear Ea.
      apply bind_Ok in E as (o & h2 & Eo & E).
      pose proof (last_occupant_reads animal h1) as Hr. rewrite Eo in Hr.
      simpl in Hr. subst h2. inversion E; subst. unfold is_alive. rewrite Hx.
      split; [eauto|reflexivity].
    + eapply Hend; eauto.
Qed.

(** The animals [execute] reports dead are dead when it returns. *)
Lemma execute_dead eco of_class actions : forall h r h',
  Simulation.execute eco of_class actions h = (Ok r, h') ->
  forall x, In x (fst r) -> is_Some (animal_objs h' !! x) /\ is_alive h' x = false.
Proof.
  induction actions as [|[animal act] rest IH]; intros h r h' E x Hx.
  - inversion E; subst. destruct Hx.
  - cbn [Simulation.execute] in E.
    apply bind_Ok in E as (a & h1 & Ea & E). apply get_animal_Ok in Ea as [Ha ->].
    destruct (of_class a && alive a); [|eapply IH; eauto].
    apply bind_Ok in E as (r1 & h1 & E1 & E).
    apply bind_Ok in E as (rs & h2 & Ers & E). inversion E; subst r h2. clear E.
    cbn [fst] in Hx. apply in_app_or in Hx as [Hx|Hx]; [|eapply IH; eauto].
    destruct (transform_reports_alive _ _ _ _ _ _ E1) as [Hsome Hal].
    destruct (fst r1); [destruct Hx|]. destruct Hx as [<-|[]].
    pose proof (persist_execute h1 eco of_class rest h1 (animals_persist_refl h1)) as Hp.
    rewrite Ers in Hp. cbn [snd] in Hp. split.
    + destruct Hsome as [y Hy]. destruct (Hp _ _ Hy) as (y' & Hy' & _). eauto.
    + eapply persist_dead; eauto.
Qed.

Lemma survivors_spec dead l : forall h r h',
  Simulation.survivors dead l h = (Ok r, h') ->
  h' = h
  /\ r = List.filter (fun x => is_alive h x && negb (existsb (Nat.eqb x) dead)) l.
Proof.
  induction l as [|x l IH]; intros h r h' E.
  - inversion E. auto.
  - cbn [Simulation.survivors] in E.
    apply bind_Ok in E as (a & h1 & Ea & E). apply get_animal_Ok in Ea as [Ha ->].
    apply bind_Ok in E as (rest & h1 & Erest & E). apply IH in Erest as [-> ->].
    inversion E; subst. split; [reflexivity|].
    assert (Hx : is_alive h' x = alive a) by (unfold is_alive; rewrite Ha; reflexivity).
    cbn [List.filter]. rewrite Hx. reflexivity.
Qed.

Lemma ecosystem_regenerate_animals eco h :
  animal_objs (snd (Ecosystem.regenerate_grass eco h)) = animal_objs h.
Proof.
  refine (kept_ecosystem_regenerate (fun h' => animal_objs h' = animal_objs h)
            (fun _ => True) _ eco I h eq_refl).
  intros c amount _ h1 H1. unfold Cell.regenerate_grass, bind, get_cell.
  destruct (cell_objs h1 !! c) as [x|]; [|exact H1].
  destruct (Cell.is_fertile x); [|exact H1].
  unfold update_cell, bind, get_cell. destruct (cell_objs h1 !! c); exact H1.
Qed.

Lemma seq_join (n n1 n2 : nat) :
  (n <= n1)%nat -> (n1 <= n2)%nat ->
  seq n (n1 - n) ++ seq n1 (n2 - n1) = seq n (n2 - n).
Proof.
  intros H1 H2. replace (n2 - n)%nat with ((n1 - n) + (n2 - n1))%nat by lia.
  rewrite seq_app. f_equal. f_equal. lia.
Qed.

(** The number of animals of the store is [n]. *)
Lemma count_update_animal n a f :
  preserves (fun h => length (animal_objs h) = n) (update_animal a f).
Proof.
  intros h H. unfold update_animal, bind, get_animal.
  destruct (animal_objs h !! a); [|exact H].
  cbn [snd animal_objs set_animals]. rewrite length_insert. exact H.
Qed.

Lemma count_update_cell n c f :
  preserves (fun h => length (animal_objs h) = n) (update_cell c f).
Proof.
  intros h H. unfold update_cell, bind, get_cell.
  destruct (cell_objs h !! c); exact H.
Qed.

Lemma count_add n c a :
  preserves (fun h => length (animal_objs h) = n) (Cell.add_animal c a).
Proof.
  pose proof (count_update_animal n). pose proof (count_update_cell n).
  unfold Cell.add_animal. pres; auto.
Qed.

Lemma count_remove n c a :
  preserves (fun h => length (animal_objs h) = n) (Cell.remove_animal c a).
Proof.
  pose proof (count_update_animal n). pose proof (count_update_cell n).
  unfold Cell.remove_animal. pres; auto.
Qed.

Lemma count_consume n c amount :
  preserves (fun h => length (animal_objs h) = n) (Cell.consume_grass c amount).
Proof.
  pose proof (count_update_cell n). unfold Cell.consume_grass. pres; auto.
Qed.

(** [reproduce] returns [False] only before it has changed anything. *)
Lemma reproduce_false_inv self h h' :
  Animal.reproduce self h = (Ok false, h') -> h' = h.
Proof.
  intros E. pose proof E as E0. unfold Animal.reproduce in E.
  apply bind_Ok in E as (a & h1 & Ea & E). apply get_animal_Ok in Ea as [Ha ->].
  destruct (alive a) eqn:Halive; [|inversion E; reflexivity].
  destruct (Qlt_bool (energy a) (reproduction_threshold a)) eqn:He;
    [inversion E; reflexivity|].
  cbn [negb orb] in E.
  destruct (position a) as [p|] eqn:Hp; [|inversion E; reflexivity].
  apply bind_Ok in E as (pc & h1 & Epc & E). apply get_cell_Ok in Epc as [Hpc ->].
  destruct (Cell.can_add_animal pc) eqn:Hcan; [|inversion E; reflexivity].
  rewrite (reproduce_succeeds_eq self h a p pc Ha Halive) in E0; auto.
  - discriminate E0.
  - apply Qlt_bool_false. exact He.
  - apply Nat.ltb_lt. exact Hcan.
Qed.

(** The offspring [transform] reports are the animals created during the
    call. *)
Lemma transform_offspring eco animal act h r h' :
  Ecosystem.transform eco animal act h = (Ok r, h') ->
  (length (animal_objs h) <= length (animal_objs h'))%nat
  /\ snd r = seq (length (animal_objs h))
               (length (animal_objs h') - length (animal_objs h)).
Proof.
  set (n := length (animal_objs h)).
  assert (Hsame : forall h1 : Heap, length (animal_objs h1) = n -> forall l : list nat,
             l = [] ->
             (n <= length (animal_objs h1))%nat
             /\ l = seq n (length (animal_objs h1) - n)).
  { intros h1 -> l ->. rewrite Nat.sub_diag. auto. }
  assert (Hend : forall h1 r1 h2,
             (a' <- get_animal animal ;; ret (alive a', @nil nat)) h1 = (Ok r1, h2) ->
             h2 = h1 /\ snd r1 = []).
  { intros h1 r1 h2 E. apply bind_Ok in E as (a' & h3 & Ea & E).
    apply get_animal_Ok in Ea as [_ ->]. inversion E. auto. }
  unfold Ecosystem.transform. destruct act as [d|target|].
  - intros E. apply bind_Ok in E as (b & h1 & Em & E).
    apply Hend in E as [-> Hr]. apply Hsame; [|exact Hr].
    pose proof (kept_move _ (fun a f _ => count_update_animal n a f) (count_add n) (count_remove n)
                  animal d h eq_refl) as Hk.
    rewrite Em in Hk. exact Hk.
  - assert (Heat : forall h1 v h2, dispatch_eat animal h1 = (Ok v, h2) ->
               length (animal_objs h1) = n -> length (animal_objs h2) = n).
    { intros h1 v h2 Ee H1.
      pose proof (kept_dispatch_eat _ (fun a f _ => count_update_animal n a f) (count_consume n)
                    animal h1 H1) as Hk.
      rewrite Ee in Hk. exact Hk. }
    intros E. apply bind_Ok in E as (a & h1 & Ea & E).
    apply get_animal_Ok in Ea as [_ ->].
    destruct (if is_Predator a then target else None) as [t|].
    + apply bind_Ok in E as (q & h1 & Eq & E). apply get_animal_Ok in Eq as [_ ->].
      apply bind_Ok in E as (v & h1 & Ee & E).
      apply Hend in E as [-> Hr]. apply Hsame; [|exact Hr].
      destruct (is_Prey q).
      * pose proof (kept_predator_eat _ (fun a f _ => count_update_animal n a f) (count_remove n)
                      animal t h eq_refl) as Hk.
        rewrite Ee in Hk. exact Hk.
      * eapply Heat; eauto.
    + apply bind_Ok in E as (v & h1 & Ee & E).
      apply Hend in E as [-> Hr]. apply Hsame; [|exact Hr]. eapply Heat; eauto.
  - intros E. apply bind_Ok in E as (success & h1 & Er & E).
    destruct success.
    + apply bind_Ok in E as (a1 & h2 & Ea1 & E). apply get_animal_Ok in Ea1 as [Ha1 ->].
      apply bind_Ok in E as (o & h2 & Eo & E).
      pose proof (last_occupant_reads animal h1) as Hreads. rewrite Eo in Hreads.
      cbn [snd] in Hreads. subst h2. inversion E; subst r h'. clear E. cbn [snd].
      destruct (animal_objs h !! animal) as [a|] eqn:Ha.
      2:{ unfold Animal.reproduce, bind, get_animal in Er. rewrite Ha in Er.
          discriminate Er. }
      destruct (reproduce_true_inv _ _ _ _ Ha Er)
        as (Halive & He & p & pc & Hp & Hpc & Hroom).
      rewrite (reproduce_succeeds_eq _ _ _ _ _ Ha Halive He Hp Hpc Hroom) in Er.
      inversion Er; subst h1. clear Er.
      assert (Hslt : (animal < n)%nat) by (eapply lookup_lt_Some; eauto).
      assert (Hplt : (p < length (cell_objs h))%nat) by (eapply lookup_lt_Some; eauto).
      cbn [animal_objs]. rewrite length_app, length_insert. cbn [length]. fold n.
      split; [lia|]. replace (n + 1 - n)%nat with 1%nat by lia. cbn [seq].
      unfold last_occupant in Eo.
      erewrite bind_eq in Eo.
      2:{ apply get_animal_eq. cbn [animal_objs]. apply lookup_app_l_Some.
          apply list_lookup_insert_eq. exact Hslt. }
      cbn [position with_energy] in Eo. rewrite Hp in Eo.
      erewrite bind_eq in Eo.
      2:{ apply get_cell_eq. cbn [cell_objs]. apply list_lookup_insert_eq. exact Hplt. }
      cbn [occupants with_occupants] in Eo.
      rewrite List.map_app in Eo. cbn [List.map] in Eo.
      rewrite List.last_last in Eo. inversion Eo. reflexivity.
    + apply reproduce_false_inv in Er. subst h1.
      apply Hend in E as [-> Hr]. apply Hsame; [reflexivity|exact Hr].
Qed.

(** The offspring [execute] reports are the animals created during the
    loop, in the order of their birth. *)
Lemma execute_offspring eco of_class actions : forall h r h',
  Simulation.execute eco of_class actions h = (Ok r, h') ->
  (length (animal_objs h) <= length (animal_objs h'))%nat
  /\ snd r = seq (length (animal_objs h))
               (length (animal_objs h') - length (animal_objs h)).
Proof.
  induction actions as [|[animal act] rest IH]; intros h r h' E.
  - inversion E; subst. rewrite Nat.sub_diag. auto.
  - cbn [Simulation.execute] in E.
    apply bind_Ok in E as (a & h1 & Ea & E). apply get_animal_Ok in Ea as [Ha ->].
    destruct (of_class a && alive a); [|eapply IH; eauto].
    apply bind_Ok in E as (r1 & h1 & E1 & E).
    apply bind_Ok in E as (rs & h2 & Ers & E). inversion E; subst r h2. clear E.
    apply transform_offspring in E1 as [Hle1 Hr1].
    apply IH in Ers as [Hle2 Hr2]. cbn [snd]. split; [lia|].
    rewrite Hr1, Hr2. apply seq_join; assumption.
Qed.

(** X19: the population after a tick.  When [next_step] runs a tick, the
    new population is the old one without its dead, in the same order,
    followed by the animals born during the tick, in the order of their
    birth.  An animal of the old population is kept exactly when it is alive
    when the tick ends, whether it died during the tick or was dead before;
    and what is appended is exactly the animals the tick created: every
    birth is recorded, once, and nothing else is added. *)
Theorem next_step_drops_the_dead
    (s s' : Simulation.t) (h h' : Heap) :
  Simulation.next_step s h = (Ok (true, s'), h') ->
  (length (animal_objs h) <= length (animal_objs h'))%nat
  /\ Simulation.animals s'
     = List.filter (is_alive h') (Simulation.animals s)
         ++ seq (length (animal_objs h))
              (length (animal_objs h') - length (animal_objs h)).
Proof.
  unfold Simulation.next_step.
  destruct (Simulation.max_steps s <=? Simulation.current_step s)%Z;
    [intros E; inversion E|].
  intros E. apply bind_Ok in E as (actions & h1 & Ed & E).
  apply bind_Ok in E as (r1 & h2 & E1 & E).
  apply bind_Ok in E as (r2 & h3 & E2 & E). cbv zeta in E.
  apply bind_Ok in E as (kept & h4 & Ek & E). apply survivors_spec in Ek as [-> ->].
  apply bind_Ok in E as ([] & h4 & Er & E). inversion E; subst s' h4. clear E.
  pose proof (ecosystem_regenerate_animals (Simulation.ecosystem s) h3) as Ha.
  rewrite Er in Ha. cbn [snd] in Ha.
  assert (Ha1 : animal_objs h1 = animal_objs h).
  { pose proof (pure_decide h (Ecosystem.map (Simulation.ecosystem s))
                  (Simulation.animals s) h (same_objects_refl h)) as Hp.
    rewrite Ed in Hp. cbn [snd] in Hp. destruct Hp as (_ & Hp & _). exact Hp. }
  destruct (execute_offspring _ _ _ _ _ _ E1) as [Hle1 Hr1].
  destruct (execute_offspring _ _ _ _ _ _ E2) as [Hle2 Hr2].
  rewrite Ha1 in Hle1, Hr1. rewrite Ha.
  split; [lia|]. cbn [Simulation.animals]. f_equal.
  - apply List.filter_ext. intros x.
    assert (Hal : is_alive h' x = is_alive h3 x)
      by (unfold is_alive; rewrite Ha; reflexivity).
    rewrite Hal. destruct (is_alive h3 x) eqn:Hx; [|reflexivity].
    cbn [andb].
    destruct (existsb (Nat.eqb x) (fst r1 ++ fst r2)) eqn:Hex; [exfalso|reflexivity].
    apply existsb_exists in Hex as (y & Hy & Ey). apply Nat.eqb_eq in Ey. subst y.
    apply in_app_or in Hy as [Hy|Hy].
    + destruct (execute_dead _ _ _ _ _ _ E1 x Hy) as [Hsome Hd].
      pose proof (persist_execute h2 (Simulation.ecosystem s) is_Prey actions h2
                    (animals_persist_refl h2)) as Hp.
      rewrite E2 in Hp. cbn [snd] in Hp.
      rewrite (persist_dead _ _ _ Hp Hsome Hd) in Hx. discriminate Hx.
    + destruct (execute_dead _ _ _ _ _ _ E2 x Hy) as [_ Hd]. congruence.
  - rewrite Hr1, Hr2. apply seq_join; assumption.
Qed.

Lemma next_step_drops_the_dead_witness :
  let h := mkHeap [mkCell soil 1 [0%nat; 1%nat] (Some 0%nat);
                   mkCell soil 1 [2%nat] (Some 0%nat)]
             [with_energy 50 (Predator_init (Some 0%nat));
              with_energy 10 (Prey_init (Some 0%nat));
              with_energy 70 (Prey_init (Some 1%nat))]
             [[[0%nat]; [1%nat]]] (fun _ => 0%nat) (fun _ => 0) 0 in
  exists s' h',
    Simulation.next_step (simulation_of 1 [0%nat; 1%nat; 2%nat]) h = (Ok (true, s'), h')
    /\ Simulation.animals s' = [0%nat; 2%nat; 3%nat].
Proof.
  intros h.
  destruct (Simulation.next_step (simulation_of 1 [0%nat; 1%nat; 2%nat]) h)
    as [[[b s']|e] h'] eqn:E; [|vm_compute in E; discriminate E].
  destruct b; [|vm_compute in E; discriminate E].
  destruct (next_step_drops_the_dead _ _ _ _ E) as [_ H].
  exists s', h'. split; [reflexivity|]. rewrite H.
  vm_compute in E. inversion E. reflexivity.
Defined.

(** ** Adding an animal twice *)

(** X20: [add_animal] does not look for the animal among the occupants.
    Adding the same animal twice to an empty cell succeeds both times and
    lists it twice, so the cell is full and refuses any other animal; and
    one [remove_animal], which drops the first occurrence only, leaves the
    animal among the occupants of the cell while the animal itself no
    longer has a position. *)
Theorem add_animal_does_not_check_membership
    (self animal : nat) (h : Heap) (c : Cell) (a : Animal) :
  cell_objs h !! self = Some c -> occupants c = [] ->
  animal_objs h !! animal = Some a ->
  exists h2 h3,
    (Cell.add_animal self animal ;;; Cell.add_animal self animal) h = (Ok true, h2)
    /\ cell_objs h2 !! self = Some (with_occupants [animal; animal] c)
    /\ (forall other, Cell.add_animal self other h2 = (Ok false, h2))
    /\ Cell.remove_animal self animal h2 = (Ok tt, h3)
    /\ cell_objs h3 !! self = Some (with_occupants [animal] c)
    /\ animal_objs h3 !! animal = Some (with_position None a).
Proof.
  intros Hc Hocc Ha. destruct c as [t g occ m]. cbn in Hocc. subst occ.
  assert (Hlc : (self < length (cell_objs h))%nat) by (eapply lookup_lt_Some; eauto).
  assert (Hla : (animal < length (animal_objs h))%nat) by (eapply lookup_lt_Some; eauto).
  set (c0 := mkCell t g [] m) in *.
  set (c1 := with_occupants (occupants c0 ++ [animal]) c0).
  set (a1 := with_position (Some self) a).
  set (h1 := set_animals (fun l => <[animal := a1]> l)
               (set_cells (fun l => <[self := c1]> l) h)).
  assert (E1 : Cell.add_animal self animal h = (Ok true, h1)).
  { rewrite (add_animal_eq _ _ _ _ _ Hc Ha). reflexivity. }
  assert (Hc1 : cell_objs h1 !! self = Some c1)
    by (apply list_lookup_insert_eq; exact Hlc).
  assert (Ha1 : animal_objs h1 !! animal = Some a1)
    by (apply list_lookup_insert_eq; exact Hla).
  set (c2 := with_occupants (occupants c1 ++ [animal]) c1).
  set (h2 := set_animals (fun l => <[animal := with_position (Some self) a1]> l)
               (set_cells (fun l => <[self := c2]> l) h1)).
  assert (E2 : Cell.add_animal self animal h1 = (Ok true, h2)).
  { rewrite (add_animal_eq _ _ _ _ _ Hc1 Ha1). reflexivity. }
  assert (Ec2 : c2 = with_occupants [animal; animal] c0) by reflexivity.
  assert (Hc2 : cell_objs h2 !! self = Some c2).
  { subst h2 h1. cbn [cell_objs set_cells set_animals].
    apply list_lookup_insert_eq. rewrite length_insert. exact Hlc. }
  assert (Ha2 : animal_objs h2 !! animal = Some (with_position (Some self) a1)).
  { subst h2 h1. cbn [animal_objs set_cells set_animals].
    apply list_lookup_insert_eq. rewrite length_insert. exact Hla. }
  eexists h2, _. split.
  { unfold bind. rewrite E1. exact E2. }
  split; [rewrite <- Ec2; exact Hc2|]. split.
  { intros other. unfold Cell.add_animal.
    rewrite (bind_eq _ _ _ _ _ (get_cell_eq _ _ _ Hc2)).
    rewrite Ec2. reflexivity. }
  split.
  { rewrite (remove_animal_eq _ _ _ _ _ Hc2 Ha2).
    assert (Hin : Cell.is_occupant animal c2 = true).
    { apply is_occupant_In. rewrite Ec2. left. reflexivity. }
    rewrite Hin. reflexivity. }
  cbn [cell_objs animal_objs set_cells set_animals]. split.
  - rewrite list_lookup_insert_eq by (eapply lookup_lt_Some; eauto).
    f_equal. rewrite Ec2. unfold with_occupants. cbn. rewrite Nat.eqb_refl. reflexivity.
  - rewrite list_lookup_insert_eq by (eapply lookup_lt_Some; eauto).
    reflexivity.
Qed.

Lemma add_animal_does_not_check_membership_witness :
  exists h2 h3,
    (Cell.add_animal 0 0 ;;; Cell.add_animal 0 0)
      (mkHeap [mkCell soil 1 [] None] [Prey_init None] [] (fun _ => 0%nat) (fun _ => 0) 0)
      = (Ok true, h2)
    /\ cell_objs h2 !! 0%nat = Some (mkCell soil 1 [0%nat; 0%nat] None)
    /\ (forall other, Cell.add_animal 0 other h2 = (Ok false, h2))
    /\ Cell.remove_animal 0 0 h2 = (Ok tt, h3)
    /\ cell_objs h3 !! 0%nat = Some (mkCell soil 1 [0%nat] None)
    /\ animal_objs h3 !! 0%nat = Some (Prey_init None).
Proof.
  exact (add_animal_does_not_check_membership 0 0
           (mkHeap [mkCell soil 1 [] None] [Prey_init None] [] (fun _ => 0%nat)
              (fun _ => 0) 0)
           (mkCell soil 1 [] None) (Prey_init None) eq_refl eq_refl eq_refl).
Defined.

(** ** A prey with nowhere to go *)

Lemma neighbors_get_In k ns nb : neighbors_get k ns = Some nb -> In (k, nb) ns.
Proof.
  induction ns as [|[k' n] ns IH]; simpl; [discriminate|].
  destruct (vector_eqb k' k) eqn:E.
  - intros H. inversion H; subst. apply vector_eqb_eq in E. subst. auto.
  - auto.
Qed.

Section Cornered.
Variables (h : Heap) (ns : list ((Z * Z) * Neighbor)).
Hypothesis Hvalid : forall v nb, In (v, nb) ns -> perceived h (n_cell nb) nb.
Hypothesis Hcornered :
  forall d nb c, In (vector d, nb) ns -> cell_objs h !! n_cell nb = Some c ->
    terrain_type c = rock \/ Cell.can_add_animal c = false.

Lemma safe_dirs_cornered dirs :
  Forall (fun dv => snd dv = vector (fst dv)) dirs ->
  Prey.safe_dirs ns dirs h = (Ok [], h).
Proof.
  induction dirs as [|[d0 v0] dirs IH]; intros Hd; [reflexivity|].
  inversion Hd as [|? ? Hv Hd']; subst. cbn [fst snd] in Hv. subst v0.
  cbn [Prey.safe_dirs].
  destruct (neighbors_get (vector d0) ns) as [nb|] eqn:Eg; [|auto].
  apply neighbors_get_In in Eg.
  destruct (Hvalid _ _ Eg) as (c & Hc & Enb).
  destruct (Terrain_eqb (n_terrain nb) soil) eqn:Et; [|auto].
  rewrite (bind_eq _ _ _ _ _ (get_cell_eq _ _ _ Hc)).
  rewrite (bind_eq _ _ _ _ _ (IH Hd')). unfold ret.
  destruct (Hcornered _ _ _ Eg Hc) as [Hrock|Hfull].
  - rewrite Enb in Et. cbn in Et. rewrite Hrock in Et. discriminate Et.
  - rewrite Hfull. reflexivity.
Qed.

Lemma escape_cornered occ :
  Forall (fun x => is_Some (animal_objs h !! x)) occ ->
  Prey.escape ns occ h = (Ok None, h).
Proof.
  induction occ as [|o occ IH]; intros Hall; [reflexivity|].
  inversion Hall as [|? ? [x Hx] Hall']; subst. cbn [Prey.escape].
  rewrite (bind_eq _ _ _ _ _ (get_animal_eq _ _ _ Hx)).
  destruct (alive x); [|auto].
  rewrite (bind_eq _ _ _ _ _ (safe_dirs_cornered DIRECTIONS
             ltac:(repeat constructor))).
  auto.
Qed.

Lemma grass_dirs_sound : forall l0,
  (forall v nb, In (v, nb) l0 -> In (v, nb) ns) ->
  exists l,
    Prey.grass_dirs l0 h = (Ok l, h)
    /\ forall v, In v l ->
         exists nb c, In (v, nb) ns /\ cell_objs h !! n_cell nb = Some c
                      /\ terrain_type c = soil /\ Cell.can_add_animal c = true.
Proof.
  induction l0 as [|[v0 nb0] l0 IH]; intros Hsub.
  - exists []. split; [reflexivity|]. intros v [].
  - destruct IH as (l & El & Hl); [intros; apply Hsub; right; assumption|].
    cbn [Prey.grass_dirs].
    assert (Hin : In (v0, nb0) ns) by (apply Hsub; left; reflexivity).
    destruct (Hvalid _ _ Hin) as (c & Hc & Enb).
    destruct (Terrain_eqb (n_terrain nb0) soil && Qlt_bool (1 # 2) (n_grass nb0)) eqn:Et;
      [|eauto].
    rewrite (bind_eq _ _ _ _ _ (get_cell_eq _ _ _ Hc)).
    rewrite (bind_eq _ _ _ _ _ El). unfold ret.
    destruct (Cell.can_add_animal c) eqn:Hroom; [|eauto].
    eexists. split; [reflexivity|]. intros v [<-|Hv]; [|auto].
    exists nb0, c. repeat split; auto.
    apply andb_true_iff in Et as [Et _]. rewrite Enb in Et. cbn in Et.
    destruct (terrain_type c); [discriminate|reflexivity].
Qed.

Lemma first_direction_cornered gd :
  (forall v, In v gd ->
     exists nb c, In (v, nb) ns /\ cell_objs h !! n_cell nb = Some c
                  /\ terrain_type c = soil /\ Cell.can_add_animal c = true) ->
  Prey.first_direction_in gd DIRECTIONS = None.
Proof.
  intros Hgd.
  assert (Hno : forall d, existsb (vector_eqb (vector d)) gd = false).
  { intros d. apply not_true_is_false. intros Hex.
    apply existsb_exists in Hex as (v & Hv & Ev). apply vector_eqb_eq in Ev. subst v.
    destruct (Hgd _ Hv) as (nb & c & Hin & Hc & Hsoil & Hroom).
    destruct (Hcornered _ _ _ Hin Hc); congruence. }
  unfold DIRECTIONS. cbn [Prey.first_direction_in].
  pose proof (Hno UP) as H1. pose proof (Hno DOWN) as H2.
  pose proof (Hno LEFT) as H3. pose proof (Hno RIGHT) as H4.
  cbn [vector] in H1, H2, H3, H4. rewrite H1, H2, H3, H4. reflexivity.
Qed.

End Cornered.

(** X21: the decision of a prey with nowhere to go.  When none of the four
    axis-aligned neighbours of the perception is a soil cell with room, the
    escape rule of [Prey.action] selects nothing, whoever shares the cell,
    and the prey decides by its energy alone: it eats when its energy is
    under 0.7 of [max_energy] and its cell has grass; otherwise it
    reproduces when its energy has reached [reproduction_threshold] and its
    cell has room; otherwise it moves in a direction drawn among the four,
    never towards grass, since the cells it could enter are the ones the
    escape rule looked at.  Only in that last case is the random source
    read; nothing else changes. *)
Theorem cornered_prey_decides_by_energy
    (self : nat) (h : Heap) (a : Animal) (pc : Percept) (own : Cell) :
  animal_objs h !! self = Some a ->
  position a = Some (current_cell pc) ->
  cell_objs h !! current_cell pc = Some own ->
  Forall (fun x => is_Some (animal_objs h !! x)) (occupants own) ->
  (forall v nb, In (v, nb) (neighbors pc) -> perceived h (n_cell nb) nb) ->
  (forall d nb c,
      In (vector d, nb) (neighbors pc) -> cell_objs h !! n_cell nb = Some c ->
      terrain_type c = rock \/ Cell.can_add_animal c = false) ->
  exists d,
    Prey.action self (Some pc) h =
      if Qlt_bool (energy a) (max_energy a * (7 # 10)) && Cell.has_grass own
      then (Ok (EAT None), h)
      else if Qle_bool (reproduction_threshold a) (energy a) && Cell.can_add_animal own
           then (Ok REPRODUCE, h)
           else (Ok (MOVE d), set_rng_pos S h).
Proof.
  intros Ha Hpos Hown Hall Hvalid Hcornered.
  destruct (grass_dirs_sound h (neighbors pc) Hvalid (neighbors pc) (fun _ _ H => H))
    as (gd & Egd & Hgd).
  pose proof (first_direction_cornered h (neighbors pc) Hcornered gd Hgd) as Hfirst.
  destruct (random_choice_Ok (List.map fst DIRECTIONS) h ltac:(discriminate))
    as (d & Ed & _).
  exists d. unfold Prey.action.
  assert (Eesc : (cc <- get_cell (current_cell pc) ;;
                  Prey.escape (neighbors pc) (Cell.get_occupants cc)) h = (Ok None, h)).
  { rewrite (bind_eq _ _ _ _ _ (get_cell_eq _ _ _ Hown)).
    apply (escape_cornered h (neighbors pc) Hvalid Hcornered _ Hall). }
  rewrite (bind_eq _ _ _ _ _ Eesc).
  rewrite (bind_eq _ _ _ _ _ (get_animal_eq _ _ _ Ha)).
  assert (Ehungry :
            (if Qlt_bool (energy a) (max_energy a * (7 # 10))
             then cc <- get_cell (current_cell pc) ;; ret (Cell.has_grass cc)
             else ret false) h
            = (Ok (Qlt_bool (energy a) (max_energy a * (7 # 10)) && Cell.has_grass own), h)).
  { destruct (Qlt_bool (energy a) (max_energy a * (7 # 10))); [|reflexivity].
    rewrite (bind_eq _ _ _ _ _ (get_cell_eq _ _ _ Hown)). reflexivity. }
  rewrite (bind_eq _ _ _ _ _ Ehungry).
  destruct (Qlt_bool (energy a) (max_energy a * (7 # 10)) && Cell.has_grass own);
    [reflexivity|].
  assert (Efertile :
            (if Qle_bool (reproduction_threshold a) (energy a)
             then match position a with
                  | Some pos => pc0 <- get_cell pos ;; ret (Cell.can_add_animal pc0)
                  | None => raise AttributeError
                  end
             else ret false) h
            = (Ok (Qle_bool (reproduction_threshold a) (energy a)
                   && Cell.can_add_animal own), h)).
  { destruct (Qle_bool (reproduction_threshold a) (energy a)); [|reflexivity].
    rewrite Hpos, (bind_eq _ _ _ _ _ (get_cell_eq _ _ _ Hown)). reflexivity. }
  rewrite (bind_eq _ _ _ _ _ Efertile).
  destruct (Qle_bool (reproduction_threshold a) (energy a) && Cell.can_add_animal own);
    [reflexivity|].
  rewrite (bind_eq _ _ _ _ _ Egd), Hfirst, (bind_eq _ _ _ _ _ Ed). reflexivity.
Qed.

Lemma cornered_prey_decides_by_energy_witness :
  exists d,
    Prey.action 1 (Some (mkPercept 0 [((0, 0)%Z, mkNeighbor 0 soil 1 [0%nat; 1%nat])] 30))
      (hunting_heap 50 30)
    = if Qlt_bool 30 (80 * (7 # 10)) && true then (Ok (EAT None), hunting_heap 50 30)
      else if Qle_bool 60 30 && false then (Ok REPRODUCE, hunting_heap 50 30)
           else (Ok (MOVE d), set_rng_pos S (hunting_heap 50 30)).
Proof.
  apply (cornered_prey_decides_by_energy 1 (hunting_heap 50 30)
           (with_energy 30 (Prey_init (Some 0%nat)))
           (mkPercept 0 [((0, 0)%Z, mkNeighbor 0 soil 1 [0%nat; 1%nat])] 30)
           (mkCell soil 1 [0%nat; 1%nat] (Some 0%nat))); try reflexivity.
  - repeat constructor; simpl; eauto.
  - intros v nb [E|[]]. inversion E; subst.
    exists (mkCell soil 1 [0%nat; 1%nat] (Some 0%nat)). split; reflexivity.
  - intros d nb c [E|[]]. destruct d; inversion E.
Defined.

(** ** A predator without a prey in its cell *)

Lemma hunt_here_none h l :
  Forall (fun y => allocated h y /\ ~ living_prey h y) l ->
  Predator.hunt_here l h = (Ok None, h).
Proof.
  induction 1 as [|y l [[b Hb] Hnot] _ IH]; simpl; [reflexivity|].
  rewrite (bind_eq _ _ _ _ _ (get_animal_eq _ _ _ Hb)).
  destruct (is_Prey b && alive b) eqn:E; [|exact IH].
  exfalso. apply Hnot. apply andb_true_iff in E as [? ?]. exists b. auto.
Qed.

Lemma any_prey_spec h occ :
  Forall (allocated h) occ ->
  exists b,
    Predator.any_prey occ h = (Ok b, h)
    /\ (b = true <->
        exists x q, In x occ /\ animal_objs h !! x = Some q /\ is_Prey q = true).
Proof.
  induction 1 as [|x occ [q Hq] _ (b & Eb & Hb)]; simpl.
  - exists false. split; [reflexivity|]. split; [discriminate|].
    intros (x & q & [] & _).
  - rewrite (bind_eq _ _ _ _ _ (get_animal_eq _ _ _ Hq)).
    destruct (is_Prey q) eqn:Hprey.
    + exists true. split; [reflexivity|]. split; [|reflexivity].
      intros _. exists x, q. auto.
    + exists b. split; [exact Eb|]. rewrite Hb. split.
      * intros (y & r & Hy & Hr & Hp). exists y, r. auto.
      * intros (y & r & [<-|Hy] & Hr & Hp); [congruence|]. exists y, r. auto.
Qed.

Lemma direction_of_spec v d :
  Predator.direction_of v DIRECTIONS = Some d <-> v = vector d.
Proof.
  unfold DIRECTIONS. cbn [Predator.direction_of]. split.
  - destruct (vector_eqb (-1, 0)%Z v) eqn:E1;
      [apply vector_eqb_eq in E1; subst v; intros H; inversion H; reflexivity|].
    destruct (vector_eqb (1, 0)%Z v) eqn:E2;
      [apply vector_eqb_eq in E2; subst v; intros H; inversion H; reflexivity|].
    destruct (vector_eqb (0, -1)%Z v) eqn:E3;
      [apply vector_eqb_eq in E3; subst v; intros H; inversion H; reflexivity|].
    destruct (vector_eqb (0, 1)%Z v) eqn:E4;
      [apply vector_eqb_eq in E4; subst v; intros H; inversion H; reflexivity|].
    discriminate.
  - intros ->. destruct d; reflexivity.
Qed.

(** The directions the second rule of [Predator.action] collects: the
    names of the axis-aligned offsets whose cell holds a prey. *)
Lemma prey_dirs_spec h ns :
  Forall (fun e => Forall (allocated h) (n_occupants (snd e))) ns ->
  exists dirs,
    Predator.prey_dirs ns h = (Ok dirs, h)
    /\ forall d, In d dirs <->
         exists nb x q,
           In (vector d, nb) ns /\ In x (n_occupants nb)
           /\ animal_objs h !! x = Some q /\ is_Prey q = true.
Proof.
  induction 1 as [|[v nb] ns Hocc _ (rest & Erest & Hrest)]; cbn [Predator.prey_dirs].
  - exists []. split; [reflexivity|]. intros d. split; [intros []|].
    intros (nb & x & q & [] & _).
  - cbn [snd] in Hocc. destruct (any_prey_spec h _ Hocc) as (b & Eb & Hb).
    rewrite (bind_eq _ _ _ _ _ Eb), (bind_eq _ _ _ _ _ Erest). unfold ret.
    eexists. split; [reflexivity|]. intros d.
    destruct b.
    + destruct (proj1 Hb eq_refl) as (x & q & Hx & Hq & Hp).
      destruct (Predator.direction_of v DIRECTIONS) as [d0|] eqn:Ed.
      * cbn [In]. rewrite Hrest. split.
        -- intros [<-|(nb' & y & r & Hin & Hy)].
           ++ apply direction_of_spec in Ed. subst v.
              exists nb, x, q. repeat split; auto.
           ++ exists nb', y, r. split; [right; exact Hin|exact Hy].
        -- intros (nb' & y & r & [E|Hin] & Hy).
           ++ inversion E; subst. left.
              pose proof (proj2 (direction_of_spec (vector d) d) eq_refl). congruence.
           ++ right. exists nb', y, r. auto.
      * rewrite Hrest. split.
        -- intros (nb' & y & r & Hin & Hy). exists nb', y, r. split; [right; exact Hin|exact Hy].
        -- intros (nb' & y & r & [E|Hin] & Hy).
           ++ inversion E; subst.
              pose proof (proj2 (direction_of_spec (vector d) d) eq_refl). congruence.
           ++ exists nb', y, r. auto.
    + rewrite Hrest. split.
      * intros (nb' & y & r & Hin & Hy). exists nb', y, r. split; [right; exact Hin|exact Hy].
      * intros (nb' & y & r & [E|Hin] & Hy & Hr & Hp).
        -- inversion E; subst. assert (false = true) by (apply Hb; eauto). discriminate.
        -- exists nb', y, r. auto.
Qed.

(** X22: the decision of a predator whose cell holds no living prey.  It
    moves to an axis-aligned neighbouring cell that holds a prey, dead or
    alive, drawn at random among those that do, whatever its energy; a prey
    on a diagonal is not seen.  When no such cell holds a prey it
    reproduces if its energy has reached [reproduction_threshold] and its
    cell has room, and otherwise moves in a direction drawn among the four;
    its hunger plays no part.  The random source is read only when the
    decision is a move; nothing else changes. *)
Theorem predator_without_prey_in_its_cell
    (self : nat) (h : Heap) (a : Animal) (pc : Percept) (own : Cell) :
  animal_objs h !! self = Some a ->
  position a = Some (current_cell pc) ->
  cell_objs h !! current_cell pc = Some own ->
  Forall (fun x => allocated h x /\ ~ living_prey h x) (occupants own) ->
  Forall (fun e => Forall (allocated h) (n_occupants (snd e))) (neighbors pc) ->
  exists dirs d,
    (forall d0, In d0 dirs <->
       exists nb x q,
         In (vector d0, nb) (neighbors pc) /\ In x (n_occupants nb)
         /\ animal_objs h !! x = Some q /\ is_Prey q = true)
    /\ match dirs with
       | _ :: _ =>
           In d dirs
           /\ Predator.action self (Some pc) h = (Ok (MOVE d), set_rng_pos S h)
       | [] =>
           Predator.action self (Some pc) h =
             if Qle_bool (reproduction_threshold a) (energy a)
                && Cell.can_add_animal own
             then (Ok REPRODUCE, h)
             else (Ok (MOVE d), set_rng_pos S h)
       end.
Proof.
  intros Ha Hpos Hown Hhere Hall.
  destruct (prey_dirs_spec h (neighbors pc) Hall) as (dirs & Edirs & Hdirs).
  assert (Ehunt : (cc <- get_cell (current_cell pc) ;;
                   Predator.hunt_here (Cell.get_occupants cc)) h = (Ok None, h)).
  { rewrite (bind_eq _ _ _ _ _ (get_cell_eq _ _ _ Hown)).
    apply hunt_here_none. exact Hhere. }
  destruct dirs as [|d1 dirs].
  - destruct (random_choice_Ok (List.map fst DIRECTIONS) h ltac:(discriminate))
      as (d & Ed & _).
    exists [], d. split; [exact Hdirs|].
    unfold Predator.action.
    rewrite (bind_eq _ _ _ _ _ Ehunt), (bind_eq _ _ _ _ _ Edirs).
    rewrite (bind_eq _ _ _ _ _ (get_animal_eq _ _ _ Ha)).
    assert (Eseek : (if Qlt_bool (energy a) (max_energy a * (6 # 10))
                     then Predator.seek (neighbors pc) else ret None) h = (Ok None, h)).
    { destruct (Qlt_bool (energy a) (max_energy a * (6 # 10))); [|reflexivity].
      eapply seek_after_prey_dirs; eauto. }
    rewrite (bind_eq _ _ _ _ _ Eseek).
    assert (Efertile :
              (if Qle_bool (reproduction_threshold a) (energy a)
               then match position a with
                    | Some pos => pc0 <- get_cell pos ;; ret (Cell.can_add_animal pc0)
                    | None => raise AttributeError
                    end
               else ret false) h
              = (Ok (Qle_bool (reproduction_threshold a) (energy a)
                     && Cell.can_add_animal own), h)).
    { destruct (Qle_bool (reproduction_threshold a) (energy a)); [|reflexivity].
      rewrite Hpos, (bind_eq _ _ _ _ _ (get_cell_eq _ _ _ Hown)). reflexivity. }
    rewrite (bind_eq _ _ _ _ _ Efertile).
    destruct (Qle_bool (reproduction_threshold a) (energy a) && Cell.can_add_animal own);
      [reflexivity|].
    rewrite (bind_eq _ _ _ _ _ Ed). reflexivity.
  - destruct (random_choice_Ok (d1 :: dirs) h ltac:(discriminate)) as (d & Ed & Hd).
    exists (d1 :: dirs), d. split; [exact Hdirs|]. split; [exact Hd|].
    unfold Predator.action.
    rewrite (bind_eq _ _ _ _ _ Ehunt), (bind_eq _ _ _ _ _ Edirs).
    rewrite (bind_eq _ _ _ _ _ Ed). reflexivity.
Qed.

Lemma predator_without_prey_in_its_cell_witness :
  let h := mkHeap [mkCell soil 1 [0%nat] (Some 0%nat); mkCell soil 1 [1%nat] (Some 0%nat)]
             [Predator_init (Some 0%nat); with_alive false (Prey_init (Some 1%nat))]
             [[[0%nat; 1%nat]]] (fun _ => 0%nat) (fun _ => 0) 0 in
  let pc := mkPercept 0 [((0, 0)%Z, mkNeighbor 0 soil 1 [0%nat]);
                         ((0, 1)%Z, mkNeighbor 1 soil 1 [1%nat])] 50 in
  exists dirs d,
    (forall d0, In d0 dirs <->
       exists nb x q,
         In (vector d0, nb) (neighbors pc) /\ In x (n_occupants nb)
         /\ animal_objs h !! x = Some q /\ is_Prey q = true)
    /\ match dirs with
       | _ :: _ =>
           In d dirs
           /\ Predator.action 0 (Some pc) h = (Ok (MOVE d), set_rng_pos S h)
       | [] =>
           Predator.action 0 (Some pc) h =
             if Qle_bool 90 50 && true then (Ok REPRODUCE, h)
             else (Ok (MOVE d), set_rng_pos S h)
       end.
Proof.
  intros h pc.
  apply (predator_without_prey_in_its_cell 0 h (Predator_init (Some 0%nat)) pc
           (mkCell soil 1 [0%nat] (Some 0%nat))); try reflexivity.
  - repeat constructor.
    + eexists. reflexivity.
    + intros (q & Hq & Hprey & _). inversion Hq; subst. discriminate Hprey.
  - repeat constructor; eexists; reflexivity.
Defined.

(** ** [Animal.step] and [Ecosystem.transform] *)

(** X23: [Animal.step] is the decision followed by [Ecosystem.transform].
    For an animal that is alive with energy left once it has decided, the
    step changes the store and returns, or raises, exactly as
    [Ecosystem.transform] does on the action decided, whichever ecosystem is
    asked: the same move, meal or birth, the same flag and the same
    offspring.  The one exception is a predator's attack, [(EAT, (prey,))],
    which [transform] hands to [Predator.eat] and [step] cannot carry
    out. *)
Theorem step_is_decision_then_transform
    (eco : Ecosystem.t) (self : nat) (perception : Perception)
    (h h1 : Heap) (act : Action) (a : Animal) :
  dispatch_action self perception h = (Ok act, h1) ->
  animal_objs h1 !! self = Some a ->
  alive a = true -> 0 < energy a ->
  (is_Predator a = true -> forall t, act <> EAT (Some t)) ->
  Animal_step self perception h = Ecosystem.transform eco self act h1.
Proof.
  intros Eact Ha Halive Hpos Hattack. unfold Animal_step.
  rewrite (bind_eq _ _ _ _ _ Eact), (bind_eq _ _ _ _ _ (get_animal_eq _ _ _ Ha)).
  rewrite Halive. cbn [negb].
  assert (Hq : Qle_bool (energy a) 0 = false) by (apply Qle_bool_false; exact Hpos).
  rewrite Hq. unfold Ecosystem.transform. destruct act as [d|target|].
  - unfold bind. destruct (Animal.move self d h1) as [[b|e] h2]; reflexivity.
  - rewrite (bind_eq _ _ _ _ _ (get_animal_eq _ _ _ Ha)).
    assert (Ht : (if is_Predator a then target else None) = None).
    { destruct (is_Predator a) eqn:Hp; [|reflexivity].
      destruct target as [t|]; [|reflexivity]. exfalso. exact (Hattack eq_refl t eq_refl). }
    rewrite Ht. unfold bind. destruct (dispatch_eat self h1) as [[v|e] h2]; reflexivity.
  - unfold bind.
    destruct (Animal.reproduce self h1) as [[[|]|e] h2]; [| |reflexivity].
    + pose proof (last_occupant_reads self h2) as Hr.
      destruct (last_occupant self h2) as [[o|e] h3] eqn:Eo; cbn [snd] in Hr; subst h3.
      * unfold ret, get_animal.
        destruct (animal_objs h2 !! self) as [x|] eqn:Hx.
        -- rewrite Eo. reflexivity.
        -- unfold last_occupant, bind, get_animal in Eo. rewrite Hx in Eo.
           discriminate Eo.
      * unfold get_animal.
        destruct (animal_objs h2 !! self) as [x|] eqn:Hx.
        -- rewrite Eo. reflexivity.
        -- unfold last_occupant, bind, get_animal in Eo. rewrite Hx in Eo.
           inversion Eo. reflexivity.
    + reflexivity.
Qed.

Lemma step_is_decision_then_transform_witness :
  let perception := match fst (Animal.see 0 0 (prey_alone_heap 70)) with
                    | Ok p => p
                    | Raise _ => None
                    end in
  exists act h1,
    dispatch_action 0 perception (prey_alone_heap 70) = (Ok act, h1)
    /\ Animal_step 0 perception (prey_alone_heap 70)
       = Ecosystem.transform (Ecosystem.mk 0 2 (1 # 10)) 0 act h1.
Proof.
  intros perception.
  destruct (dispatch_action 0 perception (prey_alone_heap 70)) as [[act|e] h1] eqn:E;
    [|vm_compute in E; discriminate E].
  exists act, h1. split; [reflexivity|].
  apply (step_is_decision_then_transform (Ecosystem.mk 0 2 (1 # 10)) 0 perception
           (prey_alone_heap 70) h1 act (with_energy 70 (Prey_init (Some 0%nat))) E).
  - vm_compute in E. inversion E. reflexivity.
  - reflexivity.
  - reflexivity.
  - discriminate.
Defined.

(** ** Rock is never entered *)

Lemma soil_at_same h h' c :
  cell_objs h' = cell_objs h -> soil_at h c -> soil_at h' c.
Proof. intros E (x & Hx & Hs). exists x. rewrite E. auto. Qed.

Lemma on_soil_same cs h h' :
  cell_objs h' = cell_objs h -> animal_objs h' = animal_objs h ->
  on_soil cs h -> on_soil cs h'.
Proof.
  intros Ec Ea [[H1 H2] Hcs]. split; [split|].
  - intros a x p Ha Hp. rewrite Ea in Ha. eapply soil_at_same; eauto.
  - intros p c Hc. rewrite Ec in Hc. eauto.
  - eapply Forall_impl; [exact Hcs|]. intros c. apply soil_at_same. exact Ec.
Qed.

Lemma on_soil_weaken c cs h : on_soil (c :: cs) h -> on_soil cs h.
Proof. intros [HI Hcs]. inversion Hcs; subst. split; assumption. Qed.

Lemma on_soil_In cs h c : on_soil cs h -> In c cs -> soil_at h c.
Proof.
  intros [_ Hcs] Hin. rewrite Forall_forall in Hcs. apply Hcs.
  apply list_elem_of_In. exact Hin.
Qed.

Lemma soil_at_insert h c f x p :
  cell_objs h !! c = Some x -> terrain_type (f x) = terrain_type x ->
  soil_at h p -> soil_at (set_cells (fun l => <[c := f x]> l) h) p.
Proof.
  intros Hx Hf (y & Hy & Hs). unfold soil_at. cbn [cell_objs set_cells].
  destruct (Nat.eq_dec c p) as [<-|Hne].
  - exists (f x). rewrite list_lookup_insert_eq by (eapply lookup_lt_Some; eauto).
    split; [reflexivity|]. congruence.
  - exists y. rewrite list_lookup_insert_ne by exact Hne. auto.
Qed.

Lemma soil_update_cell cs c f :
  (forall x, terrain_type (f x) = terrain_type x) ->
  (forall x, occupants (f x) = occupants x \/ occupants (f x) = [] \/ In c cs) ->
  preserves (on_soil cs) (update_cell c f).
Proof.
  intros Hterrain Hocc h H. unfold update_cell, bind, get_cell.
  destruct (cell_objs h !! c) as [x|] eqn:Hx; [|exact H].
  cbn [snd]. pose proof H as [[H1 H2] Hcs]. split; [split|].
  - intros a y p Ha Hp. apply soil_at_insert; eauto.
  - intros p y Hy Hrock. cbn [cell_objs set_cells] in Hy.
    destruct (Nat.eq_dec c p) as [<-|Hne].
    + rewrite list_lookup_insert_eq in Hy by (eapply lookup_lt_Some; eauto).
      inversion Hy; subst y. rewrite Hterrain in Hrock.
      destruct (Hocc x) as [E|[E|Hin]]; [rewrite E; eauto|exact E|].
      destruct (on_soil_In _ _ _ H Hin) as (y & Hy' & Hs). congruence.
    + rewrite list_lookup_insert_ne in Hy by exact Hne. eauto.
  - eapply Forall_impl; [exact Hcs|]. intros p. apply soil_at_insert; auto.
Qed.

Lemma soil_update_animal cs a f :
  (forall x, position (f x) = position x \/ position (f x) = None
             \/ exists p, position (f x) = Some p /\ In p cs) ->
  preserves (on_soil cs) (update_animal a f).
Proof.
  intros Hf h H. unfold update_animal, bind, get_animal.
  destruct (animal_objs h !! a) as [x|] eqn:Hx; [|exact H].
  cbn [snd]. pose proof H as [[H1 H2] Hcs]. split; [split|].
  - intros b y p Hb Hp. cbn [animal_objs set_animals] in Hb.
    apply (soil_at_same h); [reflexivity|].
    destruct (Nat.eq_dec a b) as [<-|Hne].
    + rewrite list_lookup_insert_eq in Hb by (eapply lookup_lt_Some; eauto).
      inversion Hb; subst y.
      destruct (Hf x) as [E|[E|(q & E & Hin)]].
      * rewrite E in Hp. eauto.
      * congruence.
      * assert (q = p) by congruence. subst q. eapply on_soil_In; eauto.
    + rewrite list_lookup_insert_ne in Hb by exact Hne. eauto.
  - exact H2.
  - exact Hcs.
Qed.

Lemma soil_new_animal cs x :
  (position x = None \/ exists p, position x = Some p /\ In p cs) ->
  preserves (on_soil cs) (new_animal x).
Proof.
  intros Hx h H. pose proof H as [[H1 H2] Hcs]. split; [split|].
  - intros b y p Hb Hp. cbn [snd new_animal animal_objs set_animals] in Hb.
    apply (soil_at_same h); [reflexivity|].
    apply lookup_snoc_Some in Hb as [[_ Hb]|[_ <-]]; [eauto|].
    destruct Hx as [E|(q & E & Hin)]; [congruence|].
    assert (q = p) by congruence. subst q. eapply on_soil_In; eauto.
  - exact H2.
  - exact Hcs.
Qed.

Lemma soil_new_cell cs x :
  (terrain_type x = rock -> occupants x = []) ->
  preserves (on_soil cs) (new_cell x).
Proof.
  intros Hx h H. pose proof H as [[H1 H2] Hcs].
  assert (Hgrow : forall p, soil_at h p -> soil_at (snd (new_cell x h)) p).
  { intros p (y & Hy & Hs). exists y. split; [|exact Hs].
    cbn [snd new_cell cell_objs set_cells]. apply lookup_app_l_Some. exact Hy. }
  split; [split|].
  - intros b y p Hb Hp. apply Hgrow. eauto.
  - intros p y Hy Hrock. cbn [snd new_cell cell_objs set_cells] in Hy.
    apply lookup_snoc_Some in Hy as [[_ Hy]|[_ <-]]; eauto.
  - eapply Forall_impl; [exact Hcs|]. exact Hgrow.
Qed.

Lemma soil_get_cell {A} cs c (k : Cell -> M A) :
  (forall x, terrain_type x = soil -> preserves (on_soil (c :: cs)) (k x)) ->
  (forall x, terrain_type x = rock -> occupants x = [] -> preserves (on_soil cs) (k x)) ->
  preserves (on_soil cs) (bind (get_cell c) k).
Proof.
  intros Hsoil Hrock h H. unfold bind, get_cell.
  destruct (cell_objs h !! c) as [x|] eqn:Hx; [|exact H].
  destruct (terrain_type x) eqn:Ht.
  - apply Hrock; auto. destruct H as [[_ H2] _]. eauto.
  - apply (on_soil_weaken c). apply Hsoil; [exact Ht|].
    destruct H as [HI Hcs]. split; [exact HI|]. constructor; [|exact Hcs].
    exists x. auto.
Qed.

Lemma soil_get_animal {A} cs a (k : Animal -> M A) :
  (forall x, position x = None -> preserves (on_soil cs) (k x)) ->
  (forall x p, position x = Some p -> preserves (on_soil (p :: cs)) (k x)) ->
  preserves (on_soil cs) (bind (get_animal a) k).
Proof.
  intros Hnone Hsome h H. unfold bind, get_animal.
  destruct (animal_objs h !! a) as [x|] eqn:Hx; [|exact H].
  destruct (position x) as [p|] eqn:Hp.
  - apply (on_soil_weaken p). apply (Hsome x p Hp).
    destruct H as [HI Hcs]. split; [exact HI|]. constructor; [|exact Hcs].
    destruct HI as [H1 _]. eauto.
  - apply Hnone; auto.
Qed.

Lemma soil_pure {A} cs (m : M A) :
  (forall h0, preserves (same_objects h0) m) -> preserves (on_soil cs) m.
Proof.
  intros Hm h H.
  destruct (Hm h h (same_objects_refl h)) as (Ec & Ea & _).
  eapply on_soil_same; eauto.
Qed.

Lemma soil_rng cs f h : on_soil cs h -> on_soil cs (set_rng_pos f h).
Proof. apply on_soil_same; reflexivity. Qed.

Lemma soil_random_random cs : preserves (on_soil cs) random_random.
Proof. intros h. apply soil_rng. Qed.

Lemma soil_random_randint cs a b : preserves (on_soil cs) (random_randint a b).
Proof.
  intros h H. unfold random_randint. destruct (b <? a)%Z; [exact H|].
  apply soil_rng. exact H.
Qed.

Lemma soil_random_choice {A} cs (l : list A) : preserves (on_soil cs) (random_choice l).
Proof.
  intros h H. unfold random_choice.
  destruct (l !! _); [apply soil_rng|]; exact H.
Qed.

Lemma soil_update_grid cs g f : preserves (on_soil cs) (update_grid g f).
Proof.
  intros h H. unfold update_grid, bind, get_grid.
  destruct (grid_objs h !! g); [|exact H].
  revert H. apply on_soil_same; reflexivity.
Qed.

Lemma soil_new_grid cs g : preserves (on_soil cs) (new_grid g).
Proof. intros h. apply on_soil_same; reflexivity. Qed.

Lemma position_class_init c p : position (class_init c p) = p.
Proof. destruct c; reflexivity. Qed.

Create HintDb soil discriminated.

(** The side conditions of the assignments. *)
Ltac soil_side :=
  intros; cbn [In terrain_type occupants position with_grass with_occupants
                  with_map_reference with_position with_alive with_energy];
  eauto 8.

(** One step through the syntax of a computation, keeping what a read of a
    cell or of an animal tells. *)
Ltac soil_step :=
  match goal with
  | H : Some _ = Some _ |- _ => injection H as H; subst
  | H : Some _ = None |- _ => discriminate H
  | H : None = Some _ |- _ => discriminate H
  | H1 : terrain_type ?x = rock,
    H2 : Terrain_eqb (terrain_type ?x) rock || _ = false |- _ =>
      rewrite H1 in H2; discriminate H2
  | H1 : terrain_type ?x = rock,
    H2 : negb (Terrain_eqb (terrain_type ?x) rock) && _ = true |- _ =>
      rewrite H1 in H2; discriminate H2
  | |- preserves (on_soil _) (bind (get_cell _) _) =>
      apply soil_get_cell; [intros ? ?|intros ? ? ?]
  | |- preserves (on_soil _) (bind (get_animal _) _) =>
      apply soil_get_animal; [intros ? ?|intros ? ? ?]
  | |- preserves (on_soil _) (update_cell _ _) =>
      apply soil_update_cell; solve [soil_side]
  | |- preserves (on_soil _) (update_animal _ _) =>
      apply soil_update_animal; solve [soil_side]
  | |- preserves (on_soil _) (new_animal _) =>
      apply soil_new_animal; rewrite ?position_class_init; solve [soil_side | cbn; eauto 8]
  | |- preserves (on_soil _) (match ?x with _ => _ end) => destruct x eqn:?
  | |- preserves (on_soil _) (bind _ _) => apply preserves_bind; [|intros ?]
  | |- preserves (on_soil _) (let _ := _ in _) => cbv zeta
  | |- preserves (on_soil _) _ =>
      solve [ apply preserves_ret | apply preserves_raise
            | apply soil_random_random | apply soil_random_randint
            | apply soil_random_choice | apply soil_update_grid
            | apply soil_new_grid
            | apply preserves_reader; auto using get_cell_reads, get_animal_reads,
                get_grid_reads, index2_reads
            | eauto with soil ]
  end.

Ltac soil := repeat soil_step.

Lemma soil_add cs c a :
  In c cs -> preserves (on_soil cs) (Cell.add_animal c a).
Proof.
  intros Hin. unfold Cell.add_animal. soil.
Qed.

Lemma soil_remove cs c a : preserves (on_soil cs) (Cell.remove_animal c a).
Proof.
  unfold Cell.remove_animal. soil.
  match goal with
  | H : Cell.is_occupant _ ?x = true, E : occupants ?x = [] |- _ =>
      unfold Cell.is_occupant in H; rewrite E in H; discriminate H
  end.
Qed.

Lemma soil_clear_positions cs l : preserves (on_soil cs) (Cell.clear_positions l).
Proof. induction l; simpl; soil. Qed.

#[local] Hint Resolve soil_remove soil_clear_positions : soil.
#[local] Hint Extern 1 (preserves (on_soil _) (Cell.add_animal _ _)) =>
  apply soil_add; cbn [In]; auto 6 : soil.

Lemma soil_clear cs c : preserves (on_soil cs) (Cell.clear_occupants c).
Proof. unfold Cell.clear_occupants. soil. Qed.

Lemma soil_consume cs c amount : preserves (on_soil cs) (Cell.consume_grass c amount).
Proof. unfold Cell.consume_grass. soil. Qed.

Lemma soil_regenerate cs c amount :
  preserves (on_soil cs) (Cell.regenerate_grass c amount).
Proof. unfold Cell.regenerate_grass. soil. Qed.

#[local] Hint Resolve soil_clear soil_consume soil_regenerate : soil.

Lemma soil_move cs self d : preserves (on_soil cs) (Animal.move self d).
Proof.
  unfold Animal.move. soil.
Qed.

Lemma soil_reproduce cs self : preserves (on_soil cs) (Animal.reproduce self).
Proof.
  unfold Animal.reproduce. soil.
Qed.

Lemma soil_prey_eat cs self : preserves (on_soil cs) (Prey.eat self).
Proof. unfold Prey.eat. soil. Qed.

Lemma soil_predator_eat cs self prey : preserves (on_soil cs) (Predator.eat self prey).
Proof. unfold Predator.eat. soil. Qed.

#[local] Hint Resolve soil_move soil_reproduce soil_prey_eat soil_predator_eat : soil.

Lemma soil_dispatch_eat cs animal : preserves (on_soil cs) (dispatch_eat animal).
Proof. unfold dispatch_eat. soil. Qed.

Lemma soil_last_occupant cs animal : preserves (on_soil cs) (last_occupant animal).
Proof. unfold last_occupant. soil. Qed.

Lemma soil_dispatch_action cs animal perception :
  preserves (on_soil cs) (dispatch_action animal perception).
Proof. apply soil_pure. intros h0. apply pure_dispatch_action. Qed.

Lemma soil_decide cs grid l : preserves (on_soil cs) (Simulation.decide grid l).
Proof. apply soil_pure. intros h0. apply pure_decide. Qed.

#[local] Hint Resolve soil_dispatch_eat soil_last_occupant soil_dispatch_action
  soil_decide : soil.

Lemma soil_step_animal cs self perception :
  preserves (on_soil cs) (Animal_step self perception).
Proof. unfold Animal_step. soil. Qed.

Lemma soil_transform cs eco animal act :
  preserves (on_soil cs) (Ecosystem.transform eco animal act).
Proof. unfold Ecosystem.transform. soil. Qed.

#[local] Hint Resolve soil_step_animal soil_transform : soil.

Lemma soil_execute cs eco of_class actions :
  preserves (on_soil cs) (Simulation.execute eco of_class actions).
Proof.
  revert cs. induction actions as [|[animal act] rest IH]; intros cs; simpl; soil.
Qed.

Lemma soil_survivors cs dead l : preserves (on_soil cs) (Simulation.survivors dead l).
Proof. apply kept_survivors. Qed.

Lemma soil_ecosystem_regenerate cs eco :
  preserves (on_soil cs) (Ecosystem.regenerate_grass eco).
Proof.
  refine (kept_ecosystem_regenerate (on_soil cs) (fun _ => True) _ eco I).
  intros c amount _. apply soil_regenerate.
Qed.

#[local] Hint Resolve soil_execute soil_survivors soil_ecosystem_regenerate : soil.

Lemma soil_next_step cs s : preserves (on_soil cs) (Simulation.next_step s).
Proof. unfold Simulation.next_step. soil. Qed.

#[local] Hint Resolve soil_next_step : soil.

Lemma soil_run_loop cs n : forall s, preserves (on_soil cs) (Simulation.run_loop n s).
Proof. induction n as [|n IH]; intros s; simpl; soil. Qed.

Lemma soil_run cs s steps : preserves (on_soil cs) (Simulation.run s steps).
Proof. unfold Simulation.run. apply soil_run_loop. Qed.

Lemma soil_cell_init cs label grass : preserves (on_soil cs) (Cell.init label grass).
Proof.
  unfold Cell.init. destruct (Cell.supported label).
  - apply soil_new_cell. reflexivity.
  - apply preserves_raise.
Qed.

#[local] Hint Resolve soil_cell_init : soil.

Lemma soil_init_row cs gref density n :
  preserves (on_soil cs) (Ecosystem.init_row gref density n).
Proof.
  induction n as [|n IH]; cbn [Ecosystem.init_row]; unfold random_uniform; soil.
Qed.

#[local] Hint Resolve soil_init_row : soil.

Lemma soil_init_rows cs gref density width n :
  preserves (on_soil cs) (Ecosystem.init_rows gref density width n).
Proof. induction n as [|n IH]; simpl; soil. Qed.

#[local] Hint Resolve soil_init_rows : soil.

Lemma soil_ecosystem_init cs size rate density :
  preserves (on_soil cs) (Ecosystem.init size rate density).
Proof. unfold Ecosystem.init. soil. Qed.

Lemma soil_place cs fuel eco new :
  (forall p, position (new p) = p) ->
  preserves (on_soil cs) (Simulation.place fuel eco new).
Proof.
  intros Hnew. revert cs. induction fuel as [|fuel IH]; intros cs; simpl; soil.
Qed.

Lemma soil_place_all cs fuel eco new count :
  (forall p, position (new p) = p) ->
  preserves (on_soil cs) (Simulation.place_all fuel eco new count).
Proof.
  intros Hnew. induction count as [|count IH]; simpl; soil.
  apply soil_place. exact Hnew.
Qed.

Lemma soil_simulation_init cs fuel size np nq ms rate density :
  preserves (on_soil cs) (Simulation.init fuel size np nq ms rate density).
Proof.
  unfold Simulation.init. soil.
  - apply soil_ecosystem_init.
  - apply soil_place_all. reflexivity.
  - apply soil_place_all. reflexivity.
Qed.

Lemma soil_apply_op op s h :
  without_add op -> on_soil [] h -> on_soil [] (snd (apply_op op (s, h))).
Proof.
  intros Hop H. destruct op; try destruct Hop; cbn [apply_op snd];
    try (match goal with
         | |- on_soil [] (snd (?m h)) =>
             refine ((_ : preserves (on_soil []) m) h H); auto with soil
         end).
  - pose proof (soil_next_step [] s h H) as Hn.
    destruct (Simulation.next_step s h) as [[[b s']|e] h']; exact Hn.
  - pose proof (soil_run [] s steps h H) as Hn.
    destruct (Simulation.run s steps h) as [[[s' k]|e] h']; exact Hn.
Qed.

Lemma soil_apply_ops ops : forall s h,
  Forall without_add ops -> on_soil [] h -> on_soil [] (snd (apply_ops ops (s, h))).
Proof.
  unfold apply_ops. induction ops as [|op ops IH]; intros s h Hops H; [exact H|].
  cbn [fold_left]. inversion Hops; subst.
  pose proof (soil_apply_op op s h ltac:(assumption) H) as H1.
  destruct (apply_op op (s, h)) as [s1 h1]. apply IH; assumption.
Qed.

(** X24: rock is never entered.  In a store where no animal is on rock
    (every position is a soil cell, and no rock cell has an occupant), no
    animal is on rock after [Simulation.__init__] has built a world and
    placed its animals, nor after any sequence of the core operations other
    than a direct [add_animal]: moves, births, meals, steps, ticks and runs
    keep every animal on soil.  [add_animal] itself does not look at the
    terrain: called on an empty rock cell it returns [True] and puts the
    animal on the rock. *)
Theorem rock_is_never_entered :
  (forall fuel size np nq ms rate density h,
      off_the_rock h ->
      off_the_rock (snd (Simulation.init fuel size np nq ms rate density h)))
  /\ (forall ops s h,
        Forall without_add ops -> off_the_rock h ->
        off_the_rock (snd (apply_ops ops (s, h))))
  /\ (forall c a h x y,
        cell_objs h !! c = Some x -> terrain_type x = rock -> occupants x = [] ->
        animal_objs h !! a = Some y ->
        exists h',
          Cell.add_animal c a h = (Ok true, h')
          /\ cell_objs h' !! c = Some (with_occupants [a] x)
          /\ ~ off_the_rock h').
Proof.
  split; [|split].
  - intros fuel size np nq ms rate density h H.
    apply (soil_simulation_init [] fuel size np nq ms rate density h).
    split; [exact H|constructor].
  - intros ops s h Hops H. apply (soil_apply_ops ops s h Hops).
    split; [exact H|constructor].
  - intros c a h x y Hx Hrock Hocc Hy.
    rewrite (add_animal_eq _ _ _ _ _ Hx Hy). unfold Cell.can_add_animal.
    rewrite Hocc. cbn [length Nat.ltb Nat.leb app].
    eexists. split; [reflexivity|].
    assert (Hc : cell_objs
                   (set_animals (fun l => <[a := with_position (Some c) y]> l)
                      (set_cells (fun l => <[c := with_occupants [a] x]> l) h)) !! c
                 = Some (with_occupants [a] x)).
    { cbn [cell_objs set_animals set_cells]. apply list_lookup_insert_eq.
      eapply lookup_lt_Some; eauto. }
    split; [exact Hc|].
    intros [_ H2]. specialize (H2 _ _ Hc Hrock). discriminate H2.
Qed.

Lemma rock_is_never_entered_witness :
  off_the_rock (prey_alone_heap 70)
  /\ off_the_rock
       (snd (apply_ops [op_move 0 RIGHT; op_reproduce 0; op_next_step; op_run None]
               (simulation_of 2 [0%nat], prey_alone_heap 70)))
  /\ exists h',
       Cell.add_animal 0 0 (mkHeap [mkCell rock 0 [] None] [Prey_init None] []
                              (fun _ => 0%nat) (fun _ => 0) 0) = (Ok true, h')
       /\ cell_objs h' !! 0%nat = Some (mkCell rock 0 [0%nat] None)
       /\ ~ off_the_rock h'.
Proof.
  assert (H : off_the_rock (prey_alone_heap 70)).
  { split.
    - intros [|a] x p Ha Hp; inversion Ha; subst. inversion Hp; subst.
      eexists. split; reflexivity.
    - intros [|[|[|[|p]]]] c Hc Hrock; inversion Hc; subst; discriminate Hrock. }
  split; [exact H|]. split.
  - apply (proj1 (proj2 rock_is_never_entered)); [|exact H].
    repeat constructor.
  - apply (proj2 (proj2 rock_is_never_entered) 0%nat 0%nat _
             (mkCell rock 0 [] None) (Prey_init None)); reflexivity.
Defined.

(** ** The world the constructor builds is consistent *)

Lemma consistent_transfer h h' :
  animal_objs h' = animal_objs h ->
  (forall x c, member h' x c <-> member h x c) ->
  reference_consistent h /\ occupants_allocated h ->
  reference_consistent h' /\ occupants_allocated h'.
Proof.
  intros Ea Hm [Hc Ho]. split.
  - intros x a Hx. rewrite Ea in Hx. destruct (Hc x a Hx) as [H1 H2]. split.
    + intros Halive p Hp. destruct (H1 Halive p Hp) as [Hin Huniq]. split.
      * apply Hm. exact Hin.
      * intros c Hc'. apply Huniq, Hm. exact Hc'.
    + intros Hd c Hc'. apply (H2 Hd c), Hm. exact Hc'.
  - intros c cell x Hcell Hin. rewrite Ea.
    assert (Hmem : member h' x c) by (exists cell; auto).
    apply Hm in Hmem as (cell0 & Hcell0 & Hin0). eauto.
Qed.

Section ConsistentConstruction.
Let R (h : Heap) : Prop := reference_consistent h /\ occupants_allocated h.

Lemma consistent_same h h' :
  cell_objs h' = cell_objs h -> animal_objs h' = animal_objs h -> R h -> R h'.
Proof.
  intros Ec Ea. apply consistent_transfer; [exact Ea|].
  intros x c. unfold member. rewrite Ec. reflexivity.
Qed.

Lemma consistent_new_cell x : occupants x = [] -> preserves R (new_cell x).
Proof.
  intros Hx h. apply consistent_transfer; [reflexivity|].
  intros y c. cbn [snd new_cell]. unfold member. cbn [cell_objs set_cells]. split.
  - intros (cell & Hcell & Hin).
    apply lookup_snoc_Some in Hcell as [[_ Hcell]|[_ <-]]; [eauto|].
    rewrite Hx in Hin. destruct Hin.
  - intros (cell & Hcell & Hin). exists cell. split; [|exact Hin].
    apply lookup_app_l_Some. exact Hcell.
Qed.

Lemma consistent_update_cell c f :
  (forall x, occupants (f x) = occupants x) -> preserves R (update_cell c f).
Proof.
  intros Hf h H. unfold update_cell, bind, get_cell.
  destruct (cell_objs h !! c) as [x|] eqn:Hx; [|exact H].
  revert H. apply consistent_transfer; [reflexivity|].
  intros y c'. cbn [snd]. unfold member. cbn [cell_objs set_cells].
  destruct (Nat.eq_dec c c') as [<-|Hne].
  - rewrite list_lookup_insert_eq by (eapply lookup_lt_Some; eauto). split.
    + intros (cell & Hcell & Hin). inversion Hcell; subst cell.
      rewrite Hf in Hin. eauto.
    + intros (cell & Hcell & Hin). exists (f x). split; [reflexivity|].
      rewrite Hf. congruence.
  - rewrite list_lookup_insert_ne by exact Hne. reflexivity.
Qed.

Lemma consistent_ecosystem_init size rate density :
  preserves R (Ecosystem.init size rate density).
Proof.
  assert (Hgrid : forall g f, preserves R (update_grid g f)).
  { intros g f h H. unfold update_grid, bind, get_grid.
    destruct (grid_objs h !! g); [|exact H].
    revert H. apply consistent_same; reflexivity. }
  assert (Hnewg : forall g, preserves R (new_grid g))
    by (intros g h; apply consistent_same; reflexivity).
  assert (Hrnd : preserves R random_random)
    by (intros h; apply consistent_same; reflexivity).
  assert (Hcell : forall l g, preserves R (Cell.init l g)).
  { intros l g. unfold Cell.init. destruct (Cell.supported l);
      [apply consistent_new_cell; reflexivity|apply preserves_raise]. }
  assert (Hupd : forall c m, preserves R (update_cell c (with_map_reference m)))
    by (intros c m; apply consistent_update_cell; reflexivity).
  assert (Hrow : forall gref n, preserves R (Ecosystem.init_row gref density n)).
  { intros gref n. induction n as [|n IH]; cbn [Ecosystem.init_row];
      unfold random_uniform; pres; auto. }
  assert (Hrows : forall gref w n, preserves R (Ecosystem.init_rows gref density w n)).
  { intros gref w n. induction n as [|n IH]; cbn [Ecosystem.init_rows]; pres; auto. }
  unfold Ecosystem.init. pres; auto.
Qed.

Lemma consistent_place fuel eco new h a h' :
  (forall p, position (new p) = p) -> (forall p, alive (new p) = true) ->
  Simulation.place fuel eco new h = (Ok a, h') -> R h -> R h'.
Proof.
  intros Hpos Halive E [Hc Ho].
  apply (place_exact _ _ _ Hpos) in E
    as (p & x & g & -> & _ & _ & Hx & _ & _ & Ea & Ec & _).
  set (n := length (animal_objs h)) in *.
  assert (Hm : forall y c, member h' y c <-> member h y c \/ (y = n /\ c = p)).
  { intros y c. unfold member. rewrite Ec.
    destruct (Nat.eq_dec p c) as [<-|Hne].
    - rewrite list_lookup_insert_eq by (eapply lookup_lt_Some; eauto). split.
      + intros (cell & Hcell & Hin). inversion Hcell; subst cell.
        cbn [occupants with_occupants] in Hin.
        apply in_app_or in Hin as [Hin|[<-|[]]]; eauto.
      + intros [(cell & Hcell & Hin)|[-> _]]; eexists; (split; [reflexivity|]);
          cbn [occupants with_occupants]; apply in_or_app.
        * left. congruence.
        * right. left. reflexivity.
    - rewrite list_lookup_insert_ne by exact Hne. split; [auto|].
      intros [H|[_ H]]; [exact H|congruence]. }
  assert (Hfresh : forall c, ~ member h n c).
  { intros c (cell & Hcell & Hin). destruct (Ho _ _ _ Hcell Hin) as [y Hy].
    apply lookup_lt_Some in Hy. unfold n in Hy. lia. }
  split.
  - intros y b Hy. rewrite Ea in Hy.
    apply lookup_snoc_Some in Hy as [[Hlt Hy]|[Hn <-]].
    + assert (Hne : y <> n) by (unfold n; lia).
      assert (Hm' : forall c, member h' y c <-> member h y c).
      { intros c. rewrite Hm. split; [intros [H|[H _]]; [exact H|contradiction]|auto]. }
      destruct (Hc y b Hy) as [H1 H2]. split.
      * intros Hal q Hq. destruct (H1 Hal q Hq) as [Hin Huniq]. split.
        -- apply Hm'. exact Hin.
        -- intros c Hc'. apply Huniq, Hm'. exact Hc'.
      * intros Hd c Hc'. apply (H2 Hd c), Hm'. exact Hc'.
    + fold n in Hn. subst y. split.
      * intros _ q Hq. rewrite Hpos in Hq. inversion Hq; subst q. split.
        -- apply Hm. right. auto.
        -- intros c Hc'. apply Hm in Hc' as [Hc'|[_ ->]]; [|reflexivity].
           exfalso. exact (Hfresh c Hc').
      * intros [Hd|Hnone]; [rewrite Halive in Hd; discriminate|].
        rewrite Hpos in Hnone. discriminate.
  - intros c cell y Hcell Hin. rewrite Ea.
    assert (Hmem : member h' y c) by (exists cell; auto).
    apply Hm in Hmem as [(cell0 & Hcell0 & Hin0)|[-> _]].
    + destruct (Ho _ _ _ Hcell0 Hin0) as [b Hb]. exists b.
      apply lookup_app_l_Some. exact Hb.
    + eexists. apply lookup_snoc_last.
Qed.

Lemma consistent_place_all fuel eco new count :
  (forall p, position (new p) = p) -> (forall p, alive (new p) = true) ->
  forall h l h',
    Simulation.place_all fuel eco new count h = (Ok l, h') -> R h -> R h'.
Proof.
  intros Hpos Halive. induction count as [|count IH]; intros h l h' E H.
  - inversion E; subst. exact H.
  - cbn [Simulation.place_all] in E.
    apply bind_Ok in E as (a & h1 & Ea & E).
    apply bind_Ok in E as (rest & h2 & Erest & E). inversion E; subst.
    eapply IH; [exact Erest|]. eapply consistent_place; eauto.
Qed.

Lemma consistent_simulation_init fuel size np nq ms rate density h s h' :
  Simulation.init fuel size np nq ms rate density h = (Ok s, h') -> R h -> R h'.
Proof.
  intros E H. unfold Simulation.init in E.
  apply bind_Ok in E as (eco & h1 & Eeco & E).
  apply bind_Ok in E as (l1 & h2 & E1 & E).
  apply bind_Ok in E as (l2 & h3 & E2 & E). inversion E; subst.
  pose proof (consistent_ecosystem_init size rate density h H) as H1.
  rewrite Eeco in H1. cbn [snd] in H1.
  eapply (consistent_place_all _ _ Predator_init); [reflexivity|reflexivity|exact E2|].
  eapply (consistent_place_all _ _ Prey_init); [reflexivity|reflexivity|exact E1|].
  exact H1.
Qed.

End ConsistentConstruction.

(** X25: the world [Simulation.__init__] builds is consistent.  From a
    store in which every living animal that has a position is an occupant
    of exactly that cell, no other animal is an occupant of any cell, and
    every occupant is an animal of the store, the store the constructor
    leaves when it returns is such a store again, with the new cells and
    the animals it placed: each of them occupies the cell it has for
    position and no other. *)
Theorem simulation_init_is_consistent
    (fuel : nat) (size np nq ms : Z) (rate density : Q)
    (h h' : Heap) (s : Simulation.t) :
  Simulation.init fuel size np nq ms rate density h = (Ok s, h') ->
  reference_consistent h -> occupants_allocated h ->
  reference_consistent h' /\ occupants_allocated h'.
Proof.
  intros E Hc Ho.
  exact (consistent_simulation_init _ _ _ _ _ _ _ _ _ _ E (conj Hc Ho)).
Qed.

Lemma simulation_init_is_consistent_witness :
  exists s h',
    Simulation.init 5 2 1 1 10 (1 # 10) 0 empty_heap = (Ok s, h')
    /\ reference_consistent h' /\ occupants_allocated h'.
Proof.
  destruct (Simulation.init 5 2 1 1 10 (1 # 10) 0 empty_heap) as [[s|e] h'] eqn:E;
    [|vm_compute in E; discriminate E].
  exists s, h'. split; [reflexivity|].
  apply (simulation_init_is_consistent 5 2 1 1 10 (1 # 10) 0 empty_heap h' s E).
  - intros x a Hx. discriminate Hx.
  - intros c cell x Hc. discriminate Hc.
Defined.
